(** * Bunpu: distributions, reducer, formula evaluator and reactive graph

    A shallow embedding of the TypeScript sources

    - [core/types.ts], [core/ops.ts], [core/dist.ts]  (components, [Dist])
    - [core/reducer.ts]                               ([reduce])
    - [engine/evaluator.ts]                           (tokenizer, [Parser])
    - [engine/cell.ts], [engine/graph.ts]             ([Cell], [Graph])

    and of the properties that the specification states about them.

    Conventions of the embedding.

    - A JavaScript [number] is an exact rational, or one of the three
      special values NaN, +Infinity, -Infinity.  Rounding and the sign of
      zero are not represented: arithmetic on finite values is exact.
    - Component objects are mutable and shared in the source
      ([Dist.normalize] rewrites [p] and [mass] in place, and several
      operations hand the very same object on to their result).  They live
      in a store, the [Heap]; a [Dist] is the list of references held by
      its [components] array, which is never changed after construction.
    - A thrown [Error] is the result [Throw msg]; the store keeps what was
      written before the throw.  Loops and recursions whose length the
      source leaves open run on a bound computed from their input, and
      report [Diverge] if they reach it.
    - [Map] and [Set] are association lists and duplicate-free lists in
      insertion order, the order in which JavaScript iterates them.
    - The optional WebAssembly fast paths are absent (all the [wasm*]
      hooks of [core/dist.ts] are [null]), so every operation takes its
      reference path.
    - No listener is subscribed to the graph, and the cooperative [await]
      of [recalculate] is a step that changes nothing: a recalculation
      runs from its start to its end. *)

From Stdlib Require Import ZArith QArith Qabs Qround String Ascii List Lia Bool
  Permutation.
From stdpp Require Import base list.
Import ListNotations.

Local Open Scope string_scope.
Local Open Scope list_scope.

(** ** Numbers *)

Inductive number : Type :=
| NaN
| NegInfinity
| Num (q : Q)
| Infinity.

(** Finite results are kept in lowest terms, so that equal numbers are
    equal terms. *)
Definition num (q : Q) : number := Num (Qred q).

Local Open Scope Q_scope.

Definition ofZ (z : Z) : number := Num (z # 1).
Definition ofNat (n : nat) : number := ofZ (Z.of_nat n).

Definition zero : number := ofZ 0.
Definition one : number := ofZ 1.

(** [Number.MAX_VALUE] = 2^1024 - 2^971. *)
Definition MAX_VALUE : number := ofZ (2 ^ 1024 - 2 ^ 971)%Z.

Definition isNaN (a : number) : bool :=
  match a with NaN => true | _ => false end.

Definition neg (a : number) : number :=
  match a with
  | NaN => NaN
  | NegInfinity => Infinity
  | Infinity => NegInfinity
  | Num q => num (- q)
  end.

Definition add (a b : number) : number :=
  match a, b with
  | NaN, _ | _, NaN => NaN
  | Num x, Num y => num (x + y)
  | Infinity, NegInfinity | NegInfinity, Infinity => NaN
  | Infinity, _ | _, Infinity => Infinity
  | NegInfinity, _ | _, NegInfinity => NegInfinity
  end.

Definition sub (a b : number) : number := add a (neg b).

(** Sign of a finite value: [Lt], [Eq] or [Gt] against zero. *)
Definition sgn (q : Q) : comparison := Qcompare q 0.

Definition negativeQ (q : Q) : bool :=
  match sgn q with Lt => true | _ => false end.

Definition signed_infinity (positive : bool) : number :=
  if positive then Infinity else NegInfinity.

Definition mul_inf (positive : bool) (b : number) : number :=
  match b with
  | NaN => NaN
  | Infinity => signed_infinity positive
  | NegInfinity => signed_infinity (negb positive)
  | Num y =>
      match sgn y with
      | Eq => NaN
      | Gt => signed_infinity positive
      | Lt => signed_infinity (negb positive)
      end
  end.

Definition mul (a b : number) : number :=
  match a, b with
  | NaN, _ | _, NaN => NaN
  | Num x, Num y => num (x * y)
  | Infinity, _ => mul_inf true b
  | NegInfinity, _ => mul_inf false b
  | _, Infinity => mul_inf true a
  | _, NegInfinity => mul_inf false a
  end.

Definition div (a b : number) : number :=
  match a, b with
  | NaN, _ | _, NaN => NaN
  | Num x, Num y =>
      match sgn y with
      | Eq => match sgn x with
              | Eq => NaN
              | Gt => Infinity
              | Lt => NegInfinity
              end
      | _ => num (x / y)
      end
  | Num _, _ => zero
  | Infinity, Num y => signed_infinity (negb (negativeQ y))
  | NegInfinity, Num y => signed_infinity (negativeQ y)
  | _, _ => NaN
  end.

(** Comparisons; every comparison with NaN is false. *)
Definition lt (a b : number) : bool :=
  match a, b with
  | NaN, _ | _, NaN => false
  | Num x, Num y => match Qcompare x y with Lt => true | _ => false end
  | NegInfinity, NegInfinity => false
  | NegInfinity, _ => true
  | Num _, Infinity => true
  | Num _, NegInfinity => false
  | Infinity, _ => false
  end.

(** [a === b] on numbers. *)
Definition eqn (a b : number) : bool :=
  match a, b with
  | Num x, Num y => Qeq_bool x y
  | Infinity, Infinity | NegInfinity, NegInfinity => true
  | _, _ => false
  end.

Definition gt (a b : number) : bool := lt b a.
Definition le (a b : number) : bool := lt a b || eqn a b.
Definition ge (a b : number) : bool := le b a.

(** [Math.min], [Math.max], [Math.abs], [Math.floor]. *)
Definition Math_min (a b : number) : number :=
  match a, b with
  | NaN, _ | _, NaN => NaN
  | _, _ => if lt b a then b else a
  end.

Definition Math_max (a b : number) : number :=
  match a, b with
  | NaN, _ | _, NaN => NaN
  | _, _ => if lt a b then b else a
  end.

Definition Math_abs (a : number) : number :=
  match a with
  | NaN => NaN
  | NegInfinity | Infinity => Infinity
  | Num q => num (Qabs q)
  end.

Definition Math_floor (a : number) : number :=
  match a with
  | Num q => ofZ (Qfloor q)
  | _ => a
  end.

(** [Math.pow(a, n)] for an exponent that is a natural number. *)
Fixpoint pow_nat (a : number) (n : nat) : number :=
  match n with
  | O => one
  | S n' => mul a (pow_nat a n')
  end.

(** Truthiness of a number: [0] and [NaN] are falsy. *)
Definition truthy (a : number) : bool :=
  match a with
  | NaN => false
  | Num q => negb (Qeq_bool q 0)
  | _ => true
  end.

(** [a || b] on numbers and [a ?? b] on optional values. *)
Definition or_else (a : option number) (b : number) : number :=
  match a with
  | Some x => if truthy x then x else b
  | None => b
  end.

Definition nullish {A : Type} (a : option A) (b : A) : A :=
  match a with Some x => x | None => b end.

(** The decimal fraction [n / 10^digits]. *)
Definition decimal (n : Z) (digits : nat) : number :=
  num (n # Z.to_pos (10 ^ Z.of_nat digits)).

Local Close Scope Q_scope.

(** ** Components ([core/types.ts]) *)

Inductive Shape : Type := uniform | linear | custom.
Inductive Side : Type := left_side | right_side.
Inductive Family : Type := exp_family | geom | pareto | lognormal.

(** [params: Record<string, number>] is an association list. *)
Inductive DistComponent : Type :=
| Atom (x p : number)
| Bin (a b p repr : number) (shape : Shape)
| Tail (side : Side) (x0 mass : number) (family : Family)
       (params : list (string * number)) (cap : option number).

Fixpoint assoc {A : Type} (k : string) (l : list (string * A)) : option A :=
  match l with
  | [] => None
  | (k', v) :: l' => if String.eqb k k' then Some v else assoc k l'
  end.

(** [c.params.lambda || 1] *)
Definition lambda_of (params : list (string * number)) : number :=
  or_else (assoc "lambda" params) one.

(** [c.type === "tail" ? c.mass : c.p] *)
Definition massOf (c : DistComponent) : number :=
  match c with
  | Atom _ p => p
  | Bin _ _ p _ _ => p
  | Tail _ _ mass _ _ _ => mass
  end.

(** The object [c] with its [p] (or [mass]) replaced. *)
Definition withMass (c : DistComponent) (m : number) : DistComponent :=
  match c with
  | Atom x _ => Atom x m
  | Bin a b _ repr shape => Bin a b m repr shape
  | Tail side x0 _ family params cap => Tail side x0 m family params cap
  end.

Definition isTail (c : DistComponent) : bool :=
  match c with Tail _ _ _ _ _ _ => true | _ => false end.

Definition two : number := ofZ 2.

(** ** Results and the store *)

Inductive Result (A : Type) : Type :=
| Ok (a : A)
| Throw (message : string)
| Diverge.
Arguments Ok {A} a.
Arguments Throw {A} message.
Arguments Diverge {A}.

(** A computation over a state [S] that may throw. *)
Definition M (S A : Type) : Type := S -> Result A * S.

Definition ret {S A : Type} (a : A) : M S A := fun s => (Ok a, s).

Definition bind {S A B : Type} (m : M S A) (f : A -> M S B) : M S B :=
  fun s =>
    match m s with
    | (Ok a, s') => f a s'
    | (Throw e, s') => (Throw e, s')
    | (Diverge, s') => (Diverge, s')
    end.

Definition throw {S A : Type} (message : string) : M S A :=
  fun s => (Throw message, s).

Definition diverge {S A : Type} : M S A := fun s => (Diverge, s).

Definition gets {S A : Type} (f : S -> A) : M S A := fun s => (Ok (f s), s).

Definition modify {S : Type} (f : S -> S) : M S unit :=
  fun s => (Ok tt, f s).

Declare Scope monad_scope.
Delimit Scope monad_scope with monad.
Notation "'let*' x ':=' m 'in' k" := (bind m (fun x => k))
  (at level 10, x name, m at level 100, k at level 200) : monad_scope.
Notation "'let*' ' p ':=' m 'in' k" := (bind m (fun p => k))
  (at level 10, p strict pattern, m at level 100, k at level 200)
  : monad_scope.
Notation "'run' m 'in' k" := (bind m (fun _ => k))
  (at level 10, m at level 100, k at level 200) : monad_scope.
Local Open Scope monad_scope.

(** [for (const x of l) body(x)] *)
Fixpoint forEach {S A : Type} (l : list A) (body : A -> M S unit) : M S unit :=
  match l with
  | [] => ret tt
  | x :: l' => run body x in forEach l' body
  end.

(** A loop that carries an accumulator through the elements of [l]. *)
Fixpoint foldM {S A B : Type} (body : B -> A -> M S B) (l : list A) (acc : B)
  : M S B :=
  match l with
  | [] => ret acc
  | x :: l' => let* acc' := body acc x in foldM body l' acc'
  end.

(** References to component objects, and the store that holds them. *)
Abbreviation ref := nat (only parsing).
Abbreviation Heap := (list DistComponent).

(** A [Dist] is its [components] array: references into the store. *)
Abbreviation Dist := (list ref).

(** An object literal: a fresh object is allocated. *)
Definition alloc (c : DistComponent) : M Heap ref :=
  fun h => (Ok (List.length h), h ++ [c]).

(** The fields of an object.  A reference handed out by [alloc] is
    always bound; the default is never reached for such references. *)
Definition load (h : Heap) (r : ref) : DistComponent :=
  default (Atom NaN NaN) (h !! r).

Definition read (r : ref) : M Heap DistComponent :=
  gets (fun h => load h r).

Definition write (r : ref) (c : DistComponent) : M Heap unit :=
  modify (fun h => <[r := c]> h).

(** The components a [Dist] denotes in a store. *)
Definition contents (h : Heap) (d : Dist) : list DistComponent :=
  map (load h) d.

(** An array under construction holds objects that exist already
    ([Old]) and object literals ([New]). *)
Inductive Item : Type :=
| Old (r : ref)
| New (c : DistComponent).

Fixpoint materialize (items : list Item) : M Heap (list ref) :=
  match items with
  | [] => ret []
  | Old r :: rest => let* rs := materialize rest in ret (r :: rs)
  | New c :: rest =>
      let* r := alloc c in let* rs := materialize rest in ret (r :: rs)
  end.

Definition reads (d : Dist) : M Heap (list DistComponent) :=
  gets (fun h => contents h d).

(** ** Pairwise convolution ([core/ops.ts]) *)

Section Core.

(** [Math.sqrt], [Math.exp], [Math.pow] and [Math.PI] are not rational
    functions; the development is parametric in them. *)
Variable Math_sqrt : number -> number.
Variable Math_exp : number -> number.
Variable Math_pow : number -> number -> number.
Variable Math_PI : number.

Definition shiftBin (a b repr : number) (shape : Shape) (x p : number)
  : list DistComponent :=
  [Bin (add a x) (add b x) p (add repr x) shape].

Definition convolveFn (c1 c2 : DistComponent) : list DistComponent :=
  match c1, c2 with
  | Tail _ _ _ _ _ _, _ | _, Tail _ _ _ _ _ _ => []
  | Atom x1 p1, Atom x2 p2 => [Atom (add x1 x2) (mul p1 p2)]
  | Atom x1 p1, Bin a b p2 repr shape => shiftBin a b repr shape x1 (mul p1 p2)
  | Bin a b p1 repr shape, Atom x2 p2 => shiftBin a b repr shape x2 (mul p1 p2)
  | Bin a1 b1 p1 _ _, Bin a2 b2 p2 _ _ =>
      let w1 := sub b1 a1 in
      let w2 := sub b2 a2 in
      let v1 := div (mul w1 w1) (ofZ 12) in
      let v2 := div (mul w2 w2) (ofZ 12) in
      let newVar := add v1 v2 in
      let newWidth := Math_sqrt (mul (ofZ 12) newVar) in
      let center1 := div (add a1 b1) two in
      let center2 := div (add a2 b2) two in
      let newMean := add center1 center2 in
      [Bin (sub newMean (div newWidth two)) (add newMean (div newWidth two))
           (mul p1 p2) newMean uniform]
  end.

(** ** The [Dist] class ([core/dist.ts]) *)

(** [getKey] of [Dist.sort]. *)
Definition getKey (c : DistComponent) : number :=
  match c with
  | Atom x _ => x
  | Bin a _ _ _ _ => a
  | Tail left_side _ _ _ _ _ => NegInfinity
  | Tail right_side x0 _ _ _ _ => x0
  end.

(** [Array.prototype.sort] with the comparator [getKey(a) - getKey(b)]:
    a stable sort.  An element is inserted into the sorted rest of the
    array, which followed it, and moves behind an element of the rest
    only when the comparator is positive. *)
Fixpoint insertSorted (h : Heap) (r : ref) (sorted : list ref) : list ref :=
  match sorted with
  | [] => [r]
  | r' :: rest =>
      if gt (sub (getKey (load h r)) (getKey (load h r'))) zero
      then r' :: insertSorted h r rest
      else r :: r' :: rest
  end.

Definition sortRefs (h : Heap) (rs : list ref) : list ref :=
  fold_right (insertSorted h) [] rs.

(** [new Dist(components)]: the array is copied, then sorted. *)
Definition Dist_new (components : list ref) : M Heap Dist :=
  gets (fun h => sortRefs h components).

Definition Dist_of (items : list Item) : M Heap Dist :=
  let* rs := materialize items in Dist_new rs.

Definition totalMassOf (d : Dist) : M Heap number :=
  foldM (fun acc r => let* c := read r in ret (add acc (massOf c))) d zero.

Definition epsilon9 : number := decimal 1 9.

(** [normalize] rewrites the component objects in place. *)
Definition Dist_normalize (d : Dist) : M Heap unit :=
  let* totalMass := totalMassOf d in
  if eqn totalMass zero || lt (Math_abs (sub totalMass one)) epsilon9
  then ret tt
  else
    let factor := div one totalMass in
    forEach d (fun r =>
      let* c := read r in write r (withMass c (mul (massOf c) factor))).

Definition Dist_add (this other : Dist) : M Heap Dist :=
  let* cs1 := reads this in
  let* cs2 := reads other in
  Dist_of (map New
    (flat_map (fun c1 => flat_map (fun c2 => convolveFn c1 c2) cs2) cs1)).

Definition scaleItem (h : Heap) (k : number) (r : ref) : Item :=
  match load h r with
  | Atom x p => New (Atom (mul x k) p)
  | Bin a b p repr shape =>
      let na := mul a k in
      let nb := mul b k in
      New (Bin (Math_min na nb) (Math_max na nb) p (mul repr k) shape)
  | Tail _ _ _ _ _ _ => Old r
  end.

Definition Dist_scale (this : Dist) (k : number) : M Heap Dist :=
  let* items := gets (fun h => map (scaleItem h k) this) in
  Dist_of items.

Definition Dist_sub (this other : Dist) : M Heap Dist :=
  let* negated := Dist_scale other (ofZ (-1)) in
  Dist_add this negated.

Definition reciprocalOf (c : DistComponent) : list DistComponent :=
  match c with
  | Atom x p => if eqn x zero then [] else [Atom (div one x) p]
  | Bin a b p repr shape =>
      if le a zero && ge b zero then
        if lt a zero && gt b zero then
          let w := sub b a in
          let pNeg := mul p (div (neg a) w) in
          let pPos := mul p (div b w) in
          (if lt a zero
           then let midNeg := div (add a (Math_min zero (div a two))) two in
                [Atom (div one midNeg) pNeg]
           else []) ++
          (if gt b zero
           then let midPos := div (add (Math_max zero (div b two)) b) two in
                [Atom (div one midPos) pPos]
           else [])
        else if eqn a zero then [Atom (div one (div b two)) p]
        else if eqn b zero then [Atom (div one (div a two)) p]
        else []
      else
        let newA := div one b in
        let newB := div one a in
        [Bin (Math_min newA newB) (Math_max newA newB) p (div one repr) shape]
  | Tail side x0 mass _ params _ =>
      let lambda := lambda_of params in
      let condMean :=
        match side with
        | right_side => add x0 (div one lambda)
        | left_side => sub x0 (div one lambda)
        end in
      if negb (eqn condMean zero) then [Atom (div one condMean) mass] else []
  end.

Definition Dist_reciprocal (this : Dist) : M Heap Dist :=
  let* cs := reads this in
  Dist_of (map New (flat_map reciprocalOf cs)).

(** [scaleP] of [Dist.mix]: a copy of [c] with its mass multiplied. *)
Definition scaleP (c : DistComponent) (factor : number) : DistComponent :=
  withMass c (mul (massOf c) factor).

Definition Dist_mix (this other : Dist) (p : number) : M Heap Dist :=
  let* cs1 := reads this in
  let* cs2 := reads other in
  let comps1 := map (fun c => scaleP c (sub one p)) cs1 in
  let comps2 := map (fun c => scaleP c p) cs2 in
  Dist_of (map New (comps1 ++ comps2)).

Definition condMeanOf (side : Side) (x0 : number)
  (params : list (string * number)) : number :=
  match side with
  | right_side => add x0 (div one (lambda_of params))
  | left_side => sub x0 (div one (lambda_of params))
  end.

Definition meanOf (cs : list DistComponent) : number :=
  fold_left (fun m c =>
    match c with
    | Atom x p => add m (mul p x)
    | Bin a b p _ _ => add m (div (mul p (add a b)) two)
    | Tail side x0 mass _ params _ =>
        add m (mul mass (condMeanOf side x0 params))
    end) cs zero.

Definition Dist_mean (this : Dist) : M Heap number :=
  let* cs := reads this in ret (meanOf cs).

Definition Dist_variance (this : Dist) : M Heap number :=
  let* m := Dist_mean this in
  let* cs := reads this in
  let e2 := fold_left (fun e2 c =>
    match c with
    | Atom x p => add e2 (mul (mul p x) x)
    | Bin a b p _ _ =>
        add e2 (div (mul p (add (add (mul a a) (mul a b)) (mul b b))) (ofZ 3))
    | Tail side x0 mass _ params _ =>
        let lambda := lambda_of params in
        let condMean := condMeanOf side x0 params in
        let condVar := div one (mul lambda lambda) in
        add e2 (mul mass (add condVar (mul condMean condMean)))
    end) cs zero in
  ret (sub e2 (mul m m)).

Definition Dist_std (this : Dist) : M Heap number :=
  let* v := Dist_variance this in ret (Math_sqrt v).

Definition Dist_probGt (this : Dist) (x : number) : M Heap number :=
  let* cs := reads this in
  ret (fold_left (fun p c =>
    match c with
    | Atom cx cp => if gt cx x then add p cp else p
    | Bin a b cp _ _ =>
        if ge a x then add p cp
        else if gt b x then
          let width := sub b a in
          let overlap := sub b x in
          add p (mul cp (div overlap width))
        else p
    | Tail right_side x0 mass _ params _ =>
        if lt x x0 then add p mass
        else
          let lambda := lambda_of params in
          add p (mul mass (Math_exp (mul (neg lambda) (sub x x0))))
    | Tail left_side x0 mass _ params _ =>
        if lt x x0 then
          let lambda := lambda_of params in
          add p (mul mass (sub one (Math_exp (mul (neg lambda) (sub x0 x)))))
        else p
    end) cs zero).

End Core.

(** ** The reducer ([core/reducer.ts]) *)

Record ReduceParams : Type := {
  targetN : number;
  impactCenter : option number;
  impactWidthWeight : option number;
  tau : option number;
  boundaries : option (list number)
}.

Definition getStart (c : DistComponent) : number :=
  match c with
  | Atom x _ => x
  | Bin a _ _ _ _ => a
  | Tail left_side _ _ _ _ _ => NegInfinity
  | Tail right_side x0 _ _ _ _ => x0
  end.

Definition getEnd (c : DistComponent) : number :=
  match c with
  | Atom x _ => x
  | Bin _ b _ _ _ => b
  | Tail left_side x0 _ _ _ _ => x0
  | Tail right_side _ _ _ _ _ => Infinity
  end.

Definition hasBoundaryBetween (end1 start2 : number) (bounds : list number)
  : bool :=
  existsb (fun b => ge b end1 && le b start2) bounds.

(** The fields of the bin that [mergeComponents] returns. *)
Definition mergedBin (comps : list DistComponent) : DistComponent :=
  let '(minA, maxB, totalP, weightedRepr) :=
    fold_left (fun '(minA, maxB, totalP, weightedRepr) c =>
      let p := massOf c in
      let '(start, end_, mean) :=
        match c with
        | Atom x _ => (x, x, x)
        | Bin a b _ repr _ => (a, b, repr)
        | Tail _ _ _ _ _ _ => (zero, zero, zero)
        end in
      (Math_min minA start, Math_max maxB end_, add totalP p,
       add weightedRepr (mul mean p)))
      comps (Infinity, NegInfinity, zero, zero) in
  let newRepr :=
    if gt totalP zero then div weightedRepr totalP
    else div (add minA maxB) two in
  Bin minA maxB totalP newRepr uniform.

Definition mergeComponents (comps : list ref) : M Heap ref :=
  let* cs := reads comps in alloc (mergedBin cs).

Definition splitItem (h : Heap) (b : number) (r : ref) : list Item :=
  match load h r with
  | Bin ca cb cp _ shape =>
      if lt ca b && gt cb b then
        let w := sub cb ca in
        let w1 := sub b ca in
        let w2 := sub cb b in
        let p1 := mul cp (div w1 w) in
        let p2 := mul cp (div w2 w) in
        [New (Bin ca b p1 (div (add ca b) two) shape);
         New (Bin b cb p2 (div (add b cb) two) shape)]
      else [Old r]
  | _ => [Old r]
  end.

Definition splitAtBoundaries (comps : list ref) (boundaries : list number)
  : M Heap (list ref) :=
  foldM (fun result b =>
    let* items := gets (fun h => flat_map (splitItem h b) result) in
    materialize items) boundaries comps.

Section Reducer.

(** [getImp], the closure of [reduce] over [c] and [w]. *)
Variable c : number.
Variable w : number.

Definition getImp (cmp : DistComponent) : number :=
  match cmp with
  | Atom x p => mul p (add (Math_abs (sub x c)) (mul w zero))
  | Bin a b p repr _ => mul p (add (Math_abs (sub repr c)) (mul w (sub b a)))
  | Tail _ _ _ _ _ _ => MAX_VALUE
  end.

(** [flushBuffer] of [mergeValleys]; returns the new [result]. *)
Definition flushBuffer (result buffer : list ref) : M Heap (list ref) :=
  match buffer with
  | [] => ret result
  | [r] => ret (result ++ [r])
  | _ => let* merged := mergeComponents buffer in ret (result ++ [merged])
  end.

Definition mergeValleys (comps : list ref) (tau : number)
  (bounds : list number) : M Heap (list ref) :=
  let* '(result, buffer) :=
    foldM (fun '(result, buffer) r =>
      let* cmp := read r in
      if lt (getImp cmp) tau then
        match last buffer with
        | Some lastRef =>
            let* lastC := read lastRef in
            if hasBoundaryBetween (getEnd lastC) (getStart cmp) bounds
            then
              let* result' := flushBuffer result buffer in
              ret (result', [r])
            else ret (result, buffer ++ [r])
        | None => ret (result, buffer ++ [r])
        end
      else
        let* result' := flushBuffer result buffer in
        ret (result' ++ [r], []))
      comps ([], []) in
  flushBuffer result buffer.

(** The [for] loop of [greedyReduce]: the index of the cheapest adjacent
    pair that may be merged, [None] for [bestIdx === -1]. *)
Fixpoint findBest (h : Heap) (bounds : list number) (i : nat)
  (current : list ref) (bestIdx : option nat) (minCost : number)
  : option nat :=
  match current with
  | r1 :: ((r2 :: _) as rest) =>
      let c1 := load h r1 in
      let c2 := load h r2 in
      if hasBoundaryBetween (getEnd c1) (getStart c2) bounds
      then findBest h bounds (S i) rest bestIdx minCost
      else if isTail c1 || isTail c2
      then findBest h bounds (S i) rest bestIdx minCost
      else
        let cost := add (getImp c1) (getImp c2) in
        if lt cost minCost
        then findBest h bounds (S i) rest (Some i) cost
        else findBest h bounds (S i) rest bestIdx minCost
  | _ => bestIdx
  end.

(** [greedyReduce]: every round of the [while] loop removes one element,
    so the loop is run on the length of the array. *)
Fixpoint greedyLoop (rounds : nat) (current : list ref) (targetN : number)
  (bounds : list number) : M Heap (list ref) :=
  if gt (ofNat (List.length current)) targetN then
    match rounds with
    | O => diverge
    | S rounds' =>
        let* bestIdx :=
          gets (fun h => findBest h bounds 0 current None MAX_VALUE) in
        match bestIdx with
        | None => ret current
        | Some i =>
            let* merged := mergeComponents (firstn 2 (skipn i current)) in
            greedyLoop rounds'
              (firstn i current ++ merged :: skipn (i + 2) current)
              targetN bounds
        end
    end
  else ret current.

Definition greedyReduce (comps : list ref) (targetN : number)
  (bounds : list number) : M Heap (list ref) :=
  greedyLoop (S (List.length comps)) comps targetN bounds.

End Reducer.

(** [Array.from({ length: n }, ...)]: the length is [n] truncated to an
    integer, [0] when [n] is [NaN] or negative. *)
Definition toLength (n : number) : nat :=
  match n with
  | Num q => Z.to_nat (Z.quot (Qnum q) (Zpos (Qden q)))
  | _ => O
  end.

(** [buckets[bIdx]]: an element only at an integer index inside the
    array. *)
Definition arrayIndex (bIdx : number) (len : nat) : option nat :=
  match bIdx with
  | Num q =>
      if Qeq_bool q (inject_Z (Qfloor q)) && (0 <=? Qfloor q)%Z
           && (Z.to_nat (Qfloor q) <? len)%nat
      then Some (Z.to_nat (Qfloor q))
      else None
  | _ => None
  end.

Definition fastBucketReduce (comps : list ref) (targetN : number)
  (bounds : list number) : M Heap (list ref) :=
  let* cs := reads comps in
  let '(min, max) :=
    fold_left (fun '(min, max) c =>
      let s := getStart c in
      let e := getEnd c in
      (if lt s min then s else min, if gt e max then e else max))
      cs (Infinity, NegInfinity) in
  if ge min max then ret comps
  else
    let bucketSize := div (sub max min) targetN in
    let nBuckets := toLength targetN in
    let* buckets :=
      foldM (fun (buckets : list (list ref)) r =>
        let* c := read r in
        let center := div (add (getStart c) (getEnd c)) two in
        let bIdx := Math_floor (div (sub center min) bucketSize) in
        let bIdx := if lt bIdx zero then zero else bIdx in
        let bIdx := if ge bIdx targetN then sub targetN one else bIdx in
        match arrayIndex bIdx nBuckets with
        | Some i => ret (alter (fun bucket => bucket ++ [r]) i buckets)
        | None =>
            throw "Cannot read properties of undefined (reading 'push')"
        end) comps (repeat [] nBuckets) in
    let* result :=
      foldM (fun result bucket =>
        match bucket with
        | [] => ret result
        | _ => let* merged := mergeComponents bucket in
               ret (result ++ [merged])
        end) buckets [] in
    if (0 <? List.length bounds)%nat
    then splitAtBoundaries result bounds
    else ret result.

Definition reduce (dist : Dist) (params : ReduceParams) : M Heap Dist :=
  run Dist_normalize dist in
  let comps := dist in
  let bounds := nullish (boundaries params) [] in
  let* comps :=
    if (0 <? List.length bounds)%nat
    then splitAtBoundaries comps bounds
    else ret comps in
  let c := nullish (impactCenter params) zero in
  let w := nullish (impactWidthWeight params) zero in
  let* comps :=
    match tau params with
    | Some t => mergeValleys c w comps t bounds
    | None => ret comps
    end in
  let* comps :=
    if gt (ofNat (List.length comps))
          (Math_max (ofZ 1000) (mul (targetN params) (ofZ 4)))
    then fastBucketReduce comps (mul (targetN params) two) bounds
    else ret comps in
  let* comps :=
    if gt (ofNat (List.length comps)) (targetN params)
    then greedyReduce c w comps (targetN params) bounds
    else ret comps in
  Dist_new comps.

(** ** Strings *)

Definition ascii_between (lo hi : nat) (ch : ascii) : bool :=
  (lo <=? nat_of_ascii ch)%nat && (nat_of_ascii ch <=? hi)%nat.

Definition isDigit (ch : ascii) : bool := ascii_between 48 57 ch.
Definition isUpper (ch : ascii) : bool := ascii_between 65 90 ch.
Definition isLower (ch : ascii) : bool := ascii_between 97 122 ch.
Definition isLetter (ch : ascii) : bool := isUpper ch || isLower ch.
Definition isUnderscore (ch : ascii) : bool := (nat_of_ascii ch =? 95)%nat.
Definition isDot (ch : ascii) : bool := (nat_of_ascii ch =? 46)%nat.

(** [/\s/] on the ASCII range: tab, line feed, vertical tab, form feed,
    carriage return and space.  (The other Unicode spaces are not
    represented.) *)
Definition isSpace (ch : ascii) : bool :=
  ascii_between 9 13 ch || (nat_of_ascii ch =? 32)%nat.

(** [/[A-Za-z0-9_]/], the class [\w]. *)
Definition isWordChar (ch : ascii) : bool :=
  isLetter ch || isDigit ch || isUnderscore ch.

Definition upperChar (ch : ascii) : ascii :=
  if isLower ch then ascii_of_nat (nat_of_ascii ch - 32) else ch.

Fixpoint toUpperCase (s : string) : string :=
  match s with
  | EmptyString => EmptyString
  | String ch rest => String (upperChar ch) (toUpperCase rest)
  end.

(** The longest prefix of [s] whose characters satisfy [p], and the rest. *)
Fixpoint span (p : ascii -> bool) (s : string) : string * string :=
  match s with
  | EmptyString => (EmptyString, EmptyString)
  | String ch rest =>
      if p ch then let '(run_, tail_) := span p rest in (String ch run_, tail_)
      else (EmptyString, s)
  end.

Definition startsWith (s pre : string) : bool := String.prefix pre s.

Definition digitValue (ch : ascii) : Z := Z.of_nat (nat_of_ascii ch - 48).

(** The value of a string of decimal digits. *)
Definition digitsValue (s : string) : Z :=
  fold_left (fun acc ch => (10 * acc + digitValue ch)%Z)
            (list_ascii_of_string s) 0%Z.

Fixpoint showPos_aux (fuel : nat) (n : Z) (acc : string) : string :=
  match fuel with
  | O => acc
  | S fuel' =>
      let acc' := String (ascii_of_nat (48 + Z.to_nat (n mod 10))) acc in
      if (n / 10 =? 0)%Z then acc' else showPos_aux fuel' (n / 10)%Z acc'
  end.

Definition showZ (n : Z) : string :=
  if (n <? 0)%Z
  then String "-" (showPos_aux (S (Z.to_nat (Z.log2 (- n)))) (- n) EmptyString)
  else showPos_aux (S (Z.to_nat (Z.log2 n))) n EmptyString.

(** [`${n}`] for a number.  Integers print as JavaScript prints them
    (below 1e21); a finite value that is not an integer prints here as a
    fraction, where JavaScript prints a decimal expansion. *)
Definition showNumber (a : number) : string :=
  match a with
  | NaN => "NaN"
  | Infinity => "Infinity"
  | NegInfinity => "-Infinity"
  | Num q =>
      if (Zpos (Qden q) =? 1)%Z then showZ (Qnum q)
      else showZ (Qnum q) ++ "/" ++ showZ (Zpos (Qden q))
  end%string.

(** ** Tokens ([engine/evaluator.ts]) *)

Inductive TokenType : Type :=
| NUMBER | ID | PLUS | MINUS | MUL | DIV | LPAREN | RPAREN | COMMA | COLON.

Record Token : Type := { type : TokenType; value : string }.

Definition TokenType_eqb (a b : TokenType) : bool :=
  match a, b with
  | NUMBER, NUMBER | ID, ID | PLUS, PLUS | MINUS, MINUS | MUL, MUL
  | DIV, DIV | LPAREN, LPAREN | RPAREN, RPAREN | COMMA, COMMA
  | COLON, COLON => true
  | _, _ => false
  end.

Definition showTokenType (t : TokenType) : string :=
  match t with
  | NUMBER => "NUMBER" | ID => "ID" | PLUS => "PLUS" | MINUS => "MINUS"
  | MUL => "MUL" | DIV => "DIV" | LPAREN => "LPAREN" | RPAREN => "RPAREN"
  | COMMA => "COMMA" | COLON => "COLON"
  end.

Definition punctuation (ch : ascii) : option TokenType :=
  match nat_of_ascii ch with
  | 43 => Some PLUS
  | 45 => Some MINUS
  | 42 => Some MUL
  | 47 => Some DIV
  | 40 => Some LPAREN
  | 41 => Some RPAREN
  | 44 => Some COMMA
  | 58 => Some COLON
  | _ => None
  end%nat.

(** [tokenize]; every round consumes at least one character, so the
    length of the input bounds the rounds. *)
Fixpoint tokenizeFrom (rounds : nat) (input : string)
  : Result (list Token) :=
  match input with
  | EmptyString => Ok []
  | String char rest =>
      match rounds with
      | O => Diverge
      | S rounds' =>
          let continue_ (t : option Token) (input' : string) :=
            match tokenizeFrom rounds' input', t with
            | Ok tokens, Some t => Ok (t :: tokens)
            | r, _ => r
            end in
          if isSpace char then continue_ None rest
          else if isDigit char || isDot char then
            let '(val, input') :=
              span (fun ch => isDigit ch || isDot ch) input in
            continue_ (Some {| type := NUMBER; value := val |}) input'
          else if isLetter char || isUnderscore char then
            let '(val, input') := span isWordChar input in
            continue_ (Some {| type := ID; value := val |}) input'
          else
            match punctuation char with
            | Some ty =>
                continue_
                  (Some {| type := ty; value := String char EmptyString |})
                  rest
            | None =>
                Throw ("Unknown character: "
                         ++ String char EmptyString)%string
            end
      end
  end.

Definition tokenize (input : string) : Result (list Token) :=
  tokenizeFrom (String.length input) input.

(** [parseFloat] on the value of a NUMBER token (digits and dots): the
    longest prefix [digits], [digits.digits], [digits.] or [.digits];
    [NaN] when there is no digit. *)
Definition parseFloat (s : string) : number :=
  let '(intPart, rest) := span isDigit s in
  let fracPart :=
    match rest with
    | String ch rest' =>
        if isDot ch then fst (span isDigit rest') else EmptyString
    | EmptyString => EmptyString
    end in
  if ((String.length intPart =? 0) && (String.length fracPart =? 0))%nat
  then NaN
  else decimal (digitsValue (intPart ++ fracPart)%string)
               (String.length fracPart).

(** [expandRange]: the cells of the rectangle between two references, row
    by row.  Rows and column indices are exact integers here and doubles
    in the source; the two agree as long as every integer computed stays
    below 2^53, that is for rows below 2^53 and columns of at most eleven
    letters.  The properties of [expandRange] below are stated inside
    these bounds. *)
Definition parseCell (cell : string) : Result (string * Z) :=
  let '(col, rest) := span isUpper (toUpperCase cell) in
  let '(row, rest') := span isDigit rest in
  if ((0 <? String.length col) && (0 <? String.length row)
        && (String.length rest' =? 0))%nat
  then Ok (col, digitsValue row)
  else Throw ("Invalid cell ref in range: " ++ cell)%string.

Definition colToIndex (col : string) : Z :=
  (fold_left (fun sum ch => sum * 26 + (Z.of_nat (nat_of_ascii ch) - 65 + 1))
             (list_ascii_of_string col) 0 - 1)%Z.

Fixpoint indexToCol_aux (rounds : nat) (n : Z) (str : string) : string :=
  match rounds with
  | O => str
  | S rounds' =>
      if (0 <=? n)%Z then
        indexToCol_aux rounds' (n / 26 - 1)%Z
          (String (ascii_of_nat (65 + Z.to_nat (n mod 26))) str)
      else str
  end.

Definition indexToCol (idx : Z) : string :=
  indexToCol_aux (S (Z.to_nat (Z.log2 (idx + 1)))) idx EmptyString.

Definition zrange (lo hi : Z) : list Z :=
  map (fun i => (lo + Z.of_nat i)%Z) (seq 0 (Z.to_nat (hi - lo + 1))).

Definition expandRange (start end_ : string) : Result (list string) :=
  match parseCell start with
  | Ok (scol, r1) =>
      match parseCell end_ with
      | Ok (ecol, r2) =>
          let c1 := colToIndex scol in
          let c2 := colToIndex ecol in
          Ok (flat_map (fun r =>
                map (fun col => (indexToCol col ++ showZ r)%string)
                    (zrange (Z.min c1 c2) (Z.max c1 c2)))
              (zrange (Z.min r1 r2) (Z.max r1 r2)))
      | Throw e => Throw e
      | Diverge => Diverge
      end
  | Throw e => Throw e
  | Diverge => Diverge
  end.

(** ** The parser ([engine/evaluator.ts]) *)

(** What the embedding takes from its environment: the functions of
    [Math] that are not rational, and the methods [median], [sample],
    [maxOf] and [splitAt] of [Dist], which draw random numbers or take
    logarithms.  The development is parametric in them. *)
Record Runtime : Type := {
  sqrt_ : number -> number;
  exp_ : number -> number;
  pow_ : number -> number -> number;
  PI_ : number;
  median_ : Dist -> M Heap number;
  sample_ : Dist -> number -> M Heap (list number);
  maxOf_ : Dist -> number -> M Heap Dist;
  splitAt_ : Dist -> number -> M Heap (Dist * Dist)
}.

Section Evaluator.

Variable rt : Runtime.

Local Abbreviation Math_sqrt := (sqrt_ rt).
Local Abbreviation Math_exp := (exp_ rt).
Local Abbreviation Math_pow := (pow_ rt).
Local Abbreviation Math_PI := (PI_ rt).
Local Abbreviation Dist_median := (median_ rt).
Local Abbreviation Dist_sample := (sample_ rt).
Local Abbreviation Dist_maxOf := (maxOf_ rt).
Local Abbreviation Dist_splitAt := (splitAt_ rt).

(** What lies behind the context besides the component store (for the
    graph: its table of cells). *)
Variable World : Type.

Record EvalContext : Type := {
  getValue : string -> M (Heap * World) Dist;
  maxComponents : option number;
  wasmMonteCarlo :
    option (list DistComponent -> number -> number -> number -> number)
}.

Record Parser : Type := {
  pos : nat;
  localMaxComponents : option number;
  heap : Heap;
  world : World
}.

Variable tokens : list Token.
Variable ctx : EvalContext.

Definition P (A : Type) : Type := M Parser A.

(** A computation on the component store, run inside the parser. *)
Definition onHeap {A : Type} (m : M Heap A) : P A :=
  fun st =>
    let '(r, h) := m (heap st) in
    (r, {| pos := pos st; localMaxComponents := localMaxComponents st;
           heap := h; world := world st |}).

Definition ctx_getValue (id : string) : P Dist :=
  fun st =>
    let '(r, (h, w)) := getValue ctx id (heap st, world st) in
    (r, {| pos := pos st; localMaxComponents := localMaxComponents st;
           heap := h; world := w |}).

Definition setPos (n : nat) : P unit :=
  modify (fun st =>
    {| pos := n; localMaxComponents := localMaxComponents st;
       heap := heap st; world := world st |}).

Definition setLocalMaxComponents (v : option number) : P unit :=
  modify (fun st =>
    {| pos := pos st; localMaxComponents := v;
       heap := heap st; world := world st |}).

Definition peek : P (option Token) :=
  gets (fun st => tokens !! pos st).

Definition peekAt (offset : nat) : P (option Token) :=
  gets (fun st => tokens !! (pos st + offset)).

Definition consume : P (option Token) :=
  let* t := peek in
  let* p := gets pos in
  run setPos (S p) in
  ret t.

Definition showOptType (t : option Token) : string :=
  match t with
  | Some t => showTokenType (type t)
  | None => "undefined"
  end.

Definition expect (ty : TokenType) : P Token :=
  let* t := consume in
  match t with
  | Some t' =>
      if TokenType_eqb (type t') ty then ret t'
      else throw ("Expected " ++ showTokenType ty ++ ", got "
                    ++ showOptType t)%string
  | None =>
      throw ("Expected " ++ showTokenType ty ++ ", got "
               ++ showOptType t)%string
  end.

Definition peekIs (ty : TokenType) : P bool :=
  let* t := peek in
  ret (match t with Some t' => TokenType_eqb (type t') ty | None => false end).

(** [isScalar] and [getScalar] *)
Definition isScalarIn (h : Heap) (d : Dist) : bool :=
  match contents h d with
  | [Atom _ p] => lt (Math_abs (sub p one)) epsilon9
  | _ => false
  end.

Definition isScalar (d : Dist) : M Heap bool :=
  gets (fun h => isScalarIn h d).

Definition scalar_expected : string :=
  "Expected scalar value (single atom with p=1)".

Definition getScalar (d : Dist) : M Heap number :=
  let* s := isScalar d in
  if s then
    let* cs := reads d in
    match cs with
    | [] => ret zero
    | Atom x _ :: _ => ret x
    | _ => throw scalar_expected
    end
  else throw scalar_expected.

(** [new Dist([{ type: "atom", x, p: 1 }])] *)
Definition atomDist (x : number) : M Heap Dist := Dist_of [New (Atom x one)].

(** [checkSafety], given the current [localMaxComponents]. *)
Definition effectiveLimit (lm : option number) : number :=
  nullish lm (nullish (maxComponents ctx) (ofZ 200)).

Definition checkSafety (lm : option number) (d : Dist) : M Heap Dist :=
  let limit := effectiveLimit lm in
  if gt (ofNat (List.length d)) limit
  then reduce d {| targetN := limit; impactCenter := None;
                   impactWidthWeight := None; tau := None;
                   boundaries := None |}
  else ret d.

(** *** The functions of the formula language *)

(** An unbounded loop of the source is cut off after this many rounds
    and then reported as [Diverge]. *)
Definition patience : nat := 4096.

(** The number of rounds of [for (let k = 0; k < limit; k++)]. *)
Definition loopBound (limit : number) : nat :=
  match limit with
  | Num q => Z.to_nat (Qceiling q)
  | Infinity => patience
  | _ => O
  end.

Definition fn_CONST (args : list Dist) : M Heap Dist :=
  match args with
  | [a0] => let* x := getScalar a0 in atomDist x
  | _ => throw "CONST requires 1 arg (x)"
  end.

Definition fn_UNIFORM (args : list Dist) : M Heap Dist :=
  match args with
  | [a0; a1] =>
      let* min := getScalar a0 in
      let* max := getScalar a1 in
      if ge min max then throw "UNIFORM min must be < max"
      else Dist_of [New (Bin min max one (div (add min max) two) uniform)]
  | _ => throw "UNIFORM requires 2 args (min, max)"
  end.

Definition fn_NORMAL (args : list Dist) : M Heap Dist :=
  match args with
  | [a0; a1] =>
      let* mean := getScalar a0 in
      let* std := getScalar a1 in
      if le std zero then throw "NORMAL std must be > 0"
      else
        let nBins := ofZ 20 in
        let start := sub mean (mul (ofZ 4) std) in
        let end_ := add mean (mul (ofZ 4) std) in
        let width := div (sub end_ start) nBins in
        let pdf x :=
          mul (div one (mul std (Math_sqrt (mul two Math_PI))))
              (Math_exp (mul (neg (decimal 5 1))
                             (Math_pow (div (sub x mean) std) two))) in
        let bins := map (fun i =>
          let a := add start (mul (ofNat i) width) in
          let b := add a width in
          let mid := div (add a b) two in
          (a, b, mul (pdf mid) width, mid)) (seq 0 20) in
        let totalP := fold_left (fun t '(_, _, p, _) => add t p) bins zero in
        let factor := div one totalP in
        Dist_of (map (fun '(a, b, p, mid) =>
                   New (Bin a b (mul p factor) mid uniform)) bins)
  | _ => throw "NORMAL requires 2 args (mean, std)"
  end.

Fixpoint discretePairs (args : list Dist) (atoms : list DistComponent)
  (totalP : number) : M Heap (list DistComponent * number) :=
  match args with
  | v :: pr :: rest =>
      let* val := getScalar v in
      let* prob := getScalar pr in
      if lt prob zero then throw "Probability must be >= 0"
      else discretePairs rest (atoms ++ [Atom val prob]) (add totalP prob)
  | _ => ret (atoms, totalP)
  end.

Definition fn_DISCRETE (args : list Dist) : M Heap Dist :=
  if (List.length args =? 0)%nat || negb (Nat.even (List.length args))
  then throw "DISCRETE requires pairs of args (value, prob, ...)"
  else
    let* '(atoms, totalP) := discretePairs args [] zero in
    if eqn totalP zero then throw "Total probability cannot be zero"
    else Dist_of (map New atoms).

Definition fn_EXPONENTIAL (args : list Dist) : M Heap Dist :=
  match args with
  | [a0] =>
      let* s := isScalar a0 in
      let* rate := if s then getScalar a0 else Dist_mean a0 in
      if le rate zero then throw "Rate must be > 0"
      else
        let cutoff := div (ofZ 7) rate in
        let nBins := ofZ 50 in
        let width := div cutoff nBins in
        let bins := map (fun i =>
          let a := mul (ofNat i) width in
          let b := mul (add (ofNat i) one) width in
          let p := sub (Math_exp (mul (neg rate) a))
                       (Math_exp (mul (neg rate) b)) in
          (a, b, p)) (seq 0 50) in
        let sumP := fold_left (fun acc '(_, _, p) => add acc p) bins zero in
        Dist_of (map (fun '(a, b, p) =>
                   New (Bin a b (div p sumP) (div (add a b) two) uniform))
                 bins)
  | _ => throw "EXPONENTIAL requires 1 arg (rate)"
  end.

Fixpoint poissonLoop (rounds k : nat) (limit lambda curP sumP : number)
  (atoms : list (number * number))
  : M Heap (list (number * number) * number) :=
  if lt (ofNat k) limit then
    match rounds with
    | O => diverge
    | S rounds' =>
        let atoms' := atoms ++ [(ofNat k, curP)] in
        let sumP' := add sumP curP in
        let nextP := div (mul curP lambda) (add (ofNat k) one) in
        if gt sumP' (decimal 99999 5) then ret (atoms', sumP')
        else poissonLoop rounds' (S k) limit lambda nextP sumP' atoms'
    end
  else ret (atoms, sumP).

Definition fn_POISSON (lm : option number) (args : list Dist) : M Heap Dist :=
  match args with
  | [a0] =>
      let* lambda := getScalar a0 in
      if le lambda zero then throw "Lambda must be > 0"
      else
        let limit := nullish lm (ofZ 200) in
        let* '(atoms, sumP) :=
          poissonLoop (loopBound limit) 0 limit lambda
                      (Math_exp (neg lambda)) zero [] in
        Dist_of (map (fun '(x, p) => New (Atom x (div p sumP))) atoms)
  | _ => throw "POISSON requires 1 arg (lambda)"
  end.

Fixpoint binomialLoop (rounds k : nat) (n p curP sumP : number)
  (atoms : list (number * number))
  : M Heap (list (number * number) * number) :=
  if le (ofNat k) n then
    match rounds with
    | O => diverge
    | S rounds' =>
        let atoms' := atoms ++ [(ofNat k, curP)] in
        let sumP' := add sumP curP in
        if eqn (ofNat k) n then ret (atoms', sumP')
        else
          let nextP :=
            mul (mul curP (div (sub n (ofNat k)) (add (ofNat k) one)))
                (div p (sub one p)) in
          binomialLoop rounds' (S k) n p nextP sumP' atoms'
    end
  else ret (atoms, sumP).

Definition fn_BINOMIAL (lm : option number) (args : list Dist) : M Heap Dist :=
  match args with
  | [a0; a1] =>
      let* n0 := getScalar a0 in
      let n := Math_floor n0 in
      let* p := getScalar a1 in
      if lt n zero then throw "n must be >= 0"
      else if lt p zero || gt p one then throw "p must be between 0 and 1"
      else
        let limit := nullish lm (ofZ 200) in
        if gt n limit
        then throw ("BINOMIAL n=" ++ showNumber n
                      ++ " exceeds component limit " ++ showNumber limit
                      ++ ".")%string
        else
          let* '(atoms, sumP) :=
            binomialLoop (S (loopBound n)) 0 n p (Math_pow (sub one p) n)
                         zero [] in
          Dist_of (map (fun '(x, q) =>
                     New (Atom x (if gt sumP zero then div q sumP else q)))
                   atoms)
  | _ => throw "BINOMIAL requires 2 args (n, p)"
  end.

Definition fn_ADD (message : string) (lm : option number) (args : list Dist)
  : M Heap Dist :=
  match args with
  | [a0; a1] => let* d := Dist_add Math_sqrt a0 a1 in checkSafety lm d
  | _ => throw message
  end.

Definition fn_MUL (lm : option number) (args : list Dist) : M Heap Dist :=
  match args with
  | [a0; a1] =>
      let* s0 := isScalar a0 in
      if s0 then
        let* k := getScalar a0 in
        let* d := Dist_scale a1 k in checkSafety lm d
      else
        let* s1 := isScalar a1 in
        if s1 then
          let* k := getScalar a1 in
          let* d := Dist_scale a0 k in checkSafety lm d
        else throw "MUL currently supports only Scalar * Dist or Dist * Scalar"
  | _ => throw "MUL requires 2 args (A, B)"
  end.

Definition fn_DIV (lm : option number) (args : list Dist) : M Heap Dist :=
  match args with
  | [a0; a1] =>
      let* s1 := isScalar a1 in
      if s1 then
        let* k := getScalar a1 in
        if eqn k zero then throw "Division by Zero"
        else let* d := Dist_scale a0 (div one k) in checkSafety lm d
      else
        let* s0 := isScalar a0 in
        if s0 then
          let* k := getScalar a0 in
          let* r := Dist_reciprocal a1 in
          let* d := Dist_scale r k in checkSafety lm d
        else throw "DIV of two Distributions not supported"
  | _ => throw "DIV requires 2 args (A, B)"
  end.

Definition powerItem (h : Heap) (k : number) (r : ref) : Item :=
  match load h r with
  | Atom x p => New (Atom (Math_pow x k) p)
  | Bin a b p repr shape =>
      let a' := Math_pow a k in
      let b' := Math_pow b k in
      if gt a' b' then New (Bin b' a' p (Math_pow repr k) shape)
      else New (Bin a' b' p (Math_pow repr k) shape)
  | Tail _ _ _ _ _ _ => Old r
  end.

Definition fn_POWER (lm : option number) (args : list Dist) : M Heap Dist :=
  match args with
  | [dist; a1] =>
      let* k := getScalar a1 in
      let* items := gets (fun h => map (powerItem h k) dist) in
      let* d := Dist_of items in
      checkSafety lm d
  | _ => throw "POWER requires 2 args (Dist, exponent)"
  end.

Definition fn_BIN (args : list Dist) : M Heap Dist :=
  match args with
  | a0 :: a1 :: rest =>
      let* a := getScalar a0 in
      let* b := getScalar a1 in
      let* p := match rest with
                | a2 :: _ => getScalar a2
                | [] => ret one
                end in
      Dist_of [New (Bin a b p (div (add a b) two) uniform)]
  | _ => throw "BIN requires at least 2 args (a, b, [p])"
  end.

Definition fn_SCALE (lm : option number) (args : list Dist) : M Heap Dist :=
  match args with
  | [a0; a1] =>
      let* k := getScalar a1 in
      let* d := Dist_scale a0 k in checkSafety lm d
  | _ => throw "SCALE requires 2 args (A, k)"
  end.

Definition fn_MIX (lm : option number) (args : list Dist) : M Heap Dist :=
  match args with
  | [a0; a1; a2] =>
      let* s := isScalar a0 in
      let* res :=
        if s then
          let* p := getScalar a0 in Dist_mix a2 a1 p
        else
          let* p := getScalar a0 in Dist_mix a2 a1 p in
      checkSafety lm res
  | _ => throw "MIX requires 3 args (A, B, p)"
  end.

Definition fn_REDUCE (args : list Dist) : M Heap Dist :=
  match args with
  | dist :: a1 :: rest =>
      let* targetN := getScalar a1 in
      let* impactCenter :=
        match rest with a2 :: _ => getScalar a2 | [] => ret zero end in
      let* tau :=
        match rest with
        | _ :: a3 :: _ => getScalar a3
        | _ => ret (decimal 1 2)
        end in
      let boundaries := [zero] in
      let* widthWeight :=
        match rest with
        | _ :: _ :: _ :: a5 :: _ => getScalar a5
        | _ => ret zero
        end in
      reduce dist {| targetN := targetN; impactCenter := Some impactCenter;
                     impactWidthWeight := Some widthWeight; tau := Some tau;
                     boundaries := Some boundaries |}
  | _ => throw "REDUCE requires at least 2 args (A, targetN)"
  end.

(** The [while (k < maxLoops)] loop of GEOM_SUM; [remaining] counts
    [maxLoops - k]. *)
Fixpoint geomLoop (lm : option number) (remaining k : nat)
  (baseDist : Dist) (p : number) (resultComps : list ref)
  (currentConv : Dist) (currentProb cumulativeProb : number)
  : M Heap (list ref) :=
  match remaining with
  | O => ret resultComps
  | S remaining' =>
      let* cs := reads currentConv in
      let* pushed :=
        materialize (map (fun c => New (scaleP c currentProb)) cs) in
      let resultComps := resultComps ++ pushed in
      let cumulativeProb := add cumulativeProb currentProb in
      if gt cumulativeProb (decimal 9999 4) then ret resultComps
      else
        let* currentConv := Dist_add Math_sqrt currentConv baseDist in
        let* currentConv := checkSafety lm currentConv in
        let currentProb := mul (sub one p) (pow_nat p (k + 1)) in
        geomLoop lm remaining' (S k) baseDist p resultComps currentConv
                 currentProb cumulativeProb
  end.

Definition fn_GEOM_SUM (lm : option number) (args : list Dist) : M Heap Dist :=
  match args with
  | [baseDist; a1] =>
      let* p := getScalar a1 in
      if lt p zero || ge p one then throw "p must be in [0, 1)"
      else if eqn p zero then atomDist zero
      else
        let* currentConv := atomDist zero in
        let* resultComps :=
          geomLoop lm 2000 0 baseDist p [] currentConv (sub one p) zero in
        let* res := Dist_new resultComps in
        checkSafety lm res
  | _ => throw "GEOM_SUM requires 2 args (Dist, p)"
  end.

(** The [while (count > 0)] loop of REPEAT_ADD; [count] is a positive
    integer and is halved in every round. *)
Fixpoint repeatLoop (lm : option number) (rounds : nat) (acc base : Dist)
  (count : Z) : M Heap Dist :=
  if (0 <? count)%Z then
    match rounds with
    | O => diverge
    | S rounds' =>
        let* acc :=
          if Z.odd count then
            let* acc' := Dist_add Math_sqrt acc base in checkSafety lm acc'
          else ret acc in
        let* base' := Dist_add Math_sqrt base base in
        let* base := checkSafety lm base' in
        repeatLoop lm rounds' acc base (count / 2)%Z
    end
  else ret acc.

Definition fn_REPEAT_ADD (lm : option number) (args : list Dist)
  : M Heap Dist :=
  match args with
  | [baseDist; a1] =>
      let* n0 := getScalar a1 in
      let n := Math_floor n0 in
      if le n zero then atomDist zero
      else if eqn n one then ret baseDist
      else
        let* acc := atomDist zero in
        match n with
        | Num q =>
            repeatLoop lm (S (Z.to_nat (Z.log2 (Qfloor q)))) acc baseDist
                       (Qfloor q)
        | Infinity => diverge
        | _ => ret acc
        end
  | _ => throw "REPEAT_ADD requires 2 args (Dist, N)"
  end.

Definition fn_MEAN (args : list Dist) : M Heap Dist :=
  match args with
  | [a0] => let* m := Dist_mean a0 in atomDist m
  | _ => throw "MEAN requires 1 arg (A)"
  end.

Definition fn_PROB_GT (args : list Dist) : M Heap Dist :=
  match args with
  | [a0; a1] =>
      let* val := getScalar a1 in
      let* p := Dist_probGt Math_exp a0 val in
      atomDist p
  | _ => throw "PROB_GT requires 2 args (A, x)"
  end.

Definition fn_RESAMPLE (lm : option number) (args : list Dist)
  : M Heap Dist :=
  match args with
  | [a0; a1] =>
      let* n := getScalar a1 in
      let* samples := Dist_sample a0 n in
      let* d := Dist_of (map (fun x => New (Atom x one)) samples) in
      run Dist_normalize d in
      checkSafety lm d
  | _ => throw "RESAMPLE requires 2 args (A, n)"
  end.

Definition fn_REF (args : list Dist) : M Heap Dist :=
  match args with
  | [a0] => ret a0
  | _ => throw "REF requires 1 arg"
  end.

Definition fn_SUB (lm : option number) (args : list Dist) : M Heap Dist :=
  match args with
  | [a0; a1] => let* d := Dist_sub Math_sqrt a0 a1 in checkSafety lm d
  | _ => throw "SUB requires 2 args (A, B)"
  end.

Definition fn_VAR (args : list Dist) : M Heap Dist :=
  match args with
  | [a0] => let* v := Dist_variance a0 in atomDist v
  | _ => throw "VAR requires 1 arg (Dist)"
  end.

Definition fn_STD (args : list Dist) : M Heap Dist :=
  match args with
  | [a0] => let* s := Dist_std Math_sqrt a0 in atomDist s
  | _ => throw "STD requires 1 arg (Dist)"
  end.

Definition fn_MEDIAN (args : list Dist) : M Heap Dist :=
  match args with
  | [a0] => let* m := Dist_median a0 in atomDist m
  | _ => throw "MEDIAN requires 1 arg (Dist)"
  end.

Definition fn_SHIFT (lm : option number) (args : list Dist) : M Heap Dist :=
  match args with
  | [d; a1] =>
      let* k := getScalar a1 in
      let* kDist := atomDist k in
      let* s := Dist_add Math_sqrt d kDist in
      checkSafety lm s
  | _ => throw "SHIFT requires 2 args (Dist, k)"
  end.

Fixpoint choicePairs (args : list Dist) (atoms : list DistComponent)
  : M Heap (list DistComponent) :=
  match args with
  | v :: wt :: rest =>
      let* val := getScalar v in
      let* weight := getScalar wt in
      choicePairs rest (atoms ++ [Atom val weight])
  | _ => ret atoms
  end.

Definition fn_CHOICE (lm : option number) (args : list Dist) : M Heap Dist :=
  if (List.length args <? 2)%nat || negb (Nat.even (List.length args))
  then throw "CHOICE requires even args (v1, p1, v2, p2, ...)"
  else
    let* atoms := choicePairs args [] in
    let* d := Dist_of (map New atoms) in
    run Dist_normalize d in
    checkSafety lm d.

Definition fn_MAX_OF (lm : option number) (args : list Dist) : M Heap Dist :=
  match args with
  | [dist; a1] =>
      let* n := getScalar a1 in
      let* d := Dist_maxOf dist n in
      checkSafety lm d
  | _ => throw "MAX_OF requires 2 args (Dist, N)"
  end.

(** One trial of the Monte Carlo loop: is the wealth ever at or below
    zero? *)
Fixpoint ruined (wealth : number) (samples : list number) : bool :=
  match samples with
  | [] => false
  | step :: rest =>
      let wealth := add wealth step in
      if le wealth zero then true else ruined wealth rest
  end.

Fixpoint monteCarloLoop (sims : nat) (stepDist : Dist)
  (initWealth steps : number) (ruinCount : nat) : M Heap nat :=
  match sims with
  | O => ret ruinCount
  | S sims' =>
      let* samples := Dist_sample stepDist steps in
      monteCarloLoop sims' stepDist initWealth steps
        (if ruined initWealth samples then S ruinCount else ruinCount)
  end.

(** The exact loop of RUIN_PROB; returns [ruinedProb]. *)
Fixpoint ruinLoop (lm : option number) (rounds : nat) (stepDist : Dist)
  (current : Dist) (ruinedProb survivalProb : number) : M Heap number :=
  match rounds with
  | O => ret ruinedProb
  | S rounds' =>
      let* current := Dist_add Math_sqrt current stepDist in
      let* current := checkSafety lm current in
      let* '(fail, safe) := Dist_splitAt current zero in
      let* failMass := totalMassOf fail in
      let ruinedProb := add ruinedProb (mul survivalProb failMass) in
      let survivalProb := mul survivalProb (sub one failMass) in
      if lt survivalProb epsilon9 then ret one
      else
        run Dist_normalize safe in
        ruinLoop lm rounds' stepDist safe ruinedProb survivalProb
  end.

Definition fn_RUIN_PROB (lm : option number) (args : list Dist)
  : M Heap Dist :=
  match args with
  | [stepDist; a1; a2] =>
      let* initWealth := getScalar a1 in
      let* steps0 := getScalar a2 in
      let steps := Math_floor steps0 in
      if gt steps (ofZ 300) then
        let targetSamples := ofZ 10000000 in
        let numSimulations :=
          Math_max (ofZ 1000)
            (Math_min (ofZ 10000) (Math_floor (div targetSamples steps))) in
        let* ruinCount :=
          match wasmMonteCarlo ctx with
          | Some mc =>
              let* cs := reads stepDist in
              ret (mc cs initWealth steps numSimulations)
          | None =>
              let* count :=
                monteCarloLoop (loopBound numSimulations) stepDist
                               initWealth steps 0 in
              ret (ofNat count)
          end in
        atomDist (div ruinCount numSimulations)
      else
        let* current := atomDist initWealth in
        let* ruinedProb :=
          ruinLoop lm (loopBound steps) stepDist current zero one in
        atomDist ruinedProb
  | _ => throw "RUIN_PROB requires 3 args (StepDist, InitWealth, Steps)"
  end.

(** The dispatch of [parseFunctionCall] on the upper-cased name. *)
Definition callFunction (name : string) (lm : option number)
  (args : list Dist) : M Heap Dist :=
  let fn := toUpperCase name in
  if String.eqb fn "CONST" then fn_CONST args
  else if String.eqb fn "UNIFORM" then fn_UNIFORM args
  else if String.eqb fn "NORMAL" then fn_NORMAL args
  else if String.eqb fn "DISCRETE" then fn_DISCRETE args
  else if String.eqb fn "EXPONENTIAL" then fn_EXPONENTIAL args
  else if String.eqb fn "POISSON" then fn_POISSON lm args
  else if String.eqb fn "BINOMIAL" then fn_BINOMIAL lm args
  else if String.eqb fn "ADD" then fn_ADD "ADD requires 2 args (A, B)" lm args
  else if String.eqb fn "CONVOLVE"
  then fn_ADD "CONVOLVE requires 2 args (d1, d2)" lm args
  else if String.eqb fn "MUL" then fn_MUL lm args
  else if String.eqb fn "DIV" then fn_DIV lm args
  else if String.eqb fn "POWER" then fn_POWER lm args
  else if String.eqb fn "BIN" then fn_BIN args
  else if String.eqb fn "SCALE" then fn_SCALE lm args
  else if String.eqb fn "MIX" then fn_MIX lm args
  else if String.eqb fn "REDUCE" then fn_REDUCE args
  else if String.eqb fn "GEOM_SUM" then fn_GEOM_SUM lm args
  else if String.eqb fn "REPEAT_ADD" then fn_REPEAT_ADD lm args
  else if String.eqb fn "MEAN" then fn_MEAN args
  else if String.eqb fn "PROB_GT" then fn_PROB_GT args
  else if String.eqb fn "RESAMPLE" then fn_RESAMPLE lm args
  else if String.eqb fn "REF" then fn_REF args
  else if String.eqb fn "SUB" then fn_SUB lm args
  else if String.eqb fn "VAR" then fn_VAR args
  else if String.eqb fn "STD" then fn_STD args
  else if String.eqb fn "MEDIAN" then fn_MEDIAN args
  else if String.eqb fn "SHIFT" then fn_SHIFT lm args
  else if String.eqb fn "CHOICE" then fn_CHOICE lm args
  else if String.eqb fn "MAX_OF" then fn_MAX_OF lm args
  else if String.eqb fn "RUIN_PROB" then fn_RUIN_PROB lm args
  else throw ("Unknown function: " ++ name)%string.

(** *** Recursive descent

    The four mutually recursive methods run on a bound for the depth of
    their nesting; the [while] loops run on the number of tokens, since
    every round consumes one. *)

Definition typeOf (t : option Token) : option TokenType :=
  option_map type t.

Fixpoint expressionLoop (parseTerm : P Dist) (rounds : nat) (left : Dist)
  : P Dist :=
  let* p := gets pos in
  if (p <? List.length tokens)%nat then
    let* t := peek in
    match typeOf t, rounds with
    | Some PLUS, S rounds' =>
        run consume in
        let* right := parseTerm in
        let* left := onHeap (Dist_add Math_sqrt left right) in
        let* lm := gets localMaxComponents in
        let* left := onHeap (checkSafety lm left) in
        expressionLoop parseTerm rounds' left
    | Some MINUS, S rounds' =>
        run consume in
        let* right := parseTerm in
        let* left := onHeap (Dist_sub Math_sqrt left right) in
        let* lm := gets localMaxComponents in
        let* left := onHeap (checkSafety lm left) in
        expressionLoop parseTerm rounds' left
    | Some PLUS, O | Some MINUS, O => diverge
    | _, _ => ret left
    end
  else ret left.

Fixpoint termLoop (parseFactor : P Dist) (rounds : nat) (left : Dist)
  : P Dist :=
  let* p := gets pos in
  if (p <? List.length tokens)%nat then
    let* t := peek in
    match typeOf t, rounds with
    | Some MUL, S rounds' =>
        run consume in
        let* right := parseFactor in
        let* sr := onHeap (isScalar right) in
        let* left :=
          if sr then
            let* k := onHeap (getScalar right) in
            onHeap (Dist_scale left k)
          else
            let* sl := onHeap (isScalar left) in
            if sl then
              let* k := onHeap (getScalar left) in
              onHeap (Dist_scale right k)
            else
              throw ("Multiplication of two Distributions not supported "
                       ++ "(Scalar required)")%string in
        let* lm := gets localMaxComponents in
        let* left := onHeap (checkSafety lm left) in
        termLoop parseFactor rounds' left
    | Some DIV, S rounds' =>
        run consume in
        let* right := parseFactor in
        let* sr := onHeap (isScalar right) in
        let* left :=
          if sr then
            let* k := onHeap (getScalar right) in
            if eqn k zero then throw "Division by Zero"
            else onHeap (Dist_scale left (div one k))
          else
            let* sl := onHeap (isScalar left) in
            if sl then
              let* k := onHeap (getScalar left) in
              let* r := onHeap (Dist_reciprocal right) in
              onHeap (Dist_scale r k)
            else throw "Division of two Distributions not supported" in
        let* lm := gets localMaxComponents in
        let* left := onHeap (checkSafety lm left) in
        termLoop parseFactor rounds' left
    | Some MUL, O | Some DIV, O => diverge
    | _, _ => ret left
    end
  else ret left.

(** [tryParseArg]; returns what it pushes on [args]. *)
Definition tryParseArg (parseExpression : P Dist) : P (list Dist) :=
  let* t0 := peek in
  let* t1 := peekAt 1 in
  match typeOf t0, typeOf t1 with
  | Some ID, Some COLON =>
      let* startTok := consume in
      run consume in
      let* endTok := expect ID in
      let startId :=
        match startTok with Some t => value t | None => EmptyString end in
      match expandRange startId (value endTok) with
      | Ok cells =>
          foldM (fun args id =>
                   let* v := ctx_getValue id in ret (args ++ [v])) cells []
      | Throw e => throw e
      | Diverge => diverge
      end
  | _, _ => let* d := parseExpression in ret [d]
  end.

Fixpoint argsLoop (parseExpression : P Dist) (rounds : nat)
  (args : list Dist) : P (list Dist) :=
  let* comma := peekIs COMMA in
  if comma then
    match rounds with
    | O => diverge
    | S rounds' =>
        run consume in
        let* more := tryParseArg parseExpression in
        argsLoop parseExpression rounds' (args ++ more)
    end
  else ret args.

(** The special case of CONFIG in [parseFunctionCall]: the second
    argument is parsed and evaluated under the limit given by the first. *)
Definition parseConfig (parseExpression : P Dist) : P Dist :=
  let* limitDist := parseExpression in
  let* limit := onHeap (getScalar limitDist) in
  run expect COMMA in
  let* oldLimit := gets localMaxComponents in
  run setLocalMaxComponents (Some limit) in
  let* result := parseExpression in
  run setLocalMaxComponents oldLimit in
  run expect RPAREN in
  ret result.

Fixpoint parseExpression (depth : nat) : P Dist :=
  match depth with
  | O => diverge
  | S depth' =>
      let* left := parseTerm depth' in
      expressionLoop (parseTerm depth') (List.length tokens) left
  end
with parseTerm (depth : nat) : P Dist :=
  match depth with
  | O => diverge
  | S depth' =>
      let* left := parseFactor depth' in
      termLoop (parseFactor depth') (List.length tokens) left
  end
with parseFactor (depth : nat) : P Dist :=
  match depth with
  | O => diverge
  | S depth' =>
      let* t := peek in
      match t with
      | None => throw "Unexpected end of input"
      | Some t =>
          match type t with
          | NUMBER =>
              run consume in
              onHeap (atomDist (parseFloat (value t)))
          | ID =>
              run consume in
              let* call := peekIs LPAREN in
              if call then parseFunctionCall depth' (value t)
              else ctx_getValue (value t)
          | MINUS =>
              run consume in
              let* factor := parseFactor depth' in
              onHeap (Dist_scale factor (ofZ (-1)))
          | LPAREN =>
              run consume in
              let* expr := parseExpression depth' in
              run expect RPAREN in
              ret expr
          | ty => throw ("Unexpected token: " ++ showTokenType ty)%string
          end
      end
  end
with parseFunctionCall (depth : nat) (name : string) : P Dist :=
  match depth with
  | O => diverge
  | S depth' =>
      run expect LPAREN in
      let* closing := peekIs RPAREN in
      if negb closing && String.eqb (toUpperCase name) "CONFIG" then
        parseConfig (parseExpression depth')
      else
        let* args :=
          if negb closing then
            let* first := tryParseArg (parseExpression depth') in
            argsLoop (parseExpression depth') (List.length tokens) first
          else ret [] in
        run expect RPAREN in
        let* lm := gets localMaxComponents in
        onHeap (callFunction name lm args)
  end.

End Evaluator.

Arguments getValue {World}.
Arguments maxComponents {World}.
Arguments wasmMonteCarlo {World}.
Arguments pos {World}.
Arguments localMaxComponents {World}.
Arguments heap {World}.
Arguments world {World}.

(** [evaluate(expr, ctx)]: a fresh parser on the tokens of [expr]; what
    is left behind the first expression is ignored, and every error is
    wrapped. *)
Definition evaluate {World : Type} (rt : Runtime) (expr : string)
  (ctx : EvalContext World) : M (Heap * World) Dist :=
  fun '(h, w) =>
    let wrap (e : string) := ("Eval Error: " ++ e)%string in
    if (String.length expr =? 0)%nat then (Ok [], (h, w))
    else
      match tokenize expr with
      | Ok tokens =>
          let parser := {| pos := 0; localMaxComponents := None;
                           heap := h; world := w |} in
          let '(r, parser') :=
            parseExpression rt World tokens ctx
              (4 * List.length tokens + 4) parser in
          (match r with
           | Ok d => Ok d
           | Throw e => Throw (wrap e)
           | Diverge => Diverge
           end, (heap parser', world parser'))
      | Throw e => (Throw (wrap e), (h, w))
      | Diverge => (Diverge, (h, w))
      end.

(** ** Cells and the graph ([engine/cell.ts], [engine/graph.ts]) *)

Inductive CellStatus : Type :=
| pending | ok | error | circular | evaluating.

Definition CellStatus_eqb (a b : CellStatus) : bool :=
  match a, b with
  | pending, pending | ok, ok | error, error | circular, circular
  | evaluating, evaluating => true
  | _, _ => false
  end.

Record Cell : Type := {
  id : string;
  rawInput : string;
  cell_value : Dist;
  status : CellStatus;
  cell_error : option string;
  dependencies : list string;
  dependents : list string
}.

(** [new Cell(id)] *)
Definition newCell (id : string) : Cell :=
  {| id := id; rawInput := EmptyString; cell_value := []; status := ok;
     cell_error := None; dependencies := []; dependents := [] |}.

(** A [Set<string>]: members in the order of their insertion. *)
Definition set_has (s : list string) (x : string) : bool :=
  existsb (String.eqb x) s.

Definition set_add (s : list string) (x : string) : list string :=
  if set_has s x then s else s ++ [x].

Definition set_delete (s : list string) (x : string) : list string :=
  filter (fun y => negb (String.eqb x y)) s.

(** The [Map<string, Cell>] of the graph: entries in the order of their
    insertion. *)
Abbreviation Cells := (list (string * Cell)).

Fixpoint updateCell (cells : Cells) (id : string) (f : Cell -> Cell)
  : Cells :=
  match cells with
  | [] => []
  | (k, c) :: rest =>
      if String.eqb id k then (k, f c) :: rest
      else (k, c) :: updateCell rest id f
  end.

Record Graph : Type := {
  cells : Cells;
  dirtyTrack : list string;
  config_maxComponents : number;
  objects : Heap
}.

(** [new Graph()] *)
Definition newGraph : Graph :=
  {| cells := []; dirtyTrack := []; config_maxComponents := ofZ 200;
     objects := [] |}.

(** [getCell] on the table of cells: an absent cell is created. *)
Definition getCellIn (cells : Cells) (id : string) : Cell * Cells :=
  match assoc id cells with
  | Some c => (c, cells)
  | None => (newCell id, cells ++ [(id, newCell id)])
  end.

Definition set_rawInput (v : string) (c : Cell) : Cell :=
  {| id := id c; rawInput := v; cell_value := cell_value c;
     status := status c; cell_error := cell_error c;
     dependencies := dependencies c; dependents := dependents c |}.

Definition set_value (v : Dist) (c : Cell) : Cell :=
  {| id := id c; rawInput := rawInput c; cell_value := v;
     status := status c; cell_error := cell_error c;
     dependencies := dependencies c; dependents := dependents c |}.

Definition set_status (v : CellStatus) (c : Cell) : Cell :=
  {| id := id c; rawInput := rawInput c; cell_value := cell_value c;
     status := v; cell_error := cell_error c;
     dependencies := dependencies c; dependents := dependents c |}.

Definition set_error (v : option string) (c : Cell) : Cell :=
  {| id := id c; rawInput := rawInput c; cell_value := cell_value c;
     status := status c; cell_error := v;
     dependencies := dependencies c; dependents := dependents c |}.

Definition set_dependencies (v : list string) (c : Cell) : Cell :=
  {| id := id c; rawInput := rawInput c; cell_value := cell_value c;
     status := status c; cell_error := cell_error c;
     dependencies := v; dependents := dependents c |}.

Definition set_dependents (v : list string) (c : Cell) : Cell :=
  {| id := id c; rawInput := rawInput c; cell_value := cell_value c;
     status := status c; cell_error := cell_error c;
     dependencies := dependencies c; dependents := v |}.

Definition withCells (cs : Cells) (g : Graph) : Graph :=
  {| cells := cs; dirtyTrack := dirtyTrack g;
     config_maxComponents := config_maxComponents g;
     objects := objects g |}.

(** [this.getCell(id)] *)
Definition getCell (id : string) : M Graph Cell :=
  fun g =>
    let '(c, cs) := getCellIn (cells g) id in (Ok c, withCells cs g).

(** An assignment to a field of the cell object [id]. *)
Definition assign (id : string) (f : Cell -> Cell) : M Graph unit :=
  modify (fun g => withCells (updateCell (cells g) id f) g).

Definition markDirty (id : string) : M Graph unit :=
  modify (fun g =>
    {| cells := cells g; dirtyTrack := set_add (dirtyTrack g) id;
       config_maxComponents := config_maxComponents g;
       objects := objects g |}).

(** [getDirtyAndClear] *)
Definition getDirtyAndClear : M Graph (list Cell) :=
  fun g =>
    (Ok (omap (fun id => assoc id (cells g)) (dirtyTrack g)),
     {| cells := cells g; dirtyTrack := [];
        config_maxComponents := config_maxComponents g;
        objects := objects g |}).

(** [setGlobalConfig] *)
Definition setGlobalConfig (maxComponents : number) : M Graph unit :=
  modify (fun g =>
    {| cells := cells g; dirtyTrack := dirtyTrack g;
       config_maxComponents := maxComponents;
       objects := objects g |}).

(** [detectDependencies]: the matches of [/\b([A-Z]+[0-9]+)\b/g] are the
    maximal runs of word characters that consist of capital letters
    followed by digits. *)
Definition isReference (word : string) : bool :=
  let '(letters, rest) := span isUpper word in
  let '(digits, rest') := span isDigit rest in
  ((0 <? String.length letters) && (0 <? String.length digits)
     && (String.length rest' =? 0))%nat.

Fixpoint scanDependencies (rounds : nat) (input : string)
  (deps : list string) : list string :=
  match input, rounds with
  | String ch rest, S rounds' =>
      if isWordChar ch then
        let '(word, input') := span isWordChar input in
        scanDependencies rounds' input'
          (if isReference word then set_add deps word else deps)
      else scanDependencies rounds' rest deps
  | _, _ => deps
  end.

Definition detectDependencies (input : string) : list string :=
  scanDependencies (String.length input) input [].

(** [updateDependencies(cell, newDeps)] for the cell object [cellId]. *)
Definition updateDependencies (cellId : string) (newDeps : list string)
  : M Graph unit :=
  let* cell := getCell cellId in
  run forEach (dependencies cell) (fun oldDepId =>
        if negb (set_has newDeps oldDepId) then
          run getCell oldDepId in
          assign oldDepId (fun depCell =>
            set_dependents (set_delete (dependents depCell) cellId) depCell)
        else ret tt) in
  run forEach newDeps (fun newDepId =>
        if negb (set_has (dependencies cell) newDepId) then
          run getCell newDepId in
          assign newDepId (fun depCell =>
            set_dependents (set_add (dependents depCell) cellId) depCell)
        else ret tt) in
  assign cellId (set_dependencies newDeps).

(** Text in the ASCII range, where the character classes of the
    embedding are those of the regular expressions of the source. *)
Definition asciiText (s : string) : bool :=
  forallb (fun ch => (nat_of_ascii ch <? 128)%nat) (list_ascii_of_string s).

(** [String.prototype.trim] on text in the ASCII range, where the white
    space is the characters 9 to 13 and 32.  (The white space of
    JavaScript outside ASCII, as the no-break space, is not stripped:
    what is said of [trim] below is said of ASCII text.) *)
Definition trim (s : string) : string :=
  let dropped := snd (span isSpace s) in
  string_of_list_ascii
    (rev (list_ascii_of_string
            (snd (span isSpace
                    (string_of_list_ascii
                       (rev (list_ascii_of_string dropped))))))).

Definition isSign (ch : ascii) : bool :=
  (nat_of_ascii ch =? 43)%nat || (nat_of_ascii ch =? 45)%nat.

Definition isExponentMark (ch : ascii) : bool :=
  (nat_of_ascii ch =? 101)%nat || (nat_of_ascii ch =? 69)%nat.

(** [n * 10^e] *)
Definition scale10 (n e : Z) : number :=
  if (0 <=? e)%Z then ofZ (n * 10 ^ e)
  else num (n # Z.to_pos (10 ^ (- e))).

(** The exponent part of a decimal literal: empty, or [e], an optional
    sign and digits up to the end of the string. *)
Definition exponentPart (s : string) : option Z :=
  match s with
  | EmptyString => Some 0%Z
  | String e rest =>
      if isExponentMark e then
        let '(negative, rest') :=
          match rest with
          | String sg r =>
              if isSign sg then ((nat_of_ascii sg =? 45)%nat, r)
              else (false, rest)
          | EmptyString => (false, rest)
          end in
        let '(digits, rest'') := span isDigit rest' in
        if ((0 <? String.length digits) && (String.length rest'' =? 0))%nat
        then Some (if negative then (- digitsValue digits)%Z
                   else digitsValue digits)
        else None
      else None
  end.

(** [StrUnsignedDecimalLiteral] *)
Definition unsignedDecimal (s : string) : number :=
  if String.eqb s "Infinity" then Infinity
  else
    let '(intPart, rest) := span isDigit s in
    let '(dot, fracPart, rest') :=
      match rest with
      | String ch r =>
          if isDot ch then let '(f, r') := span isDigit r in (true, f, r')
          else (false, EmptyString, rest)
      | EmptyString => (false, EmptyString, rest)
      end in
    if ((String.length intPart =? 0) && (String.length fracPart =? 0))%nat
    then NaN
    else
      match exponentPart rest' with
      | Some e =>
          scale10 (digitsValue (intPart ++ fracPart)%string)
                  (e - Z.of_nat (String.length fracPart))
      | None => NaN
      end.

Definition radixDigit (base : nat) (ch : ascii) : option Z :=
  let n := nat_of_ascii ch in
  let v :=
    if isDigit ch then Some (n - 48)
    else if ascii_between 97 102 ch then Some (n - 87)
    else if ascii_between 65 70 ch then Some (n - 55)
    else None in
  match v with
  | Some d => if (d <? base)%nat then Some (Z.of_nat d) else None
  | None => None
  end.

Definition radixValue (base : nat) (s : string) : number :=
  match s with
  | EmptyString => NaN
  | _ =>
      match fold_left (fun acc ch =>
              match acc, radixDigit base ch with
              | Some a, Some d => Some (Z.of_nat base * a + d)%Z
              | _, _ => None
              end) (list_ascii_of_string s) (Some 0%Z) with
      | Some v => ofZ v
      | None => NaN
      end
  end.

(** The range of the doubles.  A numeric literal denotes an exact number;
    one of magnitude 2^1024 - 2^970 or more is rounded to an infinity,
    and one of magnitude 2^-1075 or less to zero.  (Between these bounds
    the rounding to the nearest double is not represented.) *)
Definition toDoubleRange (a : number) : number :=
  match a with
  | Num q =>
      if Qle_bool (inject_Z (2 ^ 1024 - 2 ^ 970)) (Qabs q)
      then (if Qle_bool 0 q then Infinity else NegInfinity)
      else if Qle_bool (Qabs q) (1 # (2 ^ 1075)) then zero
      else a
  | _ => a
  end.

(** [Number(s)] for a string of ASCII text without surrounding white
    space. *)
Definition JS_Number (s : string) : number :=
  toDoubleRange
  (match s with
  | EmptyString => zero
  | String c0 rest =>
      if isSign c0 then
        (if (nat_of_ascii c0 =? 45)%nat then neg (unsignedDecimal rest)
         else unsignedDecimal rest)
      else
        match rest with
        | String c1 rest' =>
            if (nat_of_ascii c0 =? 48)%nat
                 && ((nat_of_ascii c1 =? 120) || (nat_of_ascii c1 =? 88))%nat
            then radixValue 16 rest'
            else if (nat_of_ascii c0 =? 48)%nat
                 && ((nat_of_ascii c1 =? 111) || (nat_of_ascii c1 =? 79))%nat
            then radixValue 8 rest'
            else if (nat_of_ascii c0 =? 48)%nat
                 && ((nat_of_ascii c1 =? 98) || (nat_of_ascii c1 =? 66))%nat
            then radixValue 2 rest'
            else unsignedDecimal s
        | EmptyString => unsignedDecimal s
        end
  end).

Section Recalculation.

Variable rt : Runtime.

(** [evaluateExpression]: the evaluator reads other cells through
    [getCell], which creates the ones that do not exist. *)
Definition graphContext (maxComponents : number) : EvalContext Cells :=
  {| getValue := fun id '(h, cs) =>
       let '(c, cs') := getCellIn cs id in (Ok (cell_value c), (h, cs'));
     maxComponents := Some maxComponents;
     wasmMonteCarlo := None |}.

Definition evaluateExpression (expr : string) : M Graph Dist :=
  fun g =>
    let '(r, (h, cs)) :=
      evaluate rt expr (graphContext (config_maxComponents g))
               (objects g, cells g) in
    (r, {| cells := cs; dirtyTrack := dirtyTrack g;
           config_maxComponents := config_maxComponents g;
           objects := h |}).

Definition newDistIn (items : list Item) : M Graph Dist :=
  fun g =>
    let '(r, h) := Dist_of items (objects g) in
    (r, {| cells := cells g; dirtyTrack := dirtyTrack g;
           config_maxComponents := config_maxComponents g;
           objects := h |}).

(** [substring(1)] *)
Definition substring1 (s : string) : string :=
  match s with
  | EmptyString => EmptyString
  | String _ rest => rest
  end.

(** [try { ... } catch (e) { ... }] *)
Definition try_catch {S A : Type} (body : M S A) (handler : string -> M S A)
  : M S A :=
  fun s =>
    match body s with
    | (Throw e, s') => handler e s'
    | r => r
    end.

(** [evaluateCell(cell)] for the cell object [cellId]. *)
Definition evaluateCell (cellId : string) : M Graph unit :=
  let* cell := getCell cellId in
  if CellStatus_eqb (status cell) circular then ret tt
  else
    try_catch
      (let* v :=
         if startsWith (rawInput cell) "=" then
           evaluateExpression (substring1 (rawInput cell))
         else
           let trimmed := trim (rawInput cell) in
           let n :=
             if String.eqb trimmed EmptyString then NaN
             else JS_Number trimmed in
           if negb (isNaN n) then newDistIn [New (Atom n one)]
           else newDistIn [] in
       run assign cellId (set_value v) in
       run assign cellId (set_status ok) in
       markDirty cellId)
      (fun message =>
         run assign cellId (set_status error) in
         run assign cellId (set_error (Some message)) in
         markDirty cellId).

(** [buildOrder]: the cells reachable over [dependents].  A cell enters
    the queue once for every edge into it, so the number of edges bounds
    the rounds. *)
Fixpoint buildOrderLoop (rounds : nat) (queue dirty : list string)
  : M Graph (list string) :=
  match queue with
  | [] => ret dirty
  | curr :: queue' =>
      match rounds with
      | O => diverge
      | S rounds' =>
          if set_has dirty curr then buildOrderLoop rounds' queue' dirty
          else
            let dirty := set_add dirty curr in
            let* cell := getCell curr in
            run (if negb (CellStatus_eqb (status cell) circular) then
                   run assign curr (set_status evaluating) in
                   markDirty curr
                 else ret tt) in
            buildOrderLoop rounds' (queue' ++ dependents cell) dirty
      end
  end.

Definition edgeCount (cs : Cells) : nat :=
  fold_right (fun '(_, c) n => List.length (dependents c) + n) 0 cs.

Definition buildOrder (startId : string) : M Graph (list string) :=
  let* bound := gets (fun g => S (edgeCount (cells g))) in
  buildOrderLoop bound [startId] [].

(** The [Map<string, number>] of in-degrees, in the order of insertion. *)
Definition degree (inDegree : list (string * Z)) (id : string) : Z :=
  match assoc id inDegree with
  | Some d => d
  | None => 0%Z
  end.

Fixpoint setDegree (inDegree : list (string * Z)) (id : string) (d : Z)
  : list (string * Z) :=
  match inDegree with
  | [] => [(id, d)]
  | (k, v) :: rest =>
      if String.eqb id k then (k, d) :: rest
      else (k, v) :: setDegree rest id d
  end.

Definition buildInDegree (dirtySet : list string)
  : M Graph (list (string * Z)) :=
  foldM (fun inDegree id =>
    let* cell := getCell id in
    ret (fold_left (fun inDegree dep =>
           if set_has dirtySet dep
           then setDegree inDegree dep (degree inDegree dep + 1)%Z
           else inDegree) (dependents cell) inDegree))
    dirtySet (map (fun id => (id, 0%Z)) dirtySet).

(** The execution loop.  The cooperative [await] after every fifth cell
    does not change the graph and is left out: a recalculation runs to
    its end.  A cell is queued once, so the size of the dirty set bounds
    the rounds. *)
Fixpoint executeLoop (rounds : nat) (dirtySet : list string)
  (execQueue : list string) (inDegree : list (string * Z))
  (processedCount : nat) : M Graph (list (string * Z) * nat) :=
  match execQueue with
  | [] => ret (inDegree, processedCount)
  | currId :: execQueue' =>
      match rounds with
      | O => diverge
      | S rounds' =>
          run evaluateCell currId in
          let* cell := getCell currId in
          let '(inDegree', pushed) :=
            fold_left (fun '(inDegree, pushed) depId =>
              if set_has dirtySet depId then
                let d := (degree inDegree depId - 1)%Z in
                (setDegree inDegree depId d,
                 if (d =? 0)%Z then pushed ++ [depId] else pushed)
              else (inDegree, pushed))
              (dependents cell) (inDegree, []) in
          executeLoop rounds' dirtySet (execQueue' ++ pushed) inDegree'
                      (S processedCount)
      end
  end.

(** [recalculate(startId)] *)
Definition recalculate (startId : string) : M Graph unit :=
  let* dirtySet := buildOrder startId in
  let* inDegree := buildInDegree dirtySet in
  let execQueue :=
    map fst (filter (fun '(_, deg) => (deg =? 0)%Z) inDegree) in
  let* '(inDegree, processedCount) :=
    executeLoop (List.length dirtySet) dirtySet execQueue inDegree 0 in
  if (processedCount <? List.length dirtySet)%nat then
    forEach inDegree (fun '(id, deg) =>
      if (0 <? deg)%Z then
        run getCell id in
        run assign id (set_status circular) in
        markDirty id
      else ret tt)
  else ret tt.

(** [setCellInput(id, input)] *)
Definition setCellInput (id input : string) : M Graph unit :=
  let* cell := getCell id in
  if String.eqb (rawInput cell) input then ret tt
  else
    run assign id (set_rawInput input) in
    run markDirty id in
    let newDeps := detectDependencies input in
    run updateDependencies id newDeps in
    recalculate id.

(** [fromJSON], after [JSON.parse]: the configuration is taken over when
    the file has one, every cell is discarded, and the inputs of the file
    are set one after the other. *)
Definition fromJSON (config : option number)
  (inputs : list (string * string)) : M Graph unit :=
  run (match config with
       | Some maxComponents => setGlobalConfig maxComponents
       | None => ret tt
       end) in
  run modify (withCells []) in
  forEach inputs (fun '(id, input) => setCellInput id input).

End Recalculation.

(** ** Reading off results *)

(** A context without a component limit and without the accelerated
    Monte Carlo callback. *)
Definition defaultContext {World : Type}
  (getValue : string -> M (Heap * World) Dist) : EvalContext World :=
  {| getValue := getValue; maxComponents := None; wasmMonteCarlo := None |}.

(** The components of the distribution an evaluation returns. *)
Definition evaluated {World : Type} (r : Result Dist * (Heap * World))
  : Result (list DistComponent) :=
  match r with
  | (Ok d, (h, _)) => Ok (contents h d)
  | (Throw e, _) => Throw e
  | (Diverge, _) => Diverge
  end.

(** The components of the distribution a computation on the store
    returns. *)
Definition evaluated_in (r : Result Dist * Heap)
  : Result (list DistComponent) :=
  match r with
  | (Ok d, h) => Ok (contents h d)
  | (Throw e, _) => Throw e
  | (Diverge, _) => Diverge
  end.

(** The mixture as the specification words it, [(1-p)·A + p·B]: the
    masses of [A] are rescaled by [1-p], those of [B] by [p]. *)
Definition MIX_spec (p : number) (A B : list DistComponent)
  : list DistComponent :=
  map (fun c => scaleP c (sub one p)) A ++ map (fun c => scaleP c p) B.

(** A bin that contains the point [x] in its interior. *)
Definition crosses (x : number) (c : DistComponent) : bool :=
  match c with
  | Bin a b _ _ _ => lt a x && lt x b
  | _ => false
  end.

(** A bin that is well ordered, [a < b]. *)
Definition wellOrdered (c : DistComponent) : bool :=
  match c with
  | Bin a b _ _ _ => lt a b
  | _ => true
  end.

(** A runtime for the examples below; none of them reaches one of its
    functions. *)
Definition exampleRuntime : Runtime :=
  {| sqrt_ := fun x => x; exp_ := fun x => x; pow_ := fun x _ => x;
     PI_ := decimal 314159 5;
     median_ := fun _ => ret zero; sample_ := fun _ _ => ret [];
     maxOf_ := fun d _ => ret d; splitAt_ := fun d _ => ret (d, d) |}.

(** The tokens of a formula; none when the formula does not tokenize. *)
Definition tokensOf (formula : string) : list Token :=
  match tokenize formula with
  | Ok tokens => tokens
  | _ => []
  end.

(** A parser at the first token, with the override [lm] and an empty
    store. *)
Definition parserAt (lm : option number) : Parser unit :=
  {| pos := 0; localMaxComponents := lm; heap := []; world := tt |}.

(** The status and the components of the value of a cell. *)
Definition cellView (g : Graph) (cellId : string)
  : option (CellStatus * list DistComponent) :=
  option_map (fun c => (status c, contents (objects g) (cell_value c)))
             (assoc cellId (cells g)).

(** ** Invariants of computations *)

(** The computation [m] keeps [I] whenever it returns, and ends in [E]
    when it throws or diverges. *)
Definition holds {S A : Type} (I E : S -> Prop) (m : M S A) : Prop :=
  forall s, I s ->
    match m s with
    | (Ok _, s') => I s'
    | (_, s') => E s'
    end.

(** The computation [m] keeps [I], however it ends. *)
Definition preserves {S A : Type} (I : S -> Prop) (m : M S A) : Prop :=
  holds I I m.

(** The parser has the override [v]. *)
Definition overrideIs {World : Type} (v : option number)
  (st : Parser World) : Prop :=
  localMaxComponents st = v.

(** The cell [cellId] exists and is circular. *)
Definition isCircular (cellId : string) (cs : Cells) : Prop :=
  exists c, assoc cellId cs = Some c /\ status c = circular.

(** ** Examples *)

(** A context over no cells at all. *)
Definition noCells : EvalContext unit := defaultContext (fun _ => ret []).

(** An atom at -1 and an atom at 1, each of mass 1/2. *)
Definition atomsAround0 : Heap :=
  [Atom (ofZ (-1)) (decimal 5 1); Atom (ofZ 1) (decimal 5 1)].

(** The scalar 0.1 and the constants 0 and 100. *)
Definition mixOperands : Heap :=
  [Atom (decimal 1 1) one; Atom (ofZ 0) one; Atom (ofZ 100) one].

(** A graph with the single cell [A1], which holds the text [abc] and
    waits for its evaluation. *)
Definition textGraph : Graph :=
  withCells
    [("A1", set_status evaluating (set_rawInput "abc" (newCell "A1")))]
    newGraph.

(** What [m] returns or throws, [m'] returns or throws too: [m'] is [m]
    with more fuel. *)
Definition refines {S A : Type} (m m' : M S A) : Prop :=
  forall s, fst (m s) <> Diverge -> m' s = m s.

(** ** Notions for the properties of the code *)

(** The characters the tokenizer knows: white space, digits, the dot,
    letters, the underscore and the eight punctuation marks. *)
Definition tokenChar (ch : ascii) : bool :=
  isSpace ch || isDigit ch || isDot ch || isLetter ch || isUnderscore ch
  || match punctuation ch with Some _ => true | None => false end.

(** The input without its white space. *)
Definition withoutSpaces (input : string) : string :=
  string_of_list_ascii
    (List.filter (fun ch => negb (isSpace ch)) (list_ascii_of_string input)).

(** What [tokenize] may push: a number is a non-empty run of digits and
    dots, an identifier a letter or underscore followed by word
    characters, and a punctuation token its own character. *)
Definition tokenShape (t : Token) : bool :=
  match type t, value t with
  | NUMBER, String ch rest =>
      forallb (fun c => isDigit c || isDot c) (ch :: list_ascii_of_string rest)
  | ID, String ch rest =>
      (isLetter ch || isUnderscore ch)
      && forallb isWordChar (list_ascii_of_string rest)
  | ty, String ch EmptyString =>
      match punctuation ch with
      | Some ty' => TokenType_eqb ty ty'
      | None => false
      end
  | _, _ => false
  end.

(** The values of the tokens, one after the other. *)
Definition tokenValues (tokens : list Token) : string :=
  String.concat EmptyString (map value tokens).

(** The value that [colToIndex] accumulates: the letters read as a
    number in bijective base 26. *)
Definition lettersValue (letters : list ascii) (acc : Z) : Z :=
  fold_left (fun sum ch => (sum * 26 + (Z.of_nat (nat_of_ascii ch) - 65 + 1))%Z)
            letters acc.

(** The cell [cellId] exists and carries an error message. *)
Definition hasError (cellId : string) (cs : Cells) : bool :=
  match assoc cellId cs with
  | Some c => match cell_error c with Some _ => true | None => false end
  | None => false
  end.

(** The inputs that a sequence of [setCellInput] calls is run on. *)
Definition setInputs (rt : Runtime) (inputs : list (string * string))
  : M Graph unit :=
  forEach inputs (fun '(id, input) => setCellInput rt id input).

(** From a state in [P], the computation [m] returns, with a result and
    in a state that [Q] relates. *)
Definition returns {S A : Type} (P : S -> Prop) (m : M S A)
  (Q : A -> S -> Prop) : Prop :=
  forall s, P s -> exists a s', m s = (Ok a, s') /\ Q a s'.

(** The edges of the graph are in place: the dependencies of every cell
    are the references that [detectDependencies] finds in its raw input,
    and every cell is among the dependents of each of its dependencies. *)
Definition wired (cs : Cells) : Prop :=
  forall a ca, assoc a cs = Some ca ->
    dependencies ca = detectDependencies (rawInput ca)
    /\ forall b, In b (dependencies ca) ->
         exists cb, assoc b cs = Some cb /\ In a (dependents cb).

(** The cell [a] is among the dependents of the cell [b]. *)
Definition registered (a b : string) (cs : Cells) : Prop :=
  exists cb, assoc b cs = Some cb /\ In a (dependents cb).

(** [wired], for every cell but [id]. *)
Definition othersWired (id : string) (cs : Cells) : Prop :=
  forall a ca, a <> id -> assoc a cs = Some ca ->
    dependencies ca = detectDependencies (rawInput ca)
    /\ forall b, In b (dependencies ca) -> registered a b cs.

(** The cell [id] while its edges are updated: it has its new raw input
    and still the dependencies [D]. *)
Definition underUpdate (id input : string) (D : list string) (cs : Cells)
  : Prop :=
  exists c, assoc id cs = Some c /\ rawInput c = input /\ dependencies c = D.

(** The computation [m] never throws: it returns or it diverges. *)
Definition neverThrows {S A : Type} (m : M S A) : Prop :=
  forall s e, fst (m s) <> Throw e.

(** The edges that leave the cells not yet visited: what is left of the
    bound of [buildOrder]. *)
Definition pendingEdges (dirty : list string) (cs : Cells) : nat :=
  fold_right (fun '(k, c) n =>
                (if set_has dirty k then 0 else List.length (dependents c))
                + n) 0 cs.

(** Every dependent of a cell in [dirty] is in [dirty] or waits in
    [queue]. *)
Definition closedUnderDependents (dirty queue : list string) (cs : Cells)
  : Prop :=
  forall k c d,
    In k dirty -> assoc k cs = Some c -> In d (dependents c) ->
    In d dirty \/ In d queue.

(** Every cell in [dirty] exists and is marked: it is [evaluating],
    unless it is [circular]. *)
Definition marked (dirty : list string) (cs : Cells) : Prop :=
  forall k, In k dirty ->
    exists c, assoc k cs = Some c
              /\ (status c = circular \/ status c = evaluating).

(** The cells that an input to [startId] reaches over the edges to the
    dependents. *)
Inductive reaches (cs : Cells) (startId : string) : string -> Prop :=
| reaches_start : reaches cs startId startId
| reaches_dependent (k d : string) (c : Cell) :
    reaches cs startId k -> assoc k cs = Some c -> In d (dependents c) ->
    reaches cs startId d.

(** The keys of the map of in-degrees. *)
Definition degreeKeys (inDegree : list (string * Z)) : list string :=
  map fst inDegree.

(** A sheet of three cells: [A1] holds 1, [B1] the formula [=A1+1] and
    [C1] the formula [=5]. *)
Definition threeCells : Graph :=
  snd (setInputs exampleRuntime
         [("A1", "1"); ("B1", "=A1+1"); ("C1", "=5")] newGraph).

(** Components in the order of their keys. *)
Fixpoint sortedByKey (cs : list DistComponent) : bool :=
  match cs with
  | c1 :: ((c2 :: _) as rest) =>
      le (getKey c1) (getKey c2) && sortedByKey rest
  | _ => true
  end.

(** No key of these components is [NaN]. *)
Definition keysAreNumbers (cs : list DistComponent) : bool :=
  forallb (fun c => negb (isNaN (getKey c))) cs.

(** The components that take part in a convolution: all but the tails. *)
Definition body (cs : list DistComponent) : list DistComponent :=
  List.filter (fun c => negb (isTail c)) cs.

(** *** The flat encoding for the WebAssembly functions ([core/dist.ts])

    A [Float64Array] is the list of its elements. *)

(** [c.params.lambda || 1]: a missing rate, 0 and NaN are falsy. *)
Definition lambdaOr1 (params : list (string * number)) : number :=
  match assoc "lambda" params with
  | Some lambda => if isNaN lambda || eqn lambda zero then one else lambda
  | None => one
  end.

(** [componentsToFlatArray] *)
Definition componentsToFlatArray (components : list DistComponent)
  : list number :=
  flat_map (fun c =>
    match c with
    | Atom x p => [ofZ 0; x; p]
    | Bin a b p _ _ => [ofZ 1; a; b; p]
    | Tail side x0 mass _ params _ =>
        let lambda := lambdaOr1 params in
        let isRight :=
          match side with right_side => ofZ 1 | left_side => ofZ 0 end in
        [ofZ 2; x0; mass; lambda; isRight]
    end) components.

(** [parseComponentsFromFlat]: the index [i] grows in every round of the
    [while] loop, so the length of the array bounds the rounds. *)
Fixpoint parseFlatFrom (rounds : nat) (data : list number) (i : nat)
  : list DistComponent :=
  match rounds with
  | O => []
  | S rounds' =>
      if (i <? List.length data)%nat then
        let at_ (k : nat) := default NaN (data !! (i + k)) in
        let type := at_ 0 in
        if eqn type (ofZ 0) && (i + 2 <? List.length data)%nat then
          Atom (at_ 1) (at_ 2) :: parseFlatFrom rounds' data (i + 3)
        else if eqn type (ofZ 1) && (i + 3 <? List.length data)%nat then
          Bin (at_ 1) (at_ 2) (at_ 3) (div (add (at_ 1) (at_ 2)) two) uniform
            :: parseFlatFrom rounds' data (i + 4)
        else if eqn type (ofZ 2) && (i + 4 <? List.length data)%nat then
          Tail (if gt (at_ 4) (decimal 5 1) then right_side else left_side)
               (at_ 1) (at_ 2) exp_family [("lambda", at_ 3)] None
            :: parseFlatFrom rounds' data (i + 5)
        else parseFlatFrom rounds' data (i + 1)
      else []
  end.

Definition parseComponentsFromFlat (data : list number)
  : list DistComponent :=
  parseFlatFrom (List.length data) data 0.

(** What the flat encoding keeps of a component: an atom as it is, of a
    bin its ends and its mass, of a tail its side, its start, its mass and
    the rate [lambda]. *)
Definition flattened (c : DistComponent) : DistComponent :=
  match c with
  | Atom x p => Atom x p
  | Bin a b p _ _ => Bin a b p (div (add a b) two) uniform
  | Tail side x0 mass _ params _ =>
      Tail side x0 mass exp_family [("lambda", lambdaOr1 params)] None
  end.

(** The sum that [normalize] takes of the masses, in the order of the
    components. *)
Definition totalMass (cs : list DistComponent) : number :=
  fold_left (fun acc c => add acc (massOf c)) cs zero.

(** [normalize] leaves a distribution of this total mass as it is. *)
Definition isNormal (total : number) : bool :=
  eqn total zero || lt (Math_abs (sub total one)) epsilon9.

(** The component that an item of an array under construction stands
    for. *)
Definition itemValue (h : Heap) (item : Item) : DistComponent :=
  match item with
  | Old r => load h r
  | New c => c
  end.

(** Every reference of [rs] is bound in the store [h]. *)
Definition bound (h : Heap) (rs : list ref) : Prop :=
  Forall (fun r => r < List.length h) rs.

(** The pieces that [splitAtBoundaries] makes of a component at the
    boundary [b]: the values of the items of [splitItem]. *)
Definition splitComponent (b : number) (c : DistComponent)
  : list DistComponent :=
  match c with
  | Bin ca cb cp _ shape =>
      if lt ca b && gt cb b then
        [Bin ca b (mul cp (div (sub b ca) (sub cb ca)))
             (div (add ca b) two) shape;
         Bin b cb (mul cp (div (sub cb b) (sub cb ca)))
             (div (add b cb) two) shape]
      else [c]
  | _ => [c]
  end.

(** The tails among these components, in their order. *)
Definition tails (cs : list DistComponent) : list DistComponent :=
  List.filter isTail cs.

(** A pair of neighbours that [greedyReduce] may merge: no boundary lies
    at their junction, neither of them is a tail, and their cost is
    below [Number.MAX_VALUE]. *)
Definition mergeable (c w : number) (bounds : list number)
  (c1 c2 : DistComponent) : bool :=
  negb (hasBoundaryBetween (getEnd c1) (getStart c2) bounds)
  && negb (isTail c1 || isTail c2)
  && lt (add (getImp c w c1) (getImp c w c2)) MAX_VALUE.

(** The graph in which [A1] and [A2] refer to each other. *)
Definition cyclicGraph : Graph :=
  snd (setInputs exampleRuntime [("A1", "=A2"); ("A2", "=A1")] newGraph).

(** A cell that has not been set: it does not exist, or it has the empty
    raw input and no dependencies, as a new cell. *)
Definition unset (cellId : string) (cs : Cells) : Prop :=
  match assoc cellId cs with
  | Some c => rawInput c = EmptyString /\ dependencies c = []
  | None => True
  end.

(** The dependents in the table [cs] are those of the table [cs0]; the
    cells that are not in [cs0] have none. *)
Definition keepsDependents (cs0 cs : Cells) : Prop :=
  forall k,
    match assoc k cs0, assoc k cs with
    | Some x0, Some x => dependents x = dependents x0
    | Some _, None => False
    | None, Some x => dependents x = []
    | None, None => True
    end.

(** A sheet on which [B1] refers to [A1] and [A2], which have not been
    set. *)
Definition sheetOfB1 : Graph :=
  snd (setInputs exampleRuntime [("B1", "=A1+A2")] newGraph).

(** * Properties *)

(** ** The store *)

Lemma materialize_New (cs : list DistComponent) (h : Heap) :
  materialize (map New cs) h
  = (Ok (seq (List.length h) (List.length cs)), h ++ cs).
Proof.
  revert h. induction cs as [|c cs IH]; intros h; simpl.
  - unfold ret. now rewrite app_nil_r.
  - unfold bind, alloc. rewrite IH. unfold ret.
    rewrite length_app. simpl. rewrite Nat.add_1_r.
    now rewrite <- app_assoc.
Qed.

Lemma load_fresh (h cs : Heap) (i : nat) (c : DistComponent) :
  cs !! i = Some c -> load (h ++ cs) (List.length h + i) = c.
Proof.
  intros H. unfold load.
  rewrite lookup_app_r by lia.
  replace (List.length h + i - List.length h) with i by lia.
  now rewrite H.
Qed.

Lemma contents_fresh (cs h : Heap) :
  contents (h ++ cs) (seq (List.length h) (List.length cs)) = cs.
Proof.
  revert h. induction cs as [|c cs IH]; intros h; simpl; [reflexivity|].
  f_equal.
  - replace (List.length h) with (List.length h + 0) at 1 by lia.
    now apply load_fresh.
  - specialize (IH (h ++ [c])).
    rewrite <- app_assoc, length_app in IH. simpl in IH.
    now rewrite Nat.add_1_r in IH.
Qed.

Lemma insertSorted_perm (h : Heap) (r : ref) (l : list ref) :
  Permutation (insertSorted h r l) (r :: l).
Proof.
  induction l as [|r' l IH]; cbn [insertSorted]; [reflexivity|].
  destruct (gt (sub (getKey (load h r)) (getKey (load h r'))) zero);
    [|reflexivity].
  rewrite IH. apply perm_swap.
Qed.

Lemma sortRefs_perm (h : Heap) (rs : list ref) :
  Permutation (sortRefs h rs) rs.
Proof.
  induction rs as [|r rs IH]; [reflexivity|].
  unfold sortRefs. cbn [fold_right]. fold (sortRefs h rs).
  rewrite insertSorted_perm. now constructor.
Qed.

Lemma Dist_of_New (cs : list DistComponent) (h : Heap) :
  exists d,
    Dist_of (map New cs) h = (Ok d, h ++ cs)
    /\ Permutation (contents (h ++ cs) d) cs.
Proof.
  unfold Dist_of, bind. rewrite materialize_New.
  unfold Dist_new, gets. eexists. split; [reflexivity|].
  transitivity (contents (h ++ cs) (seq (List.length h) (List.length cs))).
  - unfold contents. apply Permutation_map, sortRefs_perm.
  - now rewrite contents_fresh.
Qed.

(** ** MIX *)

Lemma isScalarIn_spec (h : Heap) (d : Dist) :
  isScalarIn h d = true <->
  exists x p, contents h d = [Atom x p]
              /\ lt (Math_abs (sub p one)) epsilon9 = true.
Proof.
  unfold isScalarIn. split.
  - destruct (contents h d) as [|[x p| |] [|]]; try discriminate.
    intros H. now exists x, p.
  - intros (x & p & -> & H). exact H.
Qed.

Lemma getScalar_scalar (h : Heap) (d : Dist) (x p : number) :
  contents h d = [Atom x p] ->
  lt (Math_abs (sub p one)) epsilon9 = true ->
  getScalar d h = (Ok x, h).
Proof.
  intros Hd Hp. unfold getScalar, bind, isScalar, gets, isScalarIn, reads.
  rewrite Hd, Hp. cbn. now rewrite Hd.
Qed.

Lemma getScalar_not_scalar (h : Heap) (d : Dist) :
  isScalarIn h d = false -> getScalar d h = (Throw scalar_expected, h).
Proof.
  intros H. unfold getScalar, bind, isScalar, gets. now rewrite H.
Qed.

Lemma Dist_mix_spec (this other : Dist) (p : number) (h : Heap) :
  exists m h',
    Dist_mix this other p h = (Ok m, h')
    /\ Permutation (contents h' m)
         (map (fun c => scaleP c (sub one p)) (contents h this)
          ++ map (fun c => scaleP c p) (contents h other)).
Proof.
  unfold Dist_mix, bind, reads, gets.
  destruct (Dist_of_New
              (map (fun c => scaleP c (sub one p)) (contents h this)
               ++ map (fun c => scaleP c p) (contents h other)) h)
    as (d & Hd & Hperm).
  exists d. eexists. split; [exact Hd|exact Hperm].
Qed.

(** C1, amended.  [MIX(p, A, B)] weighs its second argument by [p] and
    its third by [1-p]: the result is the mixture [p·A + (1-p)·B], passed
    through the safety check, which returns it as it is when it has no
    more components than the limit.  In particular
    [MIX(0.1, CONST(0), CONST(100))] is an atom at 0 of mass 0.1 and an
    atom at 100 of mass 0.9. *)
Theorem MIX_weighs_second_argument_by_p
  (rt : Runtime) (World : Type) (ctx : EvalContext World)
  (lm : option number) (h : Heap) (P A B : Dist) (p q : number)
  (HP : contents h P = [Atom p q])
  (Hq : lt (Math_abs (sub q one)) epsilon9 = true) :
  (exists m h',
      Permutation (contents h' m)
        (map (fun c => scaleP c p) (contents h A)
         ++ map (fun c => scaleP c (sub one p)) (contents h B))
      /\ callFunction rt World ctx "MIX" lm [P; A; B] h
         = checkSafety World ctx lm m h'
      /\ (gt (ofNat (List.length m)) (effectiveLimit World ctx lm) = false ->
          callFunction rt World ctx "MIX" lm [P; A; B] h = (Ok m, h')))
  /\ (forall (gv : string -> M (Heap * World) Dist) (w : World),
        evaluated (evaluate rt "MIX(0.1, CONST(0), CONST(100))"
                            (defaultContext gv) ([], w))
        = Ok [Atom (ofZ 0) (decimal 1 1); Atom (ofZ 100) (decimal 9 1)]).
Proof.
  split; [|intros gv w; vm_compute; reflexivity].
  destruct (Dist_mix_spec B A p h) as (m & h' & Hmix & Hperm).
  exists m, h'.
  assert (Hcall : callFunction rt World ctx "MIX" lm [P; A; B] h
                  = checkSafety World ctx lm m h').
  { change (callFunction rt World ctx "MIX" lm [P; A; B])
      with (fn_MIX World ctx lm [P; A; B]).
    unfold fn_MIX, bind, isScalar, gets.
    assert (Hs : isScalarIn h P = true)
      by (apply isScalarIn_spec; eauto).
    rewrite Hs. rewrite (getScalar_scalar h P p q HP Hq).
    now rewrite Hmix. }
  split; [|split].
  - rewrite Hperm. apply Permutation_app_comm.
  - exact Hcall.
  - intros Hle. rewrite Hcall. unfold checkSafety. now rewrite Hle.
Qed.

Lemma MIX_weighs_second_argument_by_p_witness :
  (exists m h',
      Permutation (contents h' m)
        (map (fun c => scaleP c (decimal 1 1)) (contents mixOperands [1])
         ++ map (fun c => scaleP c (sub one (decimal 1 1)))
                (contents mixOperands [2]))
      /\ callFunction exampleRuntime unit noCells "MIX" None [[0]; [1]; [2]]
                      mixOperands
         = checkSafety unit noCells None m h'
      /\ (gt (ofNat (List.length m)) (effectiveLimit unit noCells None)
          = false ->
          callFunction exampleRuntime unit noCells "MIX" None
                       [[0]; [1]; [2]] mixOperands
          = (Ok m, h')))
  /\ (forall (gv : string -> M (Heap * unit) Dist) (w : unit),
        evaluated (evaluate exampleRuntime "MIX(0.1, CONST(0), CONST(100))"
                            (defaultContext gv) ([], w))
        = Ok [Atom (ofZ 0) (decimal 1 1); Atom (ofZ 100) (decimal 9 1)]).
Proof.
  apply (MIX_weighs_second_argument_by_p exampleRuntime unit noCells None
           mixOperands [0] [1] [2] (decimal 1 1) one); reflexivity.
Defined.

(** C1 as stated fails: in [MIX(0.1, CONST(0), CONST(100))] the atom at 0
    does not get the mass [1-p] that [(1-p)·A + p·B] gives it. *)
Lemma MIX_is_not_the_mixture_of_the_specification :
  exists cs,
    evaluated (evaluate exampleRuntime "MIX(0.1, CONST(0), CONST(100))"
                 noCells ([], tt)) = Ok cs
    /\ ~ Permutation cs
           (MIX_spec (decimal 1 1) [Atom (ofZ 0) one] [Atom (ofZ 100) one]).
Proof.
  eexists. split; [vm_compute; reflexivity|].
  intros HP.
  apply Permutation_in with (x := Atom (Num 0) (Num (1 # 10))) in HP;
    [|left; reflexivity].
  vm_compute in HP. destruct HP as [H|[H|[]]]; discriminate H.
Qed.

(** ** The safety check *)

(** C2, amended.  The effective limit is the local override, else the
    limit of the context, else 200.  A distribution with more components
    than the limit is handed to the reducer with [targetN] the limit and
    nothing else, which the reducer reads as impact centre 0, width
    weight 0, no valley threshold and no boundaries; any other
    distribution is returned as it is. *)
Theorem checkSafety_reduces_without_boundaries
  (World : Type) (ctx : EvalContext World) (lm : option number)
  (d : Dist) (h : Heap)
  (Hover : gt (ofNat (List.length d)) (effectiveLimit World ctx lm) = true) :
  checkSafety World ctx lm d h
  = reduce d {| targetN := effectiveLimit World ctx lm;
                impactCenter := Some zero;
                impactWidthWeight := Some zero;
                tau := None;
                boundaries := Some [] |} h
  /\ effectiveLimit World ctx lm
     = match lm, maxComponents ctx with
       | Some l, _ => l
       | None, Some l => l
       | None, None => ofZ 200
       end.
Proof.
  split.
  - unfold checkSafety. rewrite Hover. reflexivity.
  - unfold effectiveLimit, nullish. now destruct lm, (maxComponents ctx).
Qed.

Lemma checkSafety_reduces_without_boundaries_witness :
  checkSafety unit noCells (Some one) [0; 1] atomsAround0
  = reduce [0; 1] {| targetN := effectiveLimit unit noCells (Some one);
                     impactCenter := Some zero;
                     impactWidthWeight := Some zero;
                     tau := None;
                     boundaries := Some [] |} atomsAround0
  /\ effectiveLimit unit noCells (Some one)
     = match Some one, maxComponents noCells with
       | Some l, _ => l
       | None, Some l => l
       | None, None => ofZ 200
       end.
Proof.
  apply (checkSafety_reduces_without_boundaries unit noCells (Some one)
           [0; 1] atomsAround0).
  reflexivity.
Defined.

(** C2 as stated fails: with the limit 1, the safety check merges an atom
    at -1 and an atom at 1 into the bin [-1, 1]; the reducer called with
    the boundary list {0} keeps them apart. *)
Lemma checkSafety_does_not_pass_the_boundary_0 :
  gt (ofNat (List.length [0; 1])) (effectiveLimit unit noCells (Some one))
  = true
  /\ evaluated_in (checkSafety unit noCells (Some one) [0; 1] atomsAround0)
     = Ok [Bin (ofZ (-1)) (ofZ 1) one zero uniform]
  /\ evaluated_in
       (reduce [0; 1] {| targetN := effectiveLimit unit noCells (Some one);
                         impactCenter := Some zero;
                         impactWidthWeight := None;
                         tau := None;
                         boundaries := Some [zero] |} atomsAround0)
     = Ok [Atom (ofZ (-1)) (decimal 5 1); Atom (ofZ 1) (decimal 5 1)]
  /\ checkSafety unit noCells (Some one) [0; 1] atomsAround0
     <> reduce [0; 1] {| targetN := effectiveLimit unit noCells (Some one);
                         impactCenter := Some zero;
                         impactWidthWeight := None;
                         tau := None;
                         boundaries := Some [zero] |} atomsAround0.
Proof.
  split; [reflexivity|]. split; [vm_compute; reflexivity|].
  split; [vm_compute; reflexivity|].
  vm_compute. discriminate.
Qed.

(** ** Invariants of the parser *)

Section Holds.

Context {S : Type} (I E : S -> Prop).
Hypothesis I_E : forall s, I s -> E s.

Lemma holds_bind {A B : Type} (m : M S A) (f : A -> M S B) :
  holds I E m -> (forall a, holds I E (f a)) -> holds I E (bind m f).
Proof.
  intros Hm Hf s Hs. unfold bind. specialize (Hm s Hs).
  destruct (m s) as [[a| |] s']; auto. now apply Hf.
Qed.

Lemma holds_ret {A : Type} (a : A) : holds I E (ret a).
Proof. now intros s Hs. Qed.

Lemma holds_throw {A : Type} e : holds I E (throw (A := A) e).
Proof. intros s Hs. now apply I_E. Qed.

Lemma holds_diverge {A : Type} : holds I E (diverge (A := A)).
Proof. intros s Hs. now apply I_E. Qed.

Lemma holds_gets {A : Type} (f : S -> A) : holds I E (gets f).
Proof. now intros s Hs. Qed.

Lemma holds_modify (f : S -> S) :
  (forall s, I s -> I (f s)) -> holds I E (modify f).
Proof. intros Hf s Hs. now apply Hf. Qed.

Lemma holds_foldM {A B : Type} (body : B -> A -> M S B) l acc :
  (forall b a, holds I E (body b a)) -> holds I E (foldM body l acc).
Proof.
  intros Hbody. revert acc. induction l as [|x l IH]; intros acc; cbn [foldM].
  - apply holds_ret.
  - apply holds_bind; auto.
Qed.

Lemma holds_forEach {A : Type} (l : list A) (body : A -> M S unit) :
  (forall a, holds I E (body a)) -> holds I E (forEach l body).
Proof.
  intros Hbody. induction l as [|x l IH]; cbn [forEach].
  - apply holds_ret.
  - apply holds_bind; auto.
Qed.

End Holds.

Ltac holds_step :=
  match goal with
  | H : holds ?I ?E ?m |- holds ?I ?E ?m => exact H
  | |- holds _ _ (bind _ _) => apply holds_bind; [|intros ?]
  | |- holds _ _ (ret _) => apply holds_ret
  | |- holds _ _ (throw _) => apply holds_throw; assumption
  | |- holds _ _ diverge => apply holds_diverge; assumption
  | |- holds _ _ (gets _) => apply holds_gets
  | |- holds _ _ (foldM _ _ _) => apply holds_foldM; intros ? ?
  | |- holds _ _ (forEach _ _) => apply holds_forEach; intros ?
  | |- holds _ _ (if ?b then _ else _) => destruct b
  | |- holds _ _ (match ?x with _ => _ end) => destruct x
  end.

Create HintDb holds.

Ltac holds_auto := repeat (holds_step || (progress eauto with holds)).

Section ParserInvariant.

Variable rt : Runtime.
Variable World : Type.
Variable tokens : list Token.
Variable ctx : EvalContext World.

Section Generic.

(** An invariant that neither the position nor the store can break, and
    that reading a cell keeps. *)
Variables I E : Parser World -> Prop.
Hypothesis I_E : forall st, I st -> E st.
Hypothesis I_frame :
  forall st p h, I st ->
    I {| pos := p; localMaxComponents := localMaxComponents st;
         heap := h; world := world st |}.
Hypothesis I_getValue :
  forall st id, I st ->
    I {| pos := pos st; localMaxComponents := localMaxComponents st;
         heap := fst (snd (getValue ctx id (heap st, world st)));
         world := snd (snd (getValue ctx id (heap st, world st))) |}.

Lemma holds_onHeap {A : Type} (m : M Heap A) : holds I E (onHeap World m).
Proof.
  intros st Hst. unfold onHeap.
  destruct (m (heap st)) as [[| |] h]; try apply I_E; now apply I_frame.
Qed.

Lemma holds_ctx_getValue id : holds I E (ctx_getValue World ctx id).
Proof.
  intros st Hst. unfold ctx_getValue. pose proof (I_getValue st id Hst) as H.
  destruct (getValue ctx id (heap st, world st)) as [[| |] [h w]];
    try apply I_E; exact H.
Qed.

Lemma holds_setPos n : holds I E (setPos World n).
Proof. intros st Hst. now apply I_frame. Qed.

Lemma holds_peek : holds I E (peek World tokens).
Proof. apply holds_gets. Qed.

Lemma holds_peekAt n : holds I E (peekAt World tokens n).
Proof. apply holds_gets. Qed.

Lemma holds_consume : holds I E (consume World tokens).
Proof.
  unfold consume.
  repeat (holds_step || apply holds_peek || apply holds_setPos).
Qed.

Lemma holds_expect ty : holds I E (expect World tokens ty).
Proof. unfold expect. repeat (holds_step || apply holds_consume). Qed.

Lemma holds_peekIs ty : holds I E (peekIs World tokens ty).
Proof. unfold peekIs. repeat (holds_step || apply holds_peek). Qed.

#[local] Hint Resolve holds_onHeap holds_ctx_getValue holds_setPos
  holds_peek holds_peekAt holds_consume holds_expect holds_peekIs : holds.

Lemma holds_expressionLoop (parseTerm : P World Dist) :
  holds I E parseTerm ->
  forall rounds left,
    holds I E (expressionLoop rt World tokens ctx parseTerm rounds left).
Proof.
  intros Hpt. induction rounds as [|rounds IH]; intros left;
    cbn [expressionLoop]; holds_auto.
Qed.

Lemma holds_termLoop (parseFactor : P World Dist) :
  holds I E parseFactor ->
  forall rounds left,
    holds I E (termLoop World tokens ctx parseFactor rounds left).
Proof.
  intros Hpf. induction rounds as [|rounds IH]; intros left;
    cbn [termLoop]; holds_auto.
Qed.

Lemma holds_tryParseArg (parseExpression : P World Dist) :
  holds I E parseExpression ->
  holds I E (tryParseArg World tokens ctx parseExpression).
Proof. intros Hpe. unfold tryParseArg. holds_auto. Qed.

Lemma holds_argsLoop (parseExpression : P World Dist) :
  holds I E parseExpression ->
  forall rounds args,
    holds I E (argsLoop World tokens ctx parseExpression rounds args).
Proof.
  intros Hpe. induction rounds as [|rounds IH]; intros args;
    cbn [argsLoop]; holds_auto.
  now apply holds_tryParseArg.
Qed.

(** One level of the descent, given the CONFIG case. *)
Lemma holds_descent (depth : nat) :
  holds I E (parseExpression rt World tokens ctx depth) ->
  holds I E (parseFactor rt World tokens ctx depth) ->
  holds I E (parseTerm rt World tokens ctx depth) ->
  (forall name, holds I E (parseFunctionCall rt World tokens ctx depth name)) ->
  holds I E (parseConfig World tokens
               (parseExpression rt World tokens ctx depth)) ->
  holds I E (parseExpression rt World tokens ctx (S depth))
  /\ holds I E (parseTerm rt World tokens ctx (S depth))
  /\ holds I E (parseFactor rt World tokens ctx (S depth))
  /\ forall name,
       holds I E (parseFunctionCall rt World tokens ctx (S depth) name).
Proof.
  intros He Hf Ht Hc Hconfig. repeat split.
  - cbn [parseExpression]. apply holds_bind; [exact Ht|intros left].
    now apply holds_expressionLoop.
  - cbn [parseTerm]. apply holds_bind; [exact Hf|intros left].
    now apply holds_termLoop.
  - cbn [parseFactor]. holds_auto.
  - intros name. cbn [parseFunctionCall].
    apply holds_bind; [apply holds_expect|intros _].
    apply holds_bind; [apply holds_peekIs|intros closing].
    destruct (negb closing && String.eqb (toUpperCase name) "CONFIG");
      [exact Hconfig|].
    holds_auto.
    + now apply holds_tryParseArg.
    + now apply holds_argsLoop.
Qed.

End Generic.

(** *** The override is kept *)

Lemma keeps_parseConfig (v : option number) (parseExpression : P World Dist) :
  (forall v', holds (overrideIs v') (fun _ => True) parseExpression) ->
  holds (overrideIs v) (fun _ => True)
        (parseConfig World tokens parseExpression).
Proof.
  intros Hpe. unfold parseConfig.
  apply holds_bind; [apply Hpe|intros limitDist].
  apply holds_bind; [now apply holds_onHeap|intros limit].
  apply holds_bind; [now apply holds_expect|intros _].
  intros st Hst. unfold bind at 1. unfold gets at 1.
  unfold bind at 1. unfold setLocalMaxComponents at 1, modify.
  unfold bind at 1.
  pose proof (Hpe (Some limit)
    {| pos := pos st; localMaxComponents := Some limit;
       heap := heap st; world := world st |} eq_refl) as Hinner.
  destruct (parseExpression _) as [[result| |] st2]; auto.
  unfold bind at 1. unfold setLocalMaxComponents at 1, modify.
  apply (holds_bind (overrideIs v) (fun _ => True)
           (expect World tokens RPAREN) (fun _ => ret result)).
  - now apply holds_expect.
  - intros _. apply holds_ret.
  - exact Hst.
Qed.

Lemma keeps_parser :
  forall depth v,
    holds (overrideIs v) (fun _ => True)
          (parseExpression rt World tokens ctx depth)
    /\ holds (overrideIs v) (fun _ => True)
             (parseTerm rt World tokens ctx depth)
    /\ holds (overrideIs v) (fun _ => True)
             (parseFactor rt World tokens ctx depth)
    /\ forall name,
         holds (overrideIs v) (fun _ => True)
               (parseFunctionCall rt World tokens ctx depth name).
Proof.
  induction depth as [|depth IH]; intros v.
  - repeat split; intros; cbn; now apply holds_diverge.
  - apply holds_descent; try (intros; apply IH); auto.
    apply keeps_parseConfig. intros v'. apply IH.
Qed.

(** *** What lies behind the context is only changed by reading cells *)

Section Behind.

Variable J : World -> Prop.
Hypothesis J_getValue :
  forall id h w, J w -> J (snd (snd (getValue ctx id (h, w)))).

Lemma behind_parser :
  forall depth,
    preserves (fun st => J (world st))
              (parseExpression rt World tokens ctx depth)
    /\ preserves (fun st => J (world st))
                 (parseTerm rt World tokens ctx depth)
    /\ preserves (fun st => J (world st))
                 (parseFactor rt World tokens ctx depth)
    /\ forall name,
         preserves (fun st => J (world st))
                   (parseFunctionCall rt World tokens ctx depth name).
Proof.
  unfold preserves.
  induction depth as [|depth IH].
  - repeat split; intros; cbn; now apply holds_diverge.
  - destruct IH as (He & Ht & Hf & Hc).
    apply holds_descent; auto.
    + intros st id. apply J_getValue.
    + unfold parseConfig.
      repeat (holds_step
              || (apply holds_onHeap; auto)
              || (apply holds_expect; auto)
              || (apply holds_modify; auto)).
Qed.

End Behind.

End ParserInvariant.

(** ** More fuel does not change a result *)

Section Refines.

Context {S : Type}.

Lemma refines_refl {A : Type} (m : M S A) : refines m m.
Proof. now intros s _. Qed.

Lemma refines_diverge {A : Type} (m : M S A) : refines diverge m.
Proof. intros s H. now elim H. Qed.

Lemma refines_bind {A B : Type} (m m' : M S A) (f f' : A -> M S B) :
  refines m m' -> (forall a, refines (f a) (f' a)) ->
  refines (bind m f) (bind m' f').
Proof.
  intros Hm Hf s H. unfold bind in *.
  specialize (Hm s).
  destruct (m s) as [[a| |] s1]; cbn [fst] in *.
  - rewrite Hm by discriminate. now apply Hf.
  - now rewrite Hm by discriminate.
  - now elim H.
Qed.

Lemma refines_foldM {A B : Type} (body body' : B -> A -> M S B) l acc :
  (forall b a, refines (body b a) (body' b a)) ->
  refines (foldM body l acc) (foldM body' l acc).
Proof.
  intros Hbody. revert acc. induction l as [|x l IH]; intros acc; cbn [foldM].
  - apply refines_refl.
  - apply refines_bind; auto.
Qed.

End Refines.

Ltac refines_step :=
  match goal with
  | |- refines ?m ?m => apply refines_refl
  | H : refines ?m ?m' |- refines ?m ?m' => exact H
  | |- refines diverge _ => apply refines_diverge
  | |- refines (bind _ _) (bind _ _) => apply refines_bind; [|intros ?]
  | |- refines (foldM _ _ _) (foldM _ _ _) => apply refines_foldM; intros ? ?
  | |- refines (if ?b then _ else _) (if ?b then _ else _) => destruct b
  | |- refines (match ?x with _ => _ end) (match ?x with _ => _ end) =>
      destruct x
  end.

Section Fuel.

Variable rt : Runtime.
Variable World : Type.
Variable tokens : list Token.
Variable ctx : EvalContext World.

Lemma refines_expressionLoop (parseTerm parseTerm' : P World Dist) :
  refines parseTerm parseTerm' ->
  forall rounds rounds' left, rounds <= rounds' ->
    refines (expressionLoop rt World tokens ctx parseTerm rounds left)
            (expressionLoop rt World tokens ctx parseTerm' rounds' left).
Proof.
  intros Hpt. induction rounds as [|rounds IH]; intros rounds' left Hle.
  - destruct rounds'; cbn [expressionLoop];
      repeat (refines_step; try apply refines_refl).
  - destruct rounds' as [|rounds']; [lia|].
    cbn [expressionLoop].
    repeat (refines_step; try (apply IH; lia)).
Qed.

Lemma refines_termLoop (parseFactor parseFactor' : P World Dist) :
  refines parseFactor parseFactor' ->
  forall rounds rounds' left, rounds <= rounds' ->
    refines (termLoop World tokens ctx parseFactor rounds left)
            (termLoop World tokens ctx parseFactor' rounds' left).
Proof.
  intros Hpf. induction rounds as [|rounds IH]; intros rounds' left Hle.
  - destruct rounds'; cbn [termLoop];
      repeat (refines_step; try apply refines_refl).
  - destruct rounds' as [|rounds']; [lia|].
    cbn [termLoop].
    repeat (refines_step; try (apply IH; lia)).
Qed.

Lemma refines_tryParseArg (parseExpression parseExpression' : P World Dist) :
  refines parseExpression parseExpression' ->
  refines (tryParseArg World tokens ctx parseExpression)
          (tryParseArg World tokens ctx parseExpression').
Proof. intros Hpe. unfold tryParseArg. repeat refines_step. Qed.

Lemma refines_argsLoop (parseExpression parseExpression' : P World Dist) :
  refines parseExpression parseExpression' ->
  forall rounds rounds' args, rounds <= rounds' ->
    refines (argsLoop World tokens ctx parseExpression rounds args)
            (argsLoop World tokens ctx parseExpression' rounds' args).
Proof.
  intros Hpe. induction rounds as [|rounds IH]; intros rounds' args Hle.
  - destruct rounds'; cbn [argsLoop];
      repeat (refines_step; try apply refines_refl).
  - destruct rounds' as [|rounds']; [lia|].
    cbn [argsLoop].
    repeat first
      [ refines_step
      | apply refines_tryParseArg; exact Hpe
      | apply IH; lia ].
Qed.

Lemma refines_parseConfig (parseExpression parseExpression' : P World Dist) :
  refines parseExpression parseExpression' ->
  refines (parseConfig World tokens parseExpression)
          (parseConfig World tokens parseExpression').
Proof. intros Hpe. unfold parseConfig. repeat refines_step. Qed.

(** A result that the parser reaches at one depth is its result at
    every greater depth. *)
Lemma parser_depth_step :
  forall depth,
    refines (parseExpression rt World tokens ctx depth)
            (parseExpression rt World tokens ctx (S depth))
    /\ refines (parseTerm rt World tokens ctx depth)
               (parseTerm rt World tokens ctx (S depth))
    /\ refines (parseFactor rt World tokens ctx depth)
               (parseFactor rt World tokens ctx (S depth))
    /\ forall name,
         refines (parseFunctionCall rt World tokens ctx depth name)
                 (parseFunctionCall rt World tokens ctx (S depth) name).
Proof.
  induction depth as [|depth (He & Ht & Hf & Hc)].
  - repeat split; intros; apply refines_diverge.
  - repeat split.
    + change (parseExpression rt World tokens ctx (S (S depth)))
        with (let* left := parseTerm rt World tokens ctx (S depth) in
              expressionLoop rt World tokens ctx
                (parseTerm rt World tokens ctx (S depth))
                (List.length tokens) left).
      change (parseExpression rt World tokens ctx (S depth))
        with (let* left := parseTerm rt World tokens ctx depth in
              expressionLoop rt World tokens ctx
                (parseTerm rt World tokens ctx depth)
                (List.length tokens) left).
      apply refines_bind; [exact Ht|intros left].
      now apply refines_expressionLoop.
    + change (parseTerm rt World tokens ctx (S (S depth)))
        with (let* left := parseFactor rt World tokens ctx (S depth) in
              termLoop World tokens ctx
                (parseFactor rt World tokens ctx (S depth))
                (List.length tokens) left).
      change (parseTerm rt World tokens ctx (S depth))
        with (let* left := parseFactor rt World tokens ctx depth in
              termLoop World tokens ctx
                (parseFactor rt World tokens ctx depth)
                (List.length tokens) left).
      apply refines_bind; [exact Hf|intros left].
      now apply refines_termLoop.
    + cbn [parseFactor]. repeat first [refines_step | apply Hc].
    + intros name. cbn [parseFunctionCall].
      repeat first
        [ refines_step
        | apply refines_parseConfig; exact He
        | apply refines_tryParseArg; exact He
        | apply refines_argsLoop; [exact He|lia] ].
Qed.

Lemma parser_depth_monotone (depth depth' : nat) :
  depth <= depth' ->
  refines (parseExpression rt World tokens ctx depth)
          (parseExpression rt World tokens ctx depth').
Proof.
  induction 1 as [|depth' Hle IH]; [apply refines_refl|].
  intros st H. rewrite <- (IH st H).
  apply (proj1 (parser_depth_step depth')). now rewrite (IH st H).
Qed.

End Fuel.

(** ** CONFIG *)

(** C6, amended.  When the evaluation of [CONFIG(limit, expr)] returns,
    the local override of the component limit is the one found before
    the call.  (Nothing puts it back when the second argument throws.) *)
Theorem CONFIG_restores_the_override_on_return
  (rt : Runtime) (World : Type) (tokens : list Token)
  (ctx : EvalContext World) (depth : nat) (name : string)
  (st st' : Parser World) (d : Dist)
  (Hname : toUpperCase name = "CONFIG")
  (Hrun : parseFunctionCall rt World tokens ctx depth name st = (Ok d, st')) :
  localMaxComponents st' = localMaxComponents st.
Proof.
  pose proof (proj2 (proj2 (proj2
    (keeps_parser rt World tokens ctx depth (localMaxComponents st))))
    name st eq_refl) as H.
  unfold overrideIs in H.
  now rewrite Hrun in H.
Qed.

Lemma CONFIG_restores_the_override_on_return_witness :
  localMaxComponents
    (snd (parseFunctionCall exampleRuntime unit (tokensOf "(5, 1 + 2)")
            noCells 20 "config"
            (parserAt (Some (ofZ 7)))))
  = localMaxComponents (parserAt (Some (ofZ 7))).
Proof.
  apply (CONFIG_restores_the_override_on_return exampleRuntime unit
           (tokensOf "(5, 1 + 2)") noCells 20
           "config" (parserAt (Some (ofZ 7))) _ [3]).
  - reflexivity.
  - vm_compute. reflexivity.
Defined.

(** C6 as stated fails on the error path: [CONFIG(5, FOO(1))] throws out
    of its second argument and leaves the override at 5, where it was
    unset before. *)
Lemma CONFIG_keeps_the_limit_when_its_argument_throws :
  let st := parserAt None in
  let r := parseFunctionCall exampleRuntime unit (tokensOf "(5, FOO(1))")
             noCells 20 "CONFIG" st in
  fst r = Throw "Unknown function: FOO"
  /\ localMaxComponents (snd r) = Some (ofZ 5)
  /\ localMaxComponents (snd r) <> localMaxComponents st.
Proof. vm_compute. repeat split; discriminate. Qed.

(** ** Scalar arguments *)

(** C10, amended.  [isScalar] accepts exactly the distributions that
    consist of one atom whose probability is within 1e-9 of 1.
    [getScalar] returns the position of that atom and throws "Expected
    scalar value (single atom with p=1)" for every other distribution;
    so do the functions that read an argument through it: CONST, the
    [p] of MIX, the factor of SCALE, the threshold of PROB_GT and the
    limit of CONFIG, whatever expression the limit is parsed from.  MUL
    and DIV test their operands with [isScalar] instead, and one scalar
    operand suffices: MUL scales the other operand by the scalar, DIV
    by a scalar scales the dividend by its inverse (and throws "Division
    by Zero" when the scalar is 0), DIV of a scalar by a distribution
    scales the reciprocal of the distribution; they throw errors of
    their own when neither operand is a scalar. *)
Theorem scalar_arguments
  (rt : Runtime) (World : Type) (ctx : EvalContext World)
  (lm : option number) (h : Heap) (d a b : Dist) :
  (isScalarIn h d = true <->
   exists x p, contents h d = [Atom x p]
               /\ lt (Math_abs (sub p one)) epsilon9 = true)
  /\ (forall x p, contents h d = [Atom x p] ->
                  lt (Math_abs (sub p one)) epsilon9 = true ->
                  getScalar d h = (Ok x, h))
  /\ (isScalarIn h d = false ->
      getScalar d h = (Throw scalar_expected, h)
      /\ callFunction rt World ctx "CONST" lm [d] h
         = (Throw scalar_expected, h)
      /\ callFunction rt World ctx "MIX" lm [d; a; b] h
         = (Throw scalar_expected, h)
      /\ callFunction rt World ctx "SCALE" lm [a; d] h
         = (Throw scalar_expected, h)
      /\ callFunction rt World ctx "PROB_GT" lm [a; d] h
         = (Throw scalar_expected, h))
  /\ (forall (tokens : list Token) (limit : P World Dist)
             (st st1 : Parser World) (limitDist : Dist),
        limit st = (Ok limitDist, st1) ->
        isScalarIn (heap st1) limitDist = false ->
        fst (parseConfig World tokens limit st) = Throw scalar_expected)
  /\ (forall x p,
        contents h a = [Atom x p] ->
        lt (Math_abs (sub p one)) epsilon9 = true ->
        callFunction rt World ctx "MUL" lm [a; b] h
        = (let* d := Dist_scale b x in checkSafety World ctx lm d) h
        /\ callFunction rt World ctx "DIV" lm [b; a] h
           = (if eqn x zero then throw "Division by Zero"
              else let* d := Dist_scale b (div one x) in
                   checkSafety World ctx lm d) h
        /\ (isScalarIn h b = false ->
            callFunction rt World ctx "MUL" lm [b; a] h
            = (let* d := Dist_scale b x in checkSafety World ctx lm d) h
            /\ callFunction rt World ctx "DIV" lm [a; b] h
               = (let* r := Dist_reciprocal b in
                  let* d := Dist_scale r x in
                  checkSafety World ctx lm d) h))
  /\ (isScalarIn h a = false -> isScalarIn h b = false ->
      callFunction rt World ctx "MUL" lm [a; b] h
      = (Throw "MUL currently supports only Scalar * Dist or Dist * Scalar",
         h)
      /\ callFunction rt World ctx "DIV" lm [a; b] h
         = (Throw "DIV of two Distributions not supported", h)).
Proof.
  split; [apply isScalarIn_spec|].
  split; [intros x p; apply getScalar_scalar|].
  split; [|split; [|split]].
  - intros Hd. pose proof (getScalar_not_scalar h d Hd) as Hg.
    split; [exact Hg|].
    split; [|split; [|split]].
    + change (callFunction rt World ctx "CONST" lm [d]) with (fn_CONST [d]).
      unfold fn_CONST, bind. now rewrite Hg.
    + change (callFunction rt World ctx "MIX" lm [d; a; b])
        with (fn_MIX World ctx lm [d; a; b]).
      unfold fn_MIX, bind, isScalar, gets. now rewrite Hd, Hg.
    + change (callFunction rt World ctx "SCALE" lm [a; d])
        with (fn_SCALE World ctx lm [a; d]).
      unfold fn_SCALE, bind. now rewrite Hg.
    + change (callFunction rt World ctx "PROB_GT" lm [a; d])
        with (fn_PROB_GT rt [a; d]).
      unfold fn_PROB_GT, bind. now rewrite Hg.
  - intros tokens limit st st1 limitDist Hlimit Hd.
    unfold parseConfig, bind at 1. rewrite Hlimit.
    unfold bind at 1, onHeap.
    now rewrite (getScalar_not_scalar (heap st1) limitDist Hd).
  - intros x p Hc Hp.
    assert (Ha : isScalarIn h a = true)
      by (apply isScalarIn_spec; now exists x, p).
    pose proof (getScalar_scalar h a x p Hc Hp) as Hg.
    split; [|split].
    + change (callFunction rt World ctx "MUL" lm [a; b])
        with (fn_MUL World ctx lm [a; b]).
      unfold fn_MUL, bind at 1, isScalar, gets. rewrite Ha.
      unfold bind at 1. now rewrite Hg.
    + change (callFunction rt World ctx "DIV" lm [b; a])
        with (fn_DIV World ctx lm [b; a]).
      unfold fn_DIV, bind at 1, isScalar, gets. rewrite Ha.
      unfold bind at 1. rewrite Hg. reflexivity.
    + intros Hb. split.
      * change (callFunction rt World ctx "MUL" lm [b; a])
          with (fn_MUL World ctx lm [b; a]).
        unfold fn_MUL, bind at 1, isScalar, gets. rewrite Hb.
        unfold bind at 1. rewrite Ha. unfold bind at 1. now rewrite Hg.
      * change (callFunction rt World ctx "DIV" lm [a; b])
          with (fn_DIV World ctx lm [a; b]).
        unfold fn_DIV, bind at 1, isScalar, gets. rewrite Hb.
        unfold bind at 1. rewrite Ha. unfold bind at 1. now rewrite Hg.
  - intros Ha Hb. split.
    + change (callFunction rt World ctx "MUL" lm [a; b])
        with (fn_MUL World ctx lm [a; b]).
      unfold fn_MUL, bind, isScalar, gets. now rewrite Ha, Hb.
    + change (callFunction rt World ctx "DIV" lm [a; b])
        with (fn_DIV World ctx lm [a; b]).
      unfold fn_DIV, bind, isScalar, gets. now rewrite Hb, Ha.
Qed.

Lemma scalar_arguments_witness :
  getScalar [0; 1] [Atom (ofZ 1) (decimal 5 1); Atom (ofZ 2) (decimal 5 1)]
  = (Throw scalar_expected,
     [Atom (ofZ 1) (decimal 5 1); Atom (ofZ 2) (decimal 5 1)])
  /\ getScalar [0] [Atom (ofZ 3) one] = (Ok (ofZ 3), [Atom (ofZ 3) one]).
Proof.
  split.
  - apply (scalar_arguments exampleRuntime unit
             noCells None
             [Atom (ofZ 1) (decimal 5 1); Atom (ofZ 2) (decimal 5 1)]
             [0; 1] [] []).
    reflexivity.
  - apply (scalar_arguments exampleRuntime unit
             noCells None
             [Atom (ofZ 3) one] [0] [] []) with (p := one); reflexivity.
Defined.

(** C10 as stated fails for MUL: with two operands that are not scalars
    it throws an error of its own, not "Expected scalar value (single
    atom with p=1)"; and a single operand that is not a scalar raises no
    error at all. *)
Lemma MUL_throws_an_error_of_its_own :
  evaluated (evaluate exampleRuntime "MUL(UNIFORM(0,1), UNIFORM(0,1))"
               noCells ([], tt))
  = Throw "Eval Error: MUL currently supports only Scalar * Dist or Dist * Scalar"
  /\ evaluated (evaluate exampleRuntime "MUL(UNIFORM(0,1), UNIFORM(0,1))"
                  noCells
                  ([], tt))
     <> Throw ("Eval Error: " ++ scalar_expected)%string
  /\ evaluated (evaluate exampleRuntime "MUL(UNIFORM(0,1), 2)"
                  noCells
                  ([], tt))
     = Ok [Bin (ofZ 0) (ofZ 2) one one uniform].
Proof. vm_compute. repeat split; discriminate. Qed.

(** ** The reducer *)

(** C3 fails at this input (a bin over [-10, 10] and an atom at -5, each of
    mass 1/2; target 2; boundary 0).  The bin is split at 0; its upper
    half [0, 10] and the atom, which now follows it in the array, are
    merged, because no boundary lies between the end 10 of the one and the
    start -5 of the other.  The merged bin [-5, 10] has the boundary in its
    interior.  The formula [REDUCE(MIX(0.5, UNIFORM(-10, 10), CONST(-5)), 2)]
    reaches the same call. *)
Theorem reduce_merges_across_a_boundary (rt : Runtime) :
  (exists d h',
      reduce [0; 1]
        {| targetN := ofZ 2; impactCenter := None; impactWidthWeight := None;
           tau := None; boundaries := Some [zero] |}
        [Bin (ofZ (-10)) (ofZ 10) (decimal 5 1) zero uniform;
         Atom (ofZ (-5)) (decimal 5 1)]
      = (Ok d, h')
      /\ contents h' d
         = [Bin (ofZ (-10)) (ofZ 0) (decimal 25 2) (ofZ (-5)) uniform;
            Bin (ofZ (-5)) (ofZ 10) (decimal 75 2) (num (-5 # 3)) uniform]
      /\ existsb (crosses zero) (contents h' d) = true)
  /\ exists cs,
      evaluated (evaluate rt "REDUCE(MIX(0.5, UNIFORM(-10, 10), CONST(-5)), 2)"
                   noCells
                   ([], tt)) = Ok cs
      /\ existsb (crosses zero) cs = true.
Proof.
  split.
  - do 2 eexists. split; [vm_compute; reflexivity|]. split; reflexivity.
  - eexists. split; [vm_compute; reflexivity|reflexivity].
Qed.

(** C8 fails at this input (two atoms at 5, each of mass 1/2; target 1):
    the reducer merges them into the bin [5, 5], of width zero.  The
    formula [CONFIG(1, MIX(0.5, 5, 5))] reaches the same call through the
    safety check. *)
Theorem reduce_makes_a_bin_of_width_zero (rt : Runtime) :
  (exists d h',
      reduce [0; 1]
        {| targetN := ofZ 1; impactCenter := None; impactWidthWeight := None;
           tau := None; boundaries := None |}
        [Atom (ofZ 5) (decimal 5 1); Atom (ofZ 5) (decimal 5 1)]
      = (Ok d, h')
      /\ contents h' d = [Bin (ofZ 5) (ofZ 5) one (ofZ 5) uniform]
      /\ forallb wellOrdered (contents h' d) = false)
  /\ evaluated (evaluate rt "CONFIG(1, MIX(0.5, 5, 5))"
                  noCells
                  ([], tt))
     = Ok [Bin (ofZ 5) (ofZ 5) one (ofZ 5) uniform].
Proof.
  split.
  - do 2 eexists. split; [vm_compute; reflexivity|]. split; reflexivity.
  - vm_compute. reflexivity.
Qed.

(** ** GEOM_SUM *)

(** C7, amended.  The mean of
    [ADD(CONST(1500), GEOM_SUM(CONST(1500), 0.81))] lies in
    [7800, 8000]. *)
Theorem pachinko_mean (rt : Runtime) (World : Type)
  (gv : string -> M (Heap * World) Dist) (w : World) :
  exists cs,
    evaluated (evaluate rt "ADD(CONST(1500), GEOM_SUM(CONST(1500), 0.81))"
                 (defaultContext gv) ([], w)) = Ok cs
    /\ le (ofZ 7800) (meanOf cs) = true
    /\ le (meanOf cs) (ofZ 8000) = true.
Proof.
  eexists. split; [vm_compute; reflexivity|].
  split; vm_compute; reflexivity.
Qed.

(** C7 as stated fails: the mean of
    [ADD(CONST(1), GEOM_SUM(CONST(1500), 0.81))] is below 6400. *)
Lemma pachinko_mean_with_CONST_1_is_below_7800 :
  exists cs,
    evaluated (evaluate exampleRuntime
                 "ADD(CONST(1), GEOM_SUM(CONST(1500), 0.81))"
                 noCells
                 ([], tt)) = Ok cs
    /\ lt (meanOf cs) (ofZ 6400) = true
    /\ le (ofZ 7800) (meanOf cs) = false.
Proof.
  eexists. split; [vm_compute; reflexivity|].
  split; vm_compute; reflexivity.
Qed.

(** ** The graph *)

(** C9 fails at this sequence of inputs.  [A1] holds a bin of mass 1/2,
    [A2] refers to it, and [A1] is then made to refer to [A2]: both cells
    are circular, and [A1] still holds the bin of mass 1/2.  The value of
    [A1] is the very distribution that [=REDUCE(A1, 5)] hands to the
    reducer, which normalizes its argument in place: after that input the
    bin held by the circular cell [A1] has mass 1. *)
Theorem reduce_rewrites_the_value_of_a_circular_cell (rt : Runtime) :
  exists g1 g2,
    (run setCellInput rt "A1" "=BIN(0, 1, 0.5)" in
     run setCellInput rt "A2" "=A1" in
     setCellInput rt "A1" "=A2") newGraph = (Ok tt, g1)
    /\ setCellInput rt "B1" "=REDUCE(A1, 5)" g1 = (Ok tt, g2)
    /\ cellView g1 "A1"
       = Some (circular,
               [Bin (ofZ 0) (ofZ 1) (decimal 5 1) (decimal 5 1) uniform])
    /\ cellView g2 "A1"
       = Some (circular, [Bin (ofZ 0) (ofZ 1) one (decimal 5 1) uniform])
    /\ cellView g2 "B1"
       = Some (ok, [Bin (ofZ 0) (ofZ 1) one (decimal 5 1) uniform]).
Proof.
  do 2 eexists. split; [vm_compute; reflexivity|].
  split; [vm_compute; reflexivity|].
  repeat split; vm_compute; reflexivity.
Qed.

Lemma assoc_updateCell_same (cs : Cells) (cellId : string) (f : Cell -> Cell) :
  assoc cellId (updateCell cs cellId f) = option_map f (assoc cellId cs).
Proof.
  induction cs as [|[k c] cs IH]; cbn [updateCell assoc]; [reflexivity|].
  destruct (String.eqb cellId k) eqn:E; cbn [assoc]; rewrite E; auto.
Qed.

Lemma assoc_updateCell_other (cs : Cells) (cellId other : string)
  (f : Cell -> Cell) :
  String.eqb other cellId = false ->
  assoc other (updateCell cs cellId f) = assoc other cs.
Proof.
  intros Hne.
  induction cs as [|[k c] cs IH]; cbn [updateCell assoc]; [reflexivity|].
  destruct (String.eqb cellId k) eqn:E; cbn [assoc].
  - apply String.eqb_eq in E. subst k. now rewrite Hne.
  - now rewrite IH.
Qed.

Lemma getCellIn_found (cs : Cells) (cellId : string) (c : Cell) :
  assoc cellId cs = Some c -> getCellIn cs cellId = (c, cs).
Proof. intros H. unfold getCellIn. now rewrite H. Qed.

(** C4, amended.  A cell that is not circular and whose raw input does
    not start with [=] is evaluated to the status [ok], whatever the
    input is, and no error message is recorded: its value is one atom of
    mass 1 at a number, or the empty distribution.  When the input is
    ASCII text, the value is the atom at the number the trimmed input
    denotes, and the empty distribution when the trimmed input is empty
    or denotes no number. *)
Theorem evaluateCell_of_a_literal_is_ok
  (rt : Runtime) (g : Graph) (cellId : string) (c : Cell)
  (Hcell : assoc cellId (cells g) = Some c)
  (Hstatus : status c <> circular)
  (Hinput : startsWith (rawInput c) "=" = false) :
  exists g' c',
    evaluateCell rt cellId g = (Ok tt, g')
    /\ assoc cellId (cells g') = Some c'
    /\ status c' = ok
    /\ cell_error c' = cell_error c
    /\ (contents (objects g') (cell_value c') = []
        \/ exists n,
             isNaN n = false
             /\ contents (objects g') (cell_value c') = [Atom n one])
    /\ (asciiText (rawInput c) = true ->
        contents (objects g') (cell_value c')
        = if String.eqb (trim (rawInput c)) EmptyString
             || isNaN (JS_Number (trim (rawInput c)))
          then []
          else [Atom (JS_Number (trim (rawInput c))) one]).
Proof.
  destruct g as [cs dirty maxC hp]. cbn [cells] in Hcell.
  unfold evaluateCell, bind at 1. unfold getCell. cbn [cells].
  rewrite (getCellIn_found cs cellId c Hcell).
  assert (Hnc : CellStatus_eqb (status c) circular = false)
    by (destruct (status c); try reflexivity; now elim Hstatus).
  rewrite Hnc, Hinput. unfold withCells.
  cbn [cells dirtyTrack config_maxComponents objects].
  unfold try_catch.
  destruct (String.eqb (trim (rawInput c)) EmptyString) eqn:Hempty.
  - cbn. do 2 eexists. split; [reflexivity|].
    cbn [cells objects]. rewrite !assoc_updateCell_same, Hcell. cbn.
    repeat split; try reflexivity. now left.
  - destruct (isNaN (JS_Number (trim (rawInput c)))) eqn:Hnan.
    + cbn. do 2 eexists. split; [reflexivity|].
      cbn [cells objects]. rewrite !assoc_updateCell_same, Hcell. cbn.
      repeat split; try reflexivity. now left.
    + pose proof (contents_fresh
                    [Atom (JS_Number (trim (rawInput c))) one] hp)
        as Hnew.
      cbn. do 2 eexists. split; [reflexivity|].
      cbn [cells objects]. rewrite !assoc_updateCell_same, Hcell. cbn.
      split; [reflexivity|]. split; [reflexivity|]. split; [reflexivity|].
      split; [|intros _; exact Hnew].
      right. exists (JS_Number (trim (rawInput c))). now split.
Qed.

Lemma evaluateCell_of_a_literal_is_ok_witness :
  exists g' c',
    evaluateCell exampleRuntime "A1" textGraph = (Ok tt, g')
    /\ assoc "A1" (cells g') = Some c'
    /\ status c' = ok
    /\ cell_error c' = None
    /\ (contents (objects g') (cell_value c') = []
        \/ exists n,
             isNaN n = false
             /\ contents (objects g') (cell_value c') = [Atom n one])
    /\ (asciiText "abc" = true ->
        contents (objects g') (cell_value c') = []).
Proof.
  apply (evaluateCell_of_a_literal_is_ok exampleRuntime textGraph "A1"
           (set_status evaluating (set_rawInput "abc" (newCell "A1")))).
  - reflexivity.
  - discriminate.
  - reflexivity.
Defined.

(** C4 as stated fails: the input [abc] does not start with [=], is not
    empty and denotes no number, and yet the cell that holds it is
    evaluated to the status [ok], with the empty distribution as its
    value and without an error message. *)
Lemma text_is_evaluated_to_ok :
  startsWith "abc" "=" = false
  /\ String.eqb (trim "abc") EmptyString = false
  /\ isNaN (JS_Number (trim "abc")) = true
  /\ exists g,
      setCellInput exampleRuntime "A1" "abc" newGraph = (Ok tt, g)
      /\ option_map status (assoc "A1" (cells g)) = Some ok
      /\ option_map cell_error (assoc "A1" (cells g)) = Some None
      /\ cellView g "A1" = Some (ok, []).
Proof.
  repeat split; try reflexivity.
  eexists. split; [vm_compute; reflexivity|]. repeat split; reflexivity.
Qed.

(** ** A circular cell stays circular *)

Lemma holds_try_catch {S A : Type} (I E : S -> Prop) (body : M S A)
  (handler : string -> M S A) :
  holds I I body -> (forall e, holds I E (handler e)) ->
  (forall s, I s -> E s) ->
  holds I E (try_catch body handler).
Proof.
  intros Hbody Hhandler I_E s Hs. unfold try_catch.
  specialize (Hbody s Hs).
  destruct (body s) as [[a|e|] s']; auto. now apply Hhandler.
Qed.

Lemma evaluate_behind (rt : Runtime) (World : Type) (expr : string)
  (ctx : EvalContext World) (J : World -> Prop) :
  (forall id h w, J w -> J (snd (snd (getValue ctx id (h, w))))) ->
  forall h w, J w -> J (snd (snd (evaluate rt expr ctx (h, w)))).
Proof.
  intros HJ h w Hw. unfold evaluate.
  destruct (String.length expr =? 0)%nat; [exact Hw|].
  destruct (tokenize expr) as [tokens| |]; try exact Hw.
  pose proof (proj1 (behind_parser rt World tokens ctx J HJ
                       (4 * List.length tokens + 4))
                {| pos := 0; localMaxComponents := None;
                   heap := h; world := w |} Hw) as H.
  destruct (parseExpression _ _ _ _ _ _) as [[| |] st']; exact H.
Qed.

Section Circular.

Variable rt : Runtime.
Variable cellId : string.

Let I (g : Graph) : Prop := isCircular cellId (cells g).

Lemma isCircular_getCellIn (cs : Cells) (other : string) :
  isCircular cellId cs -> isCircular cellId (snd (getCellIn cs other)).
Proof.
  intros (c & Hc & Hs). unfold getCellIn.
  destruct (assoc other cs); cbn [snd]; [now exists c|].
  exists c. split; [|exact Hs].
  clear Hs. induction cs as [|[k c'] cs IH]; [discriminate|].
  cbn [assoc app] in *. destruct (String.eqb cellId k); auto.
Qed.

Lemma isCircular_updateCell (cs : Cells) (other : string) (f : Cell -> Cell) :
  String.eqb cellId other = false
  \/ (forall c, status c = circular -> status (f c) = circular) ->
  isCircular cellId cs -> isCircular cellId (updateCell cs other f).
Proof.
  intros Hf (c & Hc & Hs).
  destruct (String.eqb cellId other) eqn:Heq.
  - apply String.eqb_eq in Heq. subst other.
    destruct Hf as [Hf|Hf]; [discriminate|].
    exists (f c). rewrite assoc_updateCell_same, Hc. split; auto.
  - exists c. now rewrite assoc_updateCell_other.
Qed.

Lemma preserves_getCell (other : string) : preserves I (getCell other).
Proof.
  intros g Hg. unfold getCell.
  pose proof (isCircular_getCellIn (cells g) other Hg) as H.
  destruct (getCellIn (cells g) other) as [c cs]. exact H.
Qed.

Lemma getCell_reads (other : string) (g : Graph) :
  I g ->
  exists c g',
    getCell other g = (Ok c, g') /\ I g' /\ assoc other (cells g') = Some c.
Proof.
  intros Hg. unfold getCell, getCellIn.
  destruct (assoc other (cells g)) as [c|] eqn:Hc.
  - exists c. eexists. split; [reflexivity|]. split; [exact Hg|exact Hc].
  - exists (newCell other). eexists. split; [reflexivity|].
    split.
    + pose proof (isCircular_getCellIn (cells g) other Hg) as H.
      unfold getCellIn in H. now rewrite Hc in H.
    + cbn [withCells cells]. clear Hg.
      induction (cells g) as [|[k c'] cs IH]; cbn [assoc app] in *.
      * now rewrite String.eqb_refl.
      * destruct (String.eqb other k); [discriminate|auto].
Qed.

Lemma preserves_assign (other : string) (f : Cell -> Cell) :
  String.eqb cellId other = false
  \/ (forall c, status c = circular -> status (f c) = circular) ->
  preserves I (assign other f).
Proof.
  intros Hf g Hg. now apply isCircular_updateCell.
Qed.

Lemma preserves_markDirty (other : string) : preserves I (markDirty other).
Proof. now intros g Hg. Qed.

Lemma preserves_evaluateExpression (expr : string) :
  preserves I (evaluateExpression rt expr).
Proof.
  intros g Hg. unfold evaluateExpression.
  pose proof (evaluate_behind rt Cells expr
                (graphContext (config_maxComponents g))
                (isCircular cellId)) as H.
  specialize (H (fun id h w Hw => ltac:(
    cbn [graphContext getValue];
    pose proof (isCircular_getCellIn w id Hw) as H';
    destruct (getCellIn w id); exact H')) (objects g) (cells g) Hg).
  destruct (evaluate _ _ _ _) as [[| |] [h cs]]; exact H.
Qed.

Lemma preserves_newDistIn (items : list Item) : preserves I (newDistIn items).
Proof.
  intros g Hg. unfold newDistIn.
  destruct (Dist_of items (objects g)) as [[| |] h]; exact Hg.
Qed.

Lemma preserves_evaluateCell (other : string) :
  preserves I (evaluateCell rt other).
Proof.
  destruct (String.eqb cellId other) eqn:Heq.
  - intros g Hg. apply String.eqb_eq in Heq. subst other.
    destruct (getCell_reads cellId g Hg) as (c & g' & Hget & Hg' & Hc).
    unfold evaluateCell, bind. rewrite Hget.
    destruct Hg' as (c' & Hc' & Hs).
    assert (c = c') by congruence. subst c'.
    rewrite Hs. cbn. now exists c.
  - unfold evaluateCell, preserves.
    repeat first
      [ holds_step
      | apply preserves_getCell
      | apply preserves_markDirty
      | apply preserves_evaluateExpression
      | apply preserves_newDistIn
      | apply preserves_assign; left; exact Heq
      | apply holds_try_catch
      | match goal with |- forall _ : string, _ => intros ? end
      | solve [auto] ].
Qed.

(** The marking of [buildOrder], for a cell that has just been read. *)
Lemma mark_evaluating (curr : string) (cell : Cell) (g : Graph) :
  I g -> assoc curr (cells g) = Some cell ->
  exists g',
    (if negb (CellStatus_eqb (status cell) circular)
     then run assign curr (set_status evaluating) in markDirty curr
     else ret tt) g = (Ok tt, g')
    /\ I g'.
Proof.
  intros Hg Hcell.
  destruct (CellStatus_eqb (status cell) circular) eqn:Hs; cbn [negb].
  - exists g. now split.
  - eexists. split; [reflexivity|].
    cbn. apply isCircular_updateCell; [|exact Hg].
    left. destruct (String.eqb cellId curr) eqn:Heq; [|reflexivity].
    apply String.eqb_eq in Heq. subst curr.
    destruct Hg as (c & Hc & Hcirc).
    assert (c = cell) by congruence. subst c.
    rewrite Hcirc in Hs. discriminate.
Qed.

Lemma preserves_buildOrderLoop (rounds : nat) :
  forall queue dirty, preserves I (buildOrderLoop rounds queue dirty).
Proof.
  induction rounds as [|rounds IH]; intros [|curr queue] dirty;
    cbn [buildOrderLoop]; try (intros g Hg; exact Hg).
  destruct (set_has dirty curr); [apply IH|].
  intros g Hg. unfold bind at 1.
  destruct (getCell_reads curr g Hg) as (cell & g1 & Hget & Hg1 & Hcell).
  rewrite Hget. unfold bind at 1.
  destruct (mark_evaluating curr cell g1 Hg1 Hcell) as (g2 & Hmark & Hg2).
  rewrite Hmark. apply IH. exact Hg2.
Qed.

Lemma preserves_buildOrder (startId : string) :
  preserves I (buildOrder startId).
Proof.
  unfold buildOrder.
  apply holds_bind; [apply holds_gets|intros bound].
  apply preserves_buildOrderLoop.
Qed.

Lemma preserves_buildInDegree (dirtySet : list string) :
  preserves I (buildInDegree dirtySet).
Proof.
  unfold buildInDegree, preserves.
  repeat first [holds_step | apply preserves_getCell | solve [auto]].
Qed.

Lemma preserves_executeLoop (rounds : nat) :
  forall dirtySet execQueue inDegree processedCount,
    preserves I
      (executeLoop rt rounds dirtySet execQueue inDegree processedCount).
Proof.
  induction rounds as [|rounds IH];
    intros dirtySet [|currId execQueue] inDegree processedCount;
    cbn [executeLoop]; try (intros g Hg; exact Hg).
  apply holds_bind; [apply preserves_evaluateCell|intros _].
  apply holds_bind; [apply preserves_getCell|intros cell].
  destruct (fold_left _ _ _) as [inDegree' pushed]. apply IH.
Qed.

Lemma preserves_recalculate (startId : string) :
  preserves I (recalculate rt startId).
Proof.
  unfold recalculate.
  apply holds_bind; [apply preserves_buildOrder|intros dirtySet].
  apply holds_bind; [apply preserves_buildInDegree|intros inDegree].
  apply holds_bind; [apply preserves_executeLoop|intros [inDegree' n]].
  unfold preserves.
  repeat first
    [ holds_step
    | apply preserves_getCell
    | apply preserves_markDirty
    | apply preserves_assign; right; intros ? ?; reflexivity
    | solve [auto] ].
Qed.

Lemma preserves_updateDependencies (other : string) (newDeps : list string) :
  preserves I (updateDependencies other newDeps).
Proof.
  unfold updateDependencies, preserves.
  repeat first
    [ holds_step
    | apply preserves_getCell
    | apply preserves_assign; right; intros ? ?; assumption
    | solve [auto] ].
Qed.

Lemma preserves_setCellInput (other input : string) :
  preserves I (setCellInput rt other input).
Proof.
  unfold setCellInput, preserves.
  repeat first
    [ holds_step
    | apply preserves_getCell
    | apply preserves_markDirty
    | apply preserves_updateDependencies
    | apply preserves_recalculate
    | apply preserves_assign; right; intros ? ?; assumption
    | solve [auto] ].
Qed.

(** X23.  Once a cell is circular it is circular after every sequence of
    inputs, to this cell or to others, whether the recalculations return
    or not. *)
Theorem circular_is_permanent (inputs : list (string * string)) (g : Graph) :
  isCircular cellId (cells g) ->
  isCircular cellId
    (cells (snd (forEach inputs
                   (fun '(other, input) => setCellInput rt other input) g))).
Proof.
  intros Hg.
  assert (H : preserves I
                (forEach inputs
                   (fun '(other, input) => setCellInput rt other input))).
  { apply holds_forEach. intros [other input].
    apply preserves_setCellInput. }
  specialize (H g Hg).
  destruct (forEach _ _ g) as [[| |] g']; exact H.
Qed.

End Circular.

(** * Further properties of the code *)

Lemma span_spec (p : ascii -> bool) (s : string) :
  s = (fst (span p s) ++ snd (span p s))%string
  /\ forallb p (list_ascii_of_string (fst (span p s))) = true
  /\ match snd (span p s) with
     | String ch _ => p ch = false
     | EmptyString => True
     end
  /\ String.length (snd (span p s)) <= String.length s.
Proof.
  induction s as [|ch s IH]; cbn [span].
  - repeat split; auto.
  - destruct (p ch) eqn:Hp.
    + destruct (span p s) as [a b]. cbn [fst snd] in *.
      destruct IH as (H1 & H2 & H3 & H4).
      repeat split.
      * cbn. now f_equal.
      * cbn. now rewrite Hp.
      * exact H3.
      * cbn. lia.
    + cbn [fst snd]. repeat split; auto.
Qed.

Lemma span_head (p : ascii -> bool) (ch : ascii) (s : string) :
  p ch = true ->
  span p (String ch s) = (String ch (fst (span p s)), snd (span p s)).
Proof. intros H. cbn [span]. rewrite H. now destruct (span p s). Qed.

Lemma list_ascii_of_string_app (a b : string) :
  list_ascii_of_string (a ++ b)
  = list_ascii_of_string a ++ list_ascii_of_string b.
Proof. induction a as [|ch a IH]; cbn; [reflexivity|]. now rewrite IH. Qed.

Lemma string_of_list_ascii_app (a b : list ascii) :
  string_of_list_ascii (a ++ b)
  = (string_of_list_ascii a ++ string_of_list_ascii b)%string.
Proof. induction a as [|ch a IH]; cbn; [reflexivity|]. now rewrite IH. Qed.

Lemma find_skip {A : Type} (bad : A -> bool) (a b : list A) :
  forallb (fun x => negb (bad x)) a = true -> find bad (a ++ b) = find bad b.
Proof.
  induction a as [|x a IH]; cbn; [reflexivity|].
  intros H. apply andb_prop in H as [H1 H2].
  destruct (bad x); [discriminate|auto].
Qed.

Lemma filter_keep {A : Type} (p : A -> bool) (a : list A) :
  forallb p a = true -> List.filter p a = a.
Proof.
  induction a as [|x a IH]; cbn; [reflexivity|].
  intros H. apply andb_prop in H as [H1 H2]. rewrite H1. now f_equal; auto.
Qed.

Lemma forallb_impl {A : Type} (p q : A -> bool) (l : list A) :
  (forall x, p x = true -> q x = true) ->
  forallb p l = true -> forallb q l = true.
Proof.
  intros Hpq. induction l as [|x l IH]; cbn; [reflexivity|].
  intros H. apply andb_prop in H as [H1 H2].
  now rewrite (Hpq x H1), IH.
Qed.

Ltac by_cases_on_char ch :=
  destruct ch as [[] [] [] [] [] [] [] []]; vm_compute; intros;
  try reflexivity; try discriminate; try congruence.

Lemma digit_not_space (ch : ascii) :
  isDigit ch || isDot ch = true -> isSpace ch = false.
Proof. by_cases_on_char ch. Qed.

Lemma word_not_space (ch : ascii) : isWordChar ch = true -> isSpace ch = false.
Proof. by_cases_on_char ch. Qed.

Lemma punctuation_not_space (ch : ascii) (ty : TokenType) :
  punctuation ch = Some ty -> isSpace ch = false.
Proof. by_cases_on_char ch. Qed.

Lemma letter_is_word (ch : ascii) :
  isLetter ch || isUnderscore ch = true -> isWordChar ch = true.
Proof. by_cases_on_char ch. Qed.

Lemma word_is_tokenChar (ch : ascii) :
  isWordChar ch = true -> tokenChar ch = true.
Proof. by_cases_on_char ch. Qed.

Lemma digit_is_tokenChar (ch : ascii) :
  isDigit ch || isDot ch = true -> tokenChar ch = true.
Proof. by_cases_on_char ch. Qed.

Lemma punctuation_type (ch : ascii) (ty : TokenType) :
  punctuation ch = Some ty ->
  tokenShape {| type := ty; value := String ch EmptyString |} = true.
Proof.
  by_cases_on_char ch;
    match goal with H : Some _ = Some _ |- _ => injection H as <- end;
    reflexivity.
Qed.

Lemma concat_cons (s : string) (l : list string) :
  String.concat EmptyString (s :: l)
  = (s ++ String.concat EmptyString l)%string.
Proof.
  destruct l as [|x l]; cbn [String.concat].
  - induction s; cbn; [reflexivity|now f_equal].
  - reflexivity.
Qed.

Lemma string_list_ascii (s : string) :
  string_of_list_ascii (list_ascii_of_string s) = s.
Proof. apply string_of_list_ascii_of_string. Qed.

Lemma tokenizeFrom_spec (rounds : nat) :
  forall input, String.length input <= rounds ->
    match find (fun ch => negb (tokenChar ch)) (list_ascii_of_string input) with
    | Some ch =>
        tokenizeFrom rounds input
        = Throw ("Unknown character: " ++ String ch EmptyString)
    | None =>
        exists tokens,
          tokenizeFrom rounds input = Ok tokens
          /\ tokenValues tokens = withoutSpaces input
          /\ forallb tokenShape tokens = true
    end.
Proof.
  induction rounds as [|rounds IH]; intros [|char rest] Hlen;
    try (cbn in Hlen; lia).
  - cbn. exists []. repeat split.
  - cbn. exists []. repeat split.
  - cbn in Hlen. cbn [tokenizeFrom].
    destruct (isSpace char) eqn:Hspace.
    { assert (Ht : tokenChar char = true)
        by (unfold tokenChar; now rewrite Hspace).
      cbn [list_ascii_of_string find]. rewrite Ht. cbn [negb].
      specialize (IH rest ltac:(lia)).
      destruct (find _ (list_ascii_of_string rest)) as [bad|].
      - now rewrite IH.
      - destruct IH as (tokens & -> & Hv & Hs). exists tokens.
        repeat split; auto.
        rewrite Hv. unfold withoutSpaces.
        cbn [list_ascii_of_string List.filter].
        now rewrite Hspace. }
    destruct (isDigit char || isDot char) eqn:Hdigit.
    { rewrite (span_head _ char rest Hdigit).
      pose proof (span_spec (fun ch => isDigit ch || isDot ch) rest)
        as (Hsplit & Hall & _ & Hshort).
      set (val := fst (span (fun ch => isDigit ch || isDot ch) rest)) in *.
      set (input' := snd (span (fun ch => isDigit ch || isDot ch) rest)) in *.
      specialize (IH input' ltac:(lia)).
      assert (Hfind : find (fun ch => negb (tokenChar ch))
                        (list_ascii_of_string (String char rest))
                      = find (fun ch => negb (tokenChar ch))
                          (list_ascii_of_string input')).
      { rewrite Hsplit at 1.
        change (String char (val ++ input'))
          with (String char val ++ input')%string.
        rewrite list_ascii_of_string_app. apply find_skip.
        cbn [list_ascii_of_string forallb].
        rewrite (digit_is_tokenChar char Hdigit). cbn.
        eapply forallb_impl; [|exact Hall].
        intros x Hx. cbn beta in Hx. now rewrite (digit_is_tokenChar x Hx). }
      rewrite Hfind.
      destruct (find _ (list_ascii_of_string input')) as [bad|].
      - now rewrite IH.
      - destruct IH as (tokens & -> & Hv & Hs). eexists.
        split; [reflexivity|]. split.
        + unfold tokenValues. cbn [map value]. rewrite concat_cons.
          fold (tokenValues tokens). rewrite Hv.
          unfold withoutSpaces. rewrite Hsplit at 1.
          change (String char (val ++ input'))
            with (String char val ++ input')%string.
          rewrite list_ascii_of_string_app, List.filter_app,
            string_of_list_ascii_app.
          f_equal. rewrite filter_keep; [symmetry; apply string_list_ascii|].
          cbn [list_ascii_of_string forallb].
          rewrite (digit_not_space char Hdigit). cbn.
          eapply forallb_impl; [|exact Hall].
          intros x Hx. cbn beta in Hx. now rewrite (digit_not_space x Hx).
        + cbn [forallb]. rewrite Hs, andb_true_r.
          unfold tokenShape. cbn [type value forallb].
          now rewrite Hdigit, Hall. }
    destruct (isLetter char || isUnderscore char) eqn:Hletter.
    { pose proof (letter_is_word char Hletter) as Hword.
      rewrite (span_head _ char rest Hword).
      pose proof (span_spec isWordChar rest)
        as (Hsplit & Hall & _ & Hshort).
      set (val := fst (span isWordChar rest)) in *.
      set (input' := snd (span isWordChar rest)) in *.
      specialize (IH input' ltac:(lia)).
      assert (Hfind : find (fun ch => negb (tokenChar ch))
                        (list_ascii_of_string (String char rest))
                      = find (fun ch => negb (tokenChar ch))
                          (list_ascii_of_string input')).
      { rewrite Hsplit at 1.
        change (String char (val ++ input'))
          with (String char val ++ input')%string.
        rewrite list_ascii_of_string_app. apply find_skip.
        cbn [list_ascii_of_string forallb].
        rewrite (word_is_tokenChar char Hword). cbn.
        eapply forallb_impl; [|exact Hall].
        intros x Hx. now rewrite (word_is_tokenChar x Hx). }
      rewrite Hfind.
      destruct (find _ (list_ascii_of_string input')) as [bad|].
      - now rewrite IH.
      - destruct IH as (tokens & -> & Hv & Hs). eexists.
        split; [reflexivity|]. split.
        + unfold tokenValues. cbn [map value]. rewrite concat_cons.
          fold (tokenValues tokens). rewrite Hv.
          unfold withoutSpaces. rewrite Hsplit at 1.
          change (String char (val ++ input'))
            with (String char val ++ input')%string.
          rewrite list_ascii_of_string_app, List.filter_app,
            string_of_list_ascii_app.
          f_equal. rewrite filter_keep; [symmetry; apply string_list_ascii|].
          cbn [list_ascii_of_string forallb].
          rewrite (word_not_space char Hword). cbn.
          eapply forallb_impl; [|exact Hall].
          intros x Hx. now rewrite (word_not_space x Hx).
        + cbn [forallb]. rewrite Hs, andb_true_r.
          unfold tokenShape. cbn [type value].
          now rewrite Hletter, Hall. }
    destruct (punctuation char) as [ty|] eqn:Hpunct.
    { assert (Ht : tokenChar char = true)
        by (unfold tokenChar; rewrite Hpunct; now rewrite !orb_true_r).
      cbn [list_ascii_of_string find]. rewrite Ht. cbn [negb].
      specialize (IH rest ltac:(lia)).
      destruct (find _ (list_ascii_of_string rest)) as [bad|].
      - now rewrite IH.
      - destruct IH as (tokens & -> & Hv & Hs). eexists.
        split; [reflexivity|]. split.
        + unfold tokenValues. cbn [map value]. rewrite concat_cons.
          fold (tokenValues tokens). rewrite Hv.
          unfold withoutSpaces. cbn [list_ascii_of_string List.filter].
          now rewrite (punctuation_not_space char ty Hpunct).
        + cbn [forallb]. now rewrite (punctuation_type char ty Hpunct). }
    assert (Ht : tokenChar char = false).
    { unfold tokenChar. rewrite Hspace, Hpunct.
      destruct (isDigit char), (isDot char), (isLetter char),
        (isUnderscore char); cbn in *; congruence. }
    cbn [list_ascii_of_string find]. rewrite Ht. reflexivity.
Qed.

(** X1.  On ASCII input the tokenizer throws exactly when the input holds
    a character that is neither white space, a digit, a dot, a letter, an
    underscore nor one of the eight punctuation marks; the message names
    the first such character of the input.  Every other input is split
    into tokens. *)
Theorem tokenize_stops_at_the_first_unknown_character (input : string)
  (Hascii : asciiText input = true) :
  match find (fun ch => negb (tokenChar ch)) (list_ascii_of_string input) with
  | Some ch =>
      tokenize input = Throw ("Unknown character: " ++ String ch EmptyString)
  | None => exists tokens, tokenize input = Ok tokens
  end.
Proof.
  pose proof (tokenizeFrom_spec (String.length input) input (le_n _)) as H.
  fold (tokenize input) in H.
  destruct (find _ _); [exact H|].
  destruct H as (tokens & H & _). now exists tokens.
Qed.

Lemma tokenize_stops_at_the_first_unknown_character_witness :
  tokenize "ADD(A1, 2) # 3 $" = Throw "Unknown character: #"
  /\ exists tokens, tokenize "ADD(A1, 2.5)" = Ok tokens.
Proof.
  split.
  - exact (tokenize_stops_at_the_first_unknown_character
             "ADD(A1, 2) # 3 $" eq_refl).
  - exact (tokenize_stops_at_the_first_unknown_character
             "ADD(A1, 2.5)" eq_refl).
Defined.

(** X2.  The tokens of an ASCII input spell the input: their values, one
    after the other, are the input without its white space.  Each token
    is a non-empty run of digits and dots (a number), a letter or
    underscore followed by letters, digits and underscores (an
    identifier), or one punctuation mark under its own type. *)
Theorem tokens_spell_the_input (input : string) (tokens : list Token)
  (Hascii : asciiText input = true)
  (Htokens : tokenize input = Ok tokens) :
  tokenValues tokens = withoutSpaces input
  /\ forallb tokenShape tokens = true.
Proof.
  pose proof (tokenizeFrom_spec (String.length input) input (le_n _)) as H.
  fold (tokenize input) in H. rewrite Htokens in H.
  destruct (find _ _); [discriminate|].
  destruct H as (tokens' & H & Hv & Hs).
  injection H as <-. now split.
Qed.

Lemma tokens_spell_the_input_witness :
  tokenValues [ {| type := ID; value := "ADD" |};
                {| type := LPAREN; value := "(" |};
                {| type := ID; value := "A1" |};
                {| type := COMMA; value := "," |};
                {| type := NUMBER; value := "2.5" |};
                {| type := RPAREN; value := ")" |} ]
  = withoutSpaces "ADD(A1, 2.5)"
  /\ forallb tokenShape
       [ {| type := ID; value := "ADD" |};
         {| type := LPAREN; value := "(" |};
         {| type := ID; value := "A1" |};
         {| type := COMMA; value := "," |};
         {| type := NUMBER; value := "2.5" |};
         {| type := RPAREN; value := ")" |} ] = true.
Proof.
  apply (tokens_spell_the_input "ADD(A1, 2.5)"); reflexivity.
Defined.

Lemma colToIndex_lettersValue (col : string) :
  colToIndex col = (lettersValue (list_ascii_of_string col) 0 - 1)%Z.
Proof. reflexivity. Qed.

Lemma lettersValue_app (a b : list ascii) (acc : Z) :
  lettersValue (a ++ b) acc = lettersValue b (lettersValue a acc).
Proof. unfold lettersValue. apply fold_left_app. Qed.

Lemma list_ascii_of_string_app' (a b : string) :
  list_ascii_of_string (a ++ b)
  = list_ascii_of_string a ++ list_ascii_of_string b.
Proof. induction a as [|ch a IH]; cbn; [reflexivity|]. now rewrite IH. Qed.

Lemma string_app_assoc (a b c : string) :
  ((a ++ b) ++ c)%string = (a ++ (b ++ c))%string.
Proof. induction a as [|ch a IH]; cbn; [reflexivity|]. now rewrite IH. Qed.

Lemma indexToCol_aux_app (rounds : nat) :
  forall n str,
    indexToCol_aux rounds n str
    = (indexToCol_aux rounds n EmptyString ++ str)%string.
Proof.
  induction rounds as [|rounds IH]; intros n str; cbn [indexToCol_aux].
  - reflexivity.
  - destruct (0 <=? n)%Z; [|reflexivity].
    rewrite IH. rewrite (IH _ (String _ EmptyString)).
    now rewrite string_app_assoc.
Qed.

Lemma letter_code (k : Z) :
  (0 <= k < 26)%Z ->
  Z.of_nat (nat_of_ascii (ascii_of_nat (65 + Z.to_nat k))) = (65 + k)%Z.
Proof.
  intros Hk. rewrite nat_ascii_embedding by lia. lia.
Qed.

Lemma log2_step (n : Z) :
  (26 <= n)%Z -> (Z.log2 (n / 26 - 1 + 1) < Z.log2 (n + 1))%Z.
Proof.
  intros Hn. replace (n / 26 - 1 + 1)%Z with (n / 26)%Z by lia.
  assert (H1 : (1 <= n / 26)%Z) by (apply Z.div_le_lower_bound; lia).
  assert (H2 : (2 * (n / 26) <= n + 1)%Z).
  { pose proof (Z.mul_div_le n 26 ltac:(lia)). lia. }
  pose proof (Z.log2_double (n / 26) ltac:(lia)) as H3.
  pose proof (Z.log2_le_mono _ _ H2). lia.
Qed.

Lemma indexToCol_aux_value (rounds : nat) :
  forall n,
    (0 <= n)%Z -> (Z.log2 (n + 1) < Z.of_nat rounds)%Z ->
    lettersValue (list_ascii_of_string (indexToCol_aux rounds n EmptyString)) 0
    = (n + 1)%Z.
Proof.
  induction rounds as [|rounds IH]; intros n Hn Hfuel.
  - pose proof (Z.log2_nonneg (n + 1)). lia.
  - cbn [indexToCol_aux].
    destruct (0 <=? n)%Z eqn:E; [|apply Z.leb_gt in E; lia].
    rewrite indexToCol_aux_app, list_ascii_of_string_app', lettersValue_app.
    cbn [list_ascii_of_string lettersValue fold_left].
    pose proof (Z.mod_pos_bound n 26 ltac:(lia)) as Hmod.
    rewrite letter_code by lia.
    destruct (Z.lt_ge_cases n 26) as [Hsmall|Hbig].
    + assert (Hq : (n / 26 = 0)%Z) by (apply Z.div_small; lia).
      rewrite Hq. change (0 - 1)%Z with (-1)%Z.
      replace (indexToCol_aux rounds (-1) EmptyString) with EmptyString
        by (destruct rounds; reflexivity).
      cbn [list_ascii_of_string lettersValue fold_left].
      rewrite (Z.mod_small n 26) by lia. lia.
    + pose proof (log2_step n Hbig) as Hlog.
      assert (H1 : (1 <= n / 26)%Z) by (apply Z.div_le_lower_bound; lia).
      fold (lettersValue
              (list_ascii_of_string
                 (indexToCol_aux rounds (n / 26 - 1) EmptyString)) 0).
      rewrite IH by lia.
      pose proof (Z.div_mod n 26 ltac:(lia)). lia.
Qed.

(** X3.  [colToIndex] undoes [indexToCol]: the label of the column with
    the index [idx], counted from 0, is read back as [idx]. *)
Theorem colToIndex_indexToCol (idx : Z) (Hidx : (0 <= idx)%Z) :
  colToIndex (indexToCol idx) = idx.
Proof.
  rewrite colToIndex_lettersValue. unfold indexToCol.
  rewrite indexToCol_aux_value; [lia|exact Hidx|].
  pose proof (Z.log2_nonneg (idx + 1)). lia.
Qed.

Lemma colToIndex_indexToCol_witness :
  colToIndex (indexToCol 27) = 27%Z /\ indexToCol 27 = "AB".
Proof.
  split; [apply (colToIndex_indexToCol 27); lia|reflexivity].
Defined.

Lemma upper_code (ch : ascii) :
  isUpper ch = true ->
  (0 <= Z.of_nat (nat_of_ascii ch) - 65 < 26)%Z.
Proof.
  unfold isUpper, ascii_between. intros H.
  apply andb_prop in H as [H1 H2].
  apply Nat.leb_le in H1, H2. lia.
Qed.

Lemma lettersValue_pos (letters : list ascii) :
  forallb isUpper letters = true ->
  letters <> [] -> (1 <= lettersValue letters 0)%Z.
Proof.
  induction letters as [|c l IH] using rev_ind; [congruence|].
  intros Hup _. rewrite forallb_app in Hup.
  apply andb_prop in Hup as [Hl Hc]. cbn in Hc. rewrite andb_true_r in Hc.
  pose proof (upper_code c Hc).
  rewrite lettersValue_app. cbn [lettersValue fold_left].
  destruct l as [|c' l'].
  - cbn [lettersValue fold_left]. lia.
  - specialize (IH Hl ltac:(discriminate)).
    fold (lettersValue (c' :: l') 0). nia.
Qed.

Lemma string_of_list_ascii_snoc (l : list ascii) (c : ascii) (str : string) :
  (string_of_list_ascii (l ++ [c]) ++ str)%string
  = (string_of_list_ascii l ++ String c str)%string.
Proof. induction l as [|x l IH]; cbn; [reflexivity|]. now rewrite IH. Qed.

Lemma indexToCol_aux_letters (letters : list ascii) :
  forallb isUpper letters = true -> letters <> [] ->
  forall rounds str,
    (Z.log2 (lettersValue letters 0) < Z.of_nat rounds)%Z ->
    indexToCol_aux rounds (lettersValue letters 0 - 1) str
    = (string_of_list_ascii letters ++ str)%string.
Proof.
  induction letters as [|c l IH] using rev_ind; [congruence|].
  intros Hup _ rounds str Hfuel. rewrite forallb_app in Hup.
  apply andb_prop in Hup as [Hl Hc]. cbn in Hc. rewrite andb_true_r in Hc.
  pose proof (upper_code c Hc) as Hcode.
  rewrite lettersValue_app in *. cbn [lettersValue fold_left] in *.
  fold (lettersValue l 0) in *.
  set (v' := lettersValue l 0) in *.
  set (k := (Z.of_nat (nat_of_ascii c) - 65)%Z) in *.
  assert (Hv' : (0 <= v')%Z).
  { destruct l as [|c' l']; [subst v'; cbn; lia|].
    pose proof (lettersValue_pos (c' :: l') Hl ltac:(discriminate)).
    subst v'. lia. }
  destruct rounds as [|rounds].
  { pose proof (Z.log2_nonneg (v' * 26 + (k + 1))). lia. }
  cbn [indexToCol_aux].
  replace (v' * 26 + (k + 1) - 1)%Z with (k + v' * 26)%Z by lia.
  destruct (0 <=? k + v' * 26)%Z eqn:E; [|apply Z.leb_gt in E; lia].
  rewrite Z.div_add by lia. rewrite Z.mod_add by lia.
  rewrite (Z.div_small k 26), (Z.mod_small k 26) by lia.
  replace (65 + Z.to_nat k) with (nat_of_ascii c) by (subst k; lia).
  rewrite ascii_nat_embedding. rewrite string_of_list_ascii_snoc.
  cbn [Z.add].
  destruct l as [|c' l'].
  - subst v'. cbn [lettersValue fold_left string_of_list_ascii].
    destruct rounds; reflexivity.
  - pose proof (lettersValue_pos (c' :: l') Hl ltac:(discriminate)) as Hpos.
    fold v' in Hpos.
    apply IH; [exact Hl|discriminate|].
    fold v'.
    assert (H2 : (2 * v' <= k + v' * 26)%Z) by lia.
    pose proof (Z.log2_double v' ltac:(lia)) as H3.
    pose proof (Z.log2_le_mono _ _ H2).
    replace (v' * 26 + (k + 1))%Z with (k + v' * 26 + 1)%Z in Hfuel by lia.
    pose proof (Z.log2_le_mono (k + v' * 26) (k + v' * 26 + 1) ltac:(lia)).
    lia.
Qed.

Lemma lettersValue_bound (letters : list ascii) :
  forallb isUpper letters = true ->
  forall acc,
    (0 <= acc)%Z ->
    (0 <= lettersValue letters acc)%Z
    /\ (lettersValue letters acc + 1
        <= (acc + 1) * 27 ^ Z.of_nat (List.length letters))%Z.
Proof.
  unfold lettersValue.
  induction letters as [|ch l IH]; intros Hup acc Hacc; cbn [fold_left].
  - cbn. lia.
  - cbn [forallb] in Hup. apply andb_prop in Hup as [Hch Hl].
    pose proof (upper_code ch Hch) as Hcode.
    destruct (IH Hl (acc * 26 + (Z.of_nat (nat_of_ascii ch) - 65 + 1))%Z
                ltac:(lia)) as [H0 H1].
    split; [exact H0|].
    cbn [List.length]. rewrite Nat2Z.inj_succ, Z.pow_succ_r by lia.
    pose proof (Z.pow_pos_nonneg 27 (Z.of_nat (List.length l))
                  ltac:(lia) ltac:(lia)).
    nia.
Qed.

Lemma length_list_ascii_of_string (s : string) :
  List.length (list_ascii_of_string s) = String.length s.
Proof. induction s as [|ch s IH]; cbn; [reflexivity|now rewrite IH]. Qed.

(** X4.  [indexToCol] undoes [colToIndex] on every non-empty label of at
    most eleven capital letters, and the index of such a label is below
    2^53, where the doubles of the source are exact: no two such labels
    name the same column. *)
Theorem indexToCol_colToIndex (col : string)
  (Hletters : forallb isUpper (list_ascii_of_string col) = true)
  (Hcol : col <> EmptyString)
  (Hshort : String.length col <= 11) :
  indexToCol (colToIndex col) = col
  /\ (0 <= colToIndex col < 2 ^ 53)%Z.
Proof.
  assert (Hne : list_ascii_of_string col <> [])
    by (destruct col; [congruence|discriminate]).
  split.
  2:{ rewrite colToIndex_lettersValue.
      pose proof (lettersValue_pos _ Hletters Hne) as Hpos.
      destruct (lettersValue_bound _ Hletters 0%Z ltac:(lia)) as [_ Hle].
      rewrite length_list_ascii_of_string in Hle.
      assert (Hpow : (27 ^ Z.of_nat (String.length col) <= 27 ^ 11)%Z)
        by (apply Z.pow_le_mono_r; lia).
      assert (H53 : (27 ^ 11 < 2 ^ 53)%Z) by reflexivity.
      lia. }
  clear Hne.
  rewrite colToIndex_lettersValue. unfold indexToCol.
  assert (Hne : list_ascii_of_string col <> [])
    by (destruct col; [congruence|discriminate]).
  rewrite (indexToCol_aux_letters _ Hletters Hne).
  - rewrite string_of_list_ascii_of_string.
    clear. induction col as [|ch col IH]; cbn; [reflexivity|now rewrite IH].
  - replace (lettersValue (list_ascii_of_string col) 0 - 1 + 1)%Z
      with (lettersValue (list_ascii_of_string col) 0) by lia.
    pose proof (Z.log2_nonneg (lettersValue (list_ascii_of_string col) 0)).
    lia.
Qed.

Lemma indexToCol_colToIndex_witness :
  (indexToCol (colToIndex "ZZ") = "ZZ"
   /\ (0 <= colToIndex "ZZ" < 2 ^ 53)%Z)
  /\ colToIndex "ZZ" = 701%Z.
Proof.
  split; [|reflexivity].
  apply (indexToCol_colToIndex "ZZ"); [reflexivity|discriminate|cbn; lia].
Defined.

Lemma length_zrange (lo hi : Z) :
  List.length (zrange lo hi) = Z.to_nat (hi - lo + 1).
Proof. unfold zrange. now rewrite length_map, length_seq. Qed.

Lemma length_flat_map_const {A B : Type} (f : A -> list B) (l : list A)
  (k : nat) :
  (forall x, List.length (f x) = k) ->
  List.length (flat_map f l) = List.length l * k.
Proof.
  intros Hf. induction l as [|x l IH]; cbn [flat_map]; [reflexivity|].
  rewrite length_app, Hf, IH. cbn. lia.
Qed.

(** X5.  For two well-formed cell names whose rows are below 2^53 and
    whose columns have at most eleven letters (where the doubles of the
    source are exact), and when the rectangle between them has fewer
    than 2^32 cells (the longest array of JavaScript), [expandRange]
    returns the cells of the rectangle: one cell for each column and
    each row from the smaller to the larger.  The order of the two
    corners makes no difference to the result. *)
Theorem expandRange_lists_the_rectangle
  (start end_ scol ecol : string) (r1 r2 : Z)
  (Hstart : parseCell start = Ok (scol, r1))
  (Hend : parseCell end_ = Ok (ecol, r2))
  (Hscol : String.length scol <= 11)
  (Hecol : String.length ecol <= 11)
  (Hr1 : (r1 < 2 ^ 53)%Z)
  (Hr2 : (r2 < 2 ^ 53)%Z)
  (Hcells : ((Z.abs (colToIndex scol - colToIndex ecol) + 1)
             * (Z.abs (r1 - r2) + 1) < 2 ^ 32)%Z) :
  exists cells,
    expandRange start end_ = Ok cells
    /\ expandRange end_ start = Ok cells
    /\ Z.of_nat (List.length cells)
       = ((Z.abs (colToIndex scol - colToIndex ecol) + 1)
          * (Z.abs (r1 - r2) + 1))%Z.
Proof.
  unfold expandRange. rewrite Hstart, Hend.
  eexists. split; [reflexivity|]. split.
  - now rewrite (Z.min_comm (colToIndex ecol)), (Z.max_comm (colToIndex ecol)),
      (Z.min_comm r2), (Z.max_comm r2).
  - rewrite (length_flat_map_const _ _
               (Z.to_nat (Z.max (colToIndex scol) (colToIndex ecol)
                          - Z.min (colToIndex scol) (colToIndex ecol) + 1))).
    + rewrite length_zrange. lia.
    + intros r. now rewrite length_map, length_zrange.
Qed.

Lemma expandRange_lists_the_rectangle_witness :
  exists cells,
    expandRange "b3" "A1" = Ok cells
    /\ expandRange "A1" "b3" = Ok cells
    /\ Z.of_nat (List.length cells)
       = ((Z.abs (colToIndex "B" - colToIndex "A") + 1)
          * (Z.abs (3 - 1) + 1))%Z.
Proof.
  apply (expandRange_lists_the_rectangle "b3" "A1" "B" "A" 3 1);
    try reflexivity; cbn; lia.
Defined.

(** *** detectDependencies *)

Lemma set_has_In (s : list string) (x : string) :
  set_has s x = true <-> In x s.
Proof.
  unfold set_has. split.
  - intros H. apply existsb_exists in H as (y & Hy & E).
    apply String.eqb_eq in E. now subst.
  - intros H. apply existsb_exists. exists x.
    split; [exact H|apply String.eqb_refl].
Qed.

Lemma set_add_NoDup (s : list string) (x : string) :
  NoDup s -> NoDup (set_add s x).
Proof.
  intros H. unfold set_add. destruct (set_has s x) eqn:E; [exact H|].
  apply NoDup_app. split; [exact H|]. split.
  - intros y Hy Hin. apply list_elem_of_In in Hy, Hin.
    cbn in Hin. destruct Hin as [<-|[]].
    apply set_has_In in Hy. congruence.
  - apply NoDup_singleton.
Qed.

Lemma set_add_In (s : list string) (x y : string) :
  In y (set_add s x) <-> In y s \/ y = x.
Proof.
  unfold set_add. destruct (set_has s x) eqn:E.
  - apply set_has_In in E. split; [auto|]. intros [H| ->]; auto.
  - rewrite in_app_iff. cbn. intuition.
Qed.

Lemma scanDependencies_spec (rounds : nat) :
  forall input deps,
    NoDup deps -> Forall (fun d => isReference d = true) deps ->
    NoDup (scanDependencies rounds input deps)
    /\ Forall (fun d => isReference d = true)
              (scanDependencies rounds input deps).
Proof.
  induction rounds as [|rounds IH]; intros [|ch rest] deps Hnd Hall;
    cbn [scanDependencies]; auto.
  destruct (isWordChar ch); [|now apply IH].
  destruct (span isWordChar (String ch rest)) as [word input'].
  destruct (isReference word) eqn:Href; [|now apply IH].
  apply IH; [now apply set_add_NoDup|].
  apply List.Forall_forall. intros d Hd.
  apply set_add_In in Hd as [Hd| ->]; auto.
  rewrite List.Forall_forall in Hall. auto.
Qed.

(** X6.  The dependencies that [detectDependencies] reads off an input
    are cell names, capital letters followed by digits, and no name is
    listed twice. *)
Theorem detectDependencies_returns_references (input : string) :
  NoDup (detectDependencies input)
  /\ Forall (fun d => isReference d = true) (detectDependencies input).
Proof. apply scanDependencies_spec; constructor. Qed.

Lemma span_app (p : ascii -> bool) (w rest : string) :
  forallb p (list_ascii_of_string w) = true ->
  match rest with String ch _ => p ch = false | EmptyString => True end ->
  span p (w ++ rest) = (w, rest).
Proof.
  intros Hw Hrest. induction w as [|c w IH]; cbn [String.append].
  - destruct rest as [|ch rest]; cbn [span]; [reflexivity|].
    now rewrite Hrest.
  - cbn in Hw. apply andb_prop in Hw as [Hc Hw].
    cbn [span]. rewrite Hc, (IH Hw). reflexivity.
Qed.

Lemma scanDependencies_fuel (rounds : nat) :
  forall rounds' input deps,
    String.length input <= rounds -> String.length input <= rounds' ->
    scanDependencies rounds input deps = scanDependencies rounds' input deps.
Proof.
  induction rounds as [|rounds IH]; intros rounds' [|ch rest] deps H H';
    cbn in H, H'; try lia.
  - now destruct rounds'.
  - now destruct rounds'.
  - destruct rounds' as [|rounds']; [lia|].
    cbn [scanDependencies].
    destruct (isWordChar ch) eqn:Hch; [|apply IH; lia].
    rewrite (span_head _ ch rest Hch).
    pose proof (span_spec isWordChar rest) as (_ & _ & _ & Hshort).
    apply IH; lia.
Qed.

(** A separator is skipped. *)
Lemma scan_separator (ch : ascii) (rest : string) (deps : list string) :
  isWordChar ch = false ->
  scanDependencies (String.length (String ch rest)) (String ch rest) deps
  = scanDependencies (String.length rest) rest deps.
Proof. intros H. cbn [String.length scanDependencies]. now rewrite H. Qed.

(** A word that ends at a separator, or at the end of the input, is
    looked at as a whole. *)
Lemma scan_word (w rest : string) (deps : list string) :
  w <> EmptyString ->
  forallb isWordChar (list_ascii_of_string w) = true ->
  match rest with
  | String ch _ => isWordChar ch = false
  | EmptyString => True
  end ->
  scanDependencies (String.length (w ++ rest)) (w ++ rest) deps
  = scanDependencies (String.length rest) rest
      (if isReference w then set_add deps w else deps).
Proof.
  intros Hne Hw Hrest.
  pose proof (span_app isWordChar w rest Hw Hrest) as Hspan.
  destruct w as [|c w]; [congruence|].
  cbn [String.append String.length scanDependencies] in *.
  cbn in Hw. apply andb_prop in Hw as [Hc Hw]. rewrite Hc, Hspan.
  apply scanDependencies_fuel; [|lia].
  clear. induction w as [|x w IH]; cbn; lia.
Qed.

Lemma isReference_word (w : string) :
  isReference w = true ->
  w <> EmptyString /\ forallb isWordChar (list_ascii_of_string w) = true.
Proof.
  unfold isReference. intros H.
  pose proof (span_spec isUpper w) as (H1 & H2 & _ & _).
  destruct (span isUpper w) as [letters rest]. cbn [fst snd] in *.
  pose proof (span_spec isDigit rest) as (H3 & H4 & _ & _).
  destruct (span isDigit rest) as [digits rest']. cbn [fst snd] in *.
  apply andb_prop in H as [H Hrest']. apply andb_prop in H as [Hl Hd].
  destruct rest' as [|? ?]; [|discriminate].
  split.
  - destruct letters; [discriminate|]. subst w. discriminate.
  - subst w rest. rewrite !list_ascii_of_string_app, !forallb_app.
    rewrite (forallb_impl isUpper isWordChar _ ltac:(by_cases_on_char x) H2).
    rewrite (forallb_impl isDigit isWordChar _ ltac:(by_cases_on_char x) H4).
    reflexivity.
Qed.

(** X7.  From a formula that applies a function to a range, as
    [=MEAN(A1:A9)], [detectDependencies] reads the two corners of the
    range and nothing else: the cells between the corners are no
    dependencies of the formula. *)
Theorem a_range_depends_on_its_corners (name a b : string)
  (Hname : forallb isWordChar (list_ascii_of_string name) = true)
  (Hcall : name <> EmptyString)
  (Hfn : isReference name = false)
  (Ha : isReference a = true)
  (Hb : isReference b = true) :
  detectDependencies ("=" ++ name ++ "(" ++ a ++ ":" ++ b ++ ")")
  = set_add [a] b.
Proof.
  apply isReference_word in Ha as Ha'. destruct Ha' as [Ha1 Ha2].
  apply isReference_word in Hb as Hb'. destruct Hb' as [Hb1 Hb2].
  unfold detectDependencies.
  change ("=" ++ name ++ "(" ++ a ++ ":" ++ b ++ ")")%string
    with (String "=" (name ++ String "(" (a ++ String ":" (b ++ ")"))))%string.
  rewrite scan_separator by reflexivity.
  rewrite scan_word by (auto; reflexivity). rewrite Hfn.
  rewrite scan_separator by reflexivity.
  rewrite scan_word by (auto; reflexivity). rewrite Ha.
  rewrite scan_separator by reflexivity.
  rewrite scan_word by (auto; reflexivity). rewrite Hb.
  reflexivity.
Qed.

Lemma a_range_depends_on_its_corners_witness :
  detectDependencies "=MEAN(A1:A9)" = ["A1"; "A9"]
  /\ expandRange "A1" "A9"
     = Ok ["A1"; "A2"; "A3"; "A4"; "A5"; "A6"; "A7"; "A8"; "A9"].
Proof.
  split; [|reflexivity].
  apply (a_range_depends_on_its_corners "MEAN" "A1" "A9");
    try reflexivity; discriminate.
Defined.

(** *** The names of the functions *)

Lemma upperChar_idempotent (ch : ascii) :
  upperChar (upperChar ch) = upperChar ch.
Proof. by_cases_on_char ch. Qed.

Lemma toUpperCase_idempotent (s : string) :
  toUpperCase (toUpperCase s) = toUpperCase s.
Proof.
  induction s as [|ch s IH]; cbn [toUpperCase]; [reflexivity|].
  now rewrite upperChar_idempotent, IH.
Qed.

(** X8.  The dispatch on the name of a function ignores the case of its
    (ASCII) letters: a name and its upper-case form are the same call,
    except that for a name that is no function the error message quotes
    the name as it was written. *)
Theorem function_names_are_case_insensitive
  (rt : Runtime) (World : Type) (ctx : EvalContext World)
  (name : string) (lm : option number) (args : list Dist) (h : Heap)
  (Hname : asciiText name = true) :
  callFunction rt World ctx name lm args h
  = callFunction rt World ctx (toUpperCase name) lm args h
  \/ (callFunction rt World ctx name lm args h
      = (Throw ("Unknown function: " ++ name), h)
      /\ callFunction rt World ctx (toUpperCase name) lm args h
         = (Throw ("Unknown function: " ++ toUpperCase name), h)).
Proof.
  unfold callFunction. rewrite toUpperCase_idempotent.
  repeat match goal with
  | |- context [String.eqb ?a ?b] =>
      destruct (String.eqb a b); [left; reflexivity|]
  end.
  right. split; reflexivity.
Qed.

Lemma function_names_are_case_insensitive_witness :
  callFunction exampleRuntime unit noCells "Const" None [[0]] [Atom (ofZ 7) one]
  = callFunction exampleRuntime unit noCells "CONST" None [[0]]
      [Atom (ofZ 7) one]
  \/ (callFunction exampleRuntime unit noCells "Const" None [[0]]
        [Atom (ofZ 7) one]
      = (Throw "Unknown function: Const", [Atom (ofZ 7) one])
      /\ callFunction exampleRuntime unit noCells "CONST" None [[0]]
           [Atom (ofZ 7) one]
         = (Throw "Unknown function: CONST", [Atom (ofZ 7) one])).
Proof.
  apply (function_names_are_case_insensitive exampleRuntime unit noCells
           "Const" None [[0]] [Atom (ofZ 7) one]).
  reflexivity.
Defined.

(** ** What a recalculation leaves alone *)

Lemma assoc_app_absent {A : Type} (l : list (string * A)) (k id : string)
  (v : A) :
  assoc id l = None ->
  assoc k (l ++ [(id, v)])
  = match assoc k l with
    | Some x => Some x
    | None => if String.eqb k id then Some v else None
    end.
Proof.
  intros Habs. induction l as [|[k' x] l IH]; cbn [assoc app].
  - reflexivity.
  - cbn [assoc] in Habs. destruct (String.eqb id k') eqn:E; [discriminate|].
    destruct (String.eqb k k'); [reflexivity|]. now apply IH.
Qed.

(** The table after [getCell]: the cell asked for is there, as it was or
    new; every other entry is as it was. *)
Lemma assoc_getCellIn (cs : Cells) (id k : string) :
  assoc k (snd (getCellIn cs id))
  = match assoc k cs with
    | Some c => Some c
    | None => if String.eqb k id then Some (newCell id) else None
    end.
Proof.
  unfold getCellIn. destruct (assoc id cs) as [c|] eqn:Hid; cbn [snd].
  - destruct (assoc k cs) eqn:Hk; [reflexivity|].
    destruct (String.eqb k id) eqn:E; [|reflexivity].
    apply String.eqb_eq in E. congruence.
  - now apply assoc_app_absent.
Qed.

Lemma getCellIn_fst (cs : Cells) (id : string) :
  assoc id (snd (getCellIn cs id)) = Some (fst (getCellIn cs id)).
Proof.
  rewrite assoc_getCellIn. unfold getCellIn.
  destruct (assoc id cs); cbn [fst]; [reflexivity|].
  now rewrite String.eqb_refl.
Qed.

Lemma assoc_updateCell (cs : Cells) (id k : string) (f : Cell -> Cell) :
  assoc k (updateCell cs id f)
  = if String.eqb k id then option_map f (assoc k cs) else assoc k cs.
Proof.
  destruct (String.eqb k id) eqn:E.
  - apply String.eqb_eq in E. subst k. apply assoc_updateCell_same.
  - now apply assoc_updateCell_other.
Qed.

Section Frame.

Variable rt : Runtime.

(** A property of the table of cells that no reading of a cell and no
    assignment to a value, a status or an error message can break. *)
Variable I : Cells -> Prop.
Hypothesis I_getCell : forall cs id, I cs -> I (snd (getCellIn cs id)).
Hypothesis I_value :
  forall cs id v, I cs -> I (updateCell cs id (set_value v)).
Hypothesis I_status :
  forall cs id s, I cs -> I (updateCell cs id (set_status s)).
Hypothesis I_error :
  forall cs id e, I cs -> I (updateCell cs id (set_error (Some e))).

Let IG (g : Graph) : Prop := I (cells g).

Lemma frame_getCell (id : string) : preserves IG (getCell id).
Proof.
  intros g Hg. unfold getCell.
  pose proof (I_getCell (cells g) id Hg) as H.
  destruct (getCellIn (cells g) id) as [c cs]. exact H.
Qed.

Lemma frame_markDirty (id : string) : preserves IG (markDirty id).
Proof. now intros g Hg. Qed.

Lemma frame_assign_value id v : preserves IG (assign id (set_value v)).
Proof. intros g Hg. now apply I_value. Qed.

Lemma frame_assign_status id s : preserves IG (assign id (set_status s)).
Proof. intros g Hg. now apply I_status. Qed.

Lemma frame_assign_error id e :
  preserves IG (assign id (set_error (Some e))).
Proof. intros g Hg. now apply I_error. Qed.

Lemma frame_evaluateExpression (expr : string) :
  preserves IG (evaluateExpression rt expr).
Proof.
  intros g Hg. unfold evaluateExpression.
  pose proof (evaluate_behind rt Cells expr
                (graphContext (config_maxComponents g)) I) as H.
  specialize (H (fun id h w Hw => ltac:(
    cbn [graphContext getValue];
    pose proof (I_getCell w id Hw) as H';
    destruct (getCellIn w id); exact H')) (objects g) (cells g) Hg).
  destruct (evaluate _ _ _ _) as [[| |] [h cs]]; exact H.
Qed.

Lemma frame_newDistIn (items : list Item) : preserves IG (newDistIn items).
Proof.
  intros g Hg. unfold newDistIn.
  destruct (Dist_of items (objects g)) as [[| |] h]; exact Hg.
Qed.

Ltac frame_step :=
  first
    [ holds_step
    | apply frame_getCell
    | apply frame_markDirty
    | apply frame_assign_value
    | apply frame_assign_status
    | apply frame_assign_error
    | apply frame_evaluateExpression
    | apply frame_newDistIn
    | apply holds_try_catch
    | match goal with |- forall _ : string, _ => intros ? end
    | solve [auto] ].

Lemma frame_evaluateCell (id : string) : preserves IG (evaluateCell rt id).
Proof. unfold evaluateCell, preserves. repeat frame_step. Qed.

Lemma frame_buildOrderLoop (rounds : nat) :
  forall queue dirty, preserves IG (buildOrderLoop rounds queue dirty).
Proof.
  induction rounds as [|rounds IH]; intros [|curr queue] dirty;
    cbn [buildOrderLoop]; try (intros g Hg; exact Hg).
  destruct (set_has dirty curr); [apply IH|].
  unfold preserves. repeat first [apply IH | frame_step].
Qed.

Lemma frame_executeLoop (rounds : nat) :
  forall dirtySet execQueue inDegree processedCount,
    preserves IG
      (executeLoop rt rounds dirtySet execQueue inDegree processedCount).
Proof.
  induction rounds as [|rounds IH];
    intros dirtySet [|currId execQueue] inDegree processedCount;
    cbn [executeLoop]; try (intros g Hg; exact Hg).
  apply holds_bind; [apply frame_evaluateCell|intros _].
  apply holds_bind; [apply frame_getCell|intros cell].
  destruct (fold_left _ _ _) as [inDegree' pushed]. apply IH.
Qed.

(** A recalculation keeps such a property, however it ends. *)
Lemma frame_recalculate (startId : string) :
  preserves IG (recalculate rt startId).
Proof.
  unfold recalculate.
  apply holds_bind;
    [unfold buildOrder; apply holds_bind;
       [apply holds_gets|intros ?; apply frame_buildOrderLoop]
    |intros dirtySet].
  apply holds_bind;
    [unfold buildInDegree, preserves; repeat frame_step|intros inDegree].
  apply holds_bind; [apply frame_executeLoop|intros [inDegree' n]].
  unfold preserves. repeat frame_step.
Qed.

(** So does an input to the cell [id], when the assignments to the raw
    input and to the dependencies of that cell, and to the dependents of
    any cell, keep the property too. *)
Hypothesis I_dependents :
  forall cs id (f : list string -> list string),
    I cs ->
    I (updateCell cs id (fun c => set_dependents (f (dependents c)) c)).

Lemma frame_setCellInput (id input : string) :
  (forall cs, I cs -> I (updateCell cs id (set_rawInput input))) ->
  (forall cs, I cs ->
     I (updateCell cs id (set_dependencies (detectDependencies input)))) ->
  preserves IG (setCellInput rt id input).
Proof.
  intros Hraw Hdeps. unfold setCellInput, updateDependencies, preserves.
  repeat first
    [ apply frame_recalculate
    | frame_step
    | (intros g Hg; apply (I_dependents (cells g) _
                             (fun ds => set_delete ds id) Hg))
    | (intros g Hg; apply (I_dependents (cells g) _
                             (fun ds => set_add ds id) Hg))
    | (intros g Hg; apply (Hraw (cells g) Hg))
    | (intros g Hg; apply (Hdeps (cells g) Hg)) ].
Qed.

End Frame.

(** ** An error message stays *)

Lemma hasError_getCellIn (cellId : string) (cs : Cells) (id : string) :
  hasError cellId cs = true -> hasError cellId (snd (getCellIn cs id)) = true.
Proof.
  unfold hasError. rewrite assoc_getCellIn.
  now destruct (assoc cellId cs).
Qed.

Lemma hasError_updateCell (cellId : string) (cs : Cells) (id : string)
  (f : Cell -> Cell) :
  (forall c, cell_error c <> None -> cell_error (f c) <> None) ->
  hasError cellId cs = true -> hasError cellId (updateCell cs id f) = true.
Proof.
  intros Hf. unfold hasError. rewrite assoc_updateCell.
  destruct (String.eqb cellId id); [|auto].
  destruct (assoc cellId cs) as [c|]; cbn [option_map]; [|auto].
  specialize (Hf c).
  destruct (cell_error c); [|discriminate].
  destruct (cell_error (f c)); [reflexivity|].
  intros _. now elim Hf.
Qed.

(** X9.  No input clears the error message of a cell: a cell that holds
    a message holds one after every sequence of inputs, also when a later
    evaluation of the cell succeeds and sets its status to [ok]. *)
Theorem an_error_message_is_never_cleared
  (rt : Runtime) (cellId : string) (inputs : list (string * string))
  (g : Graph) (Herror : hasError cellId (cells g) = true) :
  hasError cellId (cells (snd (setInputs rt inputs g))) = true.
Proof.
  assert (H : preserves (fun g => hasError cellId (cells g) = true)
                (setInputs rt inputs)).
  { apply holds_forEach. intros [id input].
    apply (frame_setCellInput rt (fun cs => hasError cellId cs = true)).
    - intros cs other. apply hasError_getCellIn.
    - intros cs other v. now apply hasError_updateCell.
    - intros cs other s. now apply hasError_updateCell.
    - intros cs other e. now apply hasError_updateCell.
    - intros cs other f. now apply hasError_updateCell.
    - intros cs. now apply hasError_updateCell.
    - intros cs. now apply hasError_updateCell. }
  specialize (H g Herror).
  destruct (setInputs rt inputs g) as [[| |] g']; exact H.
Qed.

Lemma an_error_message_is_never_cleared_witness :
  hasError "A1"
    (cells (snd (setInputs exampleRuntime [("A1", "=1+2")]
                   (snd (setCellInput exampleRuntime "A1" "=FOO(1)"
                           newGraph))))) = true
  /\ option_map (fun c => (status c, cell_error c))
       (assoc "A1"
          (cells (snd (setInputs exampleRuntime [("A1", "=1+2")]
                         (snd (setCellInput exampleRuntime "A1" "=FOO(1)"
                                 newGraph))))))
     = Some (ok, Some "Eval Error: Unknown function: FOO").
Proof.
  split.
  - apply (an_error_message_is_never_cleared exampleRuntime "A1"
             [("A1", "=1+2")]
             (snd (setCellInput exampleRuntime "A1" "=FOO(1)" newGraph))).
    vm_compute. reflexivity.
  - vm_compute. reflexivity.
Defined.

(** ** An input to one cell leaves the others as they are *)

(** X10.  Inputs to other cells leave the raw input and the set of
    dependencies of a cell as they are. *)
Theorem an_input_keeps_the_other_inputs
  (rt : Runtime) (cellId : string) (inputs : list (string * string))
  (g : Graph) (c : Cell)
  (Hcell : assoc cellId (cells g) = Some c)
  (Hothers :
     forallb (fun '(id, _) => negb (String.eqb id cellId)) inputs = true) :
  exists c',
    assoc cellId (cells (snd (setInputs rt inputs g))) = Some c'
    /\ rawInput c' = rawInput c
    /\ dependencies c' = dependencies c.
Proof.
  set (I := fun cs : Cells =>
              exists c', assoc cellId cs = Some c'
                         /\ rawInput c' = rawInput c
                         /\ dependencies c' = dependencies c).
  assert (Hupd : forall cs id f,
             String.eqb cellId id = false
             \/ (forall x, rawInput (f x) = rawInput x
                           /\ dependencies (f x) = dependencies x) ->
             I cs -> I (updateCell cs id f)).
  { intros cs id f Hf (c' & Hc' & Hr & Hd). unfold I.
    rewrite assoc_updateCell, Hc'.
    destruct (String.eqb cellId id) eqn:E; [|now exists c'].
    destruct Hf as [Hf|Hf]; [discriminate|].
    exists (f c'). cbn. destruct (Hf c') as [-> ->]. auto. }
  assert (H : preserves (fun g => I (cells g)) (setInputs rt inputs)).
  { unfold setInputs. induction inputs as [|[id input] inputs IH];
      cbn [forEach]; [apply holds_ret|].
    cbn [forallb] in Hothers. apply andb_prop in Hothers as [Hid Hothers].
    apply negb_true_iff in Hid. rewrite String.eqb_sym in Hid.
    apply holds_bind; [|intros _; now apply IH].
    apply (frame_setCellInput rt I).
    - intros cs other (c' & Hc' & Hr). exists c'.
      now rewrite assoc_getCellIn, Hc'.
    - intros cs other v. apply Hupd. right. now intros x.
    - intros cs other s. apply Hupd. right. now intros x.
    - intros cs other e. apply Hupd. right. now intros x.
    - intros cs other f. apply Hupd. right. now intros x.
    - intros cs. apply Hupd. now left.
    - intros cs. apply Hupd. now left. }
  specialize (H g (ex_intro _ c (conj Hcell (conj eq_refl eq_refl)))).
  destruct (setInputs rt inputs g) as [[| |] g']; exact H.
Qed.

Lemma an_input_keeps_the_other_inputs_witness :
  exists c',
    assoc "A1"
      (cells (snd (setInputs exampleRuntime [("B1", "=A1*2"); ("C1", "x")]
                     textGraph))) = Some c'
    /\ rawInput c' = "abc"
    /\ dependencies c' = [].
Proof.
  apply (an_input_keeps_the_other_inputs exampleRuntime "A1"
           [("B1", "=A1*2"); ("C1", "x")] textGraph
           (set_status evaluating (set_rawInput "abc" (newCell "A1"))));
    reflexivity.
Defined.

(** ** Computations that return *)

Section Returns.

Context {S : Type}.

Lemma returns_ret {A : Type} (P : S -> Prop) (a : A) (Q : A -> S -> Prop) :
  (forall s, P s -> Q a s) -> returns P (ret a) Q.
Proof. intros H s Hs. exists a, s. split; [reflexivity|auto]. Qed.

Lemma returns_bind {A B : Type} (P : S -> Prop) (m : M S A)
  (R : A -> S -> Prop) (f : A -> M S B) (Q : B -> S -> Prop) :
  returns P m R -> (forall a, returns (R a) (f a) Q) ->
  returns P (bind m f) Q.
Proof.
  intros Hm Hf s Hs. destruct (Hm s Hs) as (a & s1 & E1 & H1).
  destruct (Hf a s1 H1) as (b & s2 & E2 & H2).
  exists b, s2. unfold bind. rewrite E1. auto.
Qed.

Lemma returns_weaken {A : Type} (P P' : S -> Prop) (m : M S A)
  (Q Q' : A -> S -> Prop) :
  returns P' m Q' -> (forall s, P s -> P' s) ->
  (forall a s, Q' a s -> Q a s) -> returns P m Q.
Proof.
  intros Hm HP HQ s Hs. destruct (Hm s (HP s Hs)) as (a & s' & E & H).
  exists a, s'. auto.
Qed.

Lemma returns_modify (P : S -> Prop) (f : S -> S) (Q : unit -> S -> Prop) :
  (forall s, P s -> Q tt (f s)) -> returns P (modify f) Q.
Proof. intros H s Hs. exists tt, (f s). split; [reflexivity|auto]. Qed.

(** A loop over a list, with an invariant on the elements seen so far. *)
Lemma returns_forEach {A : Type} (J : list A -> S -> Prop) (l : list A)
  (body : A -> M S unit) :
  (forall seen x rest, l = seen ++ x :: rest ->
     returns (J seen) (body x) (fun _ => J (seen ++ [x]))) ->
  returns (J []) (forEach l body) (fun _ => J l).
Proof.
  intros Hbody.
  assert (H : forall rest seen, l = seen ++ rest ->
            returns (J seen) (forEach rest body) (fun _ => J l)).
  { induction rest as [|x rest IH]; intros seen Hl; cbn [forEach].
    - apply returns_ret. intros s Hs. rewrite app_nil_r in Hl.
      rewrite Hl. exact Hs.
    - eapply returns_bind; [apply (Hbody seen x rest Hl)|intros ?].
      apply IH. rewrite Hl, <- app_assoc. reflexivity. }
  now apply H.
Qed.

End Returns.

(** ** The edges of the graph *)

Lemma set_delete_In (l : list string) (x a : string) :
  In a (set_delete l x) <-> In a l /\ a <> x.
Proof.
  unfold set_delete. rewrite <- !list_elem_of_In, list_elem_of_filter.
  split.
  - intros [H1 H2]. split; [exact H2|].
    intros ->. rewrite String.eqb_refl in H1. exact H1.
  - intros [H1 H2]. split; [|exact H1].
    destruct (String.eqb x a) eqn:E; [|exact I].
    apply String.eqb_eq in E. congruence.
Qed.

Lemma wired_split (id : string) (cs : Cells) :
  wired cs <->
  othersWired id cs
  /\ forall c, assoc id cs = Some c ->
       dependencies c = detectDependencies (rawInput c)
       /\ forall b, In b (dependencies c) -> registered id b cs.
Proof.
  unfold wired, othersWired, registered. split.
  - intros H. split; [intros a ca _; apply H|apply H].
  - intros [H1 H2] a ca Ha.
    destruct (String.eqb a id) eqn:E.
    + apply String.eqb_eq in E. subst a. now apply H2.
    + apply String.eqb_neq in E. now apply H1.
Qed.

Lemma registered_getCellIn (a b : string) (cs : Cells) (k : string) :
  registered a b cs -> registered a b (snd (getCellIn cs k)).
Proof.
  intros (cb & Hb & Ha). exists cb. now rewrite assoc_getCellIn, Hb.
Qed.

Lemma wired_getCellIn (cs : Cells) (k : string) :
  wired cs -> wired (snd (getCellIn cs k)).
Proof.
  intros H a ca. rewrite assoc_getCellIn.
  destruct (assoc a cs) as [c|] eqn:Ha.
  - intros [= <-]. destruct (H a c Ha) as [H1 H2]. split; [exact H1|].
    intros b Hb. apply registered_getCellIn. now apply H2.
  - destruct (String.eqb a k); [|discriminate].
    intros [= <-]. split; [reflexivity|intros b []].
Qed.

Lemma othersWired_getCellIn (id : string) (cs : Cells) (k : string) :
  othersWired id cs -> othersWired id (snd (getCellIn cs k)).
Proof.
  intros H a ca Hne. rewrite assoc_getCellIn.
  destruct (assoc a cs) as [c|] eqn:Ha.
  - intros [= <-]. destruct (H a c Hne Ha) as [H1 H2]. split; [exact H1|].
    intros b Hb. apply registered_getCellIn. now apply H2.
  - destruct (String.eqb a k); [|discriminate].
    intros [= <-]. split; [reflexivity|intros b []].
Qed.

Lemma underUpdate_getCellIn id input D (cs : Cells) (k : string) :
  underUpdate id input D cs -> underUpdate id input D (snd (getCellIn cs k)).
Proof.
  intros (c & Hc & H). exists c. now rewrite assoc_getCellIn, Hc.
Qed.

(** An update of the dependents of the cell [x] by [F]. *)
Lemma registered_update (a b x : string) (cs : Cells)
  (F : list string -> list string) :
  String.eqb b x = false \/ (forall l, In a l -> In a (F l)) ->
  registered a b cs ->
  registered a b
    (updateCell cs x (fun c => set_dependents (F (dependents c)) c)).
Proof.
  intros HF (cb & Hb & Ha). unfold registered.
  rewrite assoc_updateCell, Hb.
  destruct (String.eqb b x) eqn:E; [|now exists cb].
  destruct HF as [HF|HF]; [discriminate|].
  eexists. split; [reflexivity|]. cbn. now apply HF.
Qed.

Lemma othersWired_update (id x : string) (cs : Cells)
  (F : list string -> list string) :
  (forall a l, a <> id -> In a l -> In a (F l)) ->
  othersWired id cs ->
  othersWired id
    (updateCell cs x (fun c => set_dependents (F (dependents c)) c)).
Proof.
  intros HF H a ca Hne. rewrite assoc_updateCell.
  intros Ha.
  assert (exists c, assoc a cs = Some c
                    /\ rawInput ca = rawInput c
                    /\ dependencies ca = dependencies c)
    as (c & Hc & Hr & Hd).
  { destruct (String.eqb a x); [|now exists ca].
    destruct (assoc a cs) as [c|]; [|discriminate].
    injection Ha as <-. now exists c. }
  destruct (H a c Hne Hc) as [H1 H2]. rewrite Hr, Hd. split; [exact H1|].
  intros b Hb. apply registered_update; [|now apply H2].
  right. intros l. now apply HF.
Qed.

Lemma underUpdate_update id input D (x : string) (cs : Cells)
  (F : list string -> list string) :
  underUpdate id input D cs ->
  underUpdate id input D
    (updateCell cs x (fun c => set_dependents (F (dependents c)) c)).
Proof.
  intros (c & Hc & Hr & Hd). unfold underUpdate.
  rewrite assoc_updateCell, Hc.
  destruct (String.eqb id x); [|now exists c].
  eexists. split; [reflexivity|]. now split.
Qed.

(** The last step of [updateDependencies]. *)
Lemma wired_set_dependencies (id input : string) (D : list string)
  (cs : Cells) :
  othersWired id cs -> underUpdate id input D cs ->
  (forall b, In b (detectDependencies input) -> registered id b cs) ->
  wired (updateCell cs id (set_dependencies (detectDependencies input))).
Proof.
  intros Ho (c & Hc & Hr & Hd) Hreg.
  assert (Hkeep : forall a b, registered a b cs ->
            registered a b
              (updateCell cs id
                 (set_dependencies (detectDependencies input)))).
  { intros a b (cb & Hb & Ha). unfold registered.
    rewrite assoc_updateCell, Hb.
    destruct (String.eqb b id); [|now exists cb].
    eexists. split; [reflexivity|exact Ha]. }
  apply (wired_split id). split.
  - intros a ca Hne. rewrite assoc_updateCell.
    apply String.eqb_neq in Hne as Hne'. rewrite Hne'. intros Ha.
    destruct (Ho a ca Hne Ha) as [H1 H2]. split; [exact H1|].
    intros b Hb. apply Hkeep. now apply H2.
  - intros c'. rewrite assoc_updateCell, String.eqb_refl, Hc.
    intros [= <-]. cbn. rewrite Hr. split; [reflexivity|].
    intros b Hb. apply Hkeep. now apply Hreg.
Qed.

Ltac splits := repeat match goal with |- _ /\ _ => split end.

Lemma returns_getCell (P : Cells -> Prop) (id : string)
  (Q : Cell -> Cells -> Prop) :
  (forall cs, P cs ->
     Q (fst (getCellIn cs id)) (snd (getCellIn cs id))) ->
  returns (fun g => P (cells g)) (getCell id) (fun c g => Q c (cells g)).
Proof.
  intros H g Hg. unfold getCell. specialize (H (cells g) Hg).
  destruct (getCellIn (cells g) id) as [c cs]. now exists c, (withCells cs g).
Qed.

Lemma returns_assign (P : Cells -> Prop) (id : string) (f : Cell -> Cell)
  (Q : Cells -> Prop) :
  (forall cs, P cs -> Q (updateCell cs id f)) ->
  returns (fun g => P (cells g)) (assign id f) (fun _ g => Q (cells g)).
Proof. intros H. apply returns_modify. intros g Hg. now apply H. Qed.

(** [updateDependencies] for a cell that has its new raw input already:
    it returns, and the edges are in place. *)
Lemma updateDependencies_wires (id input : string) (D : list string) :
  returns
    (fun g => othersWired id (cells g)
              /\ underUpdate id input D (cells g)
              /\ forall b, In b D -> registered id b (cells g))
    (updateDependencies id (detectDependencies input))
    (fun _ g => wired (cells g)).
Proof.
  set (newDeps := detectDependencies input).
  unfold updateDependencies.
  (* the cell is read: its dependencies are [D] *)
  eapply @returns_bind with
    (R := fun cell g =>
            dependencies cell = D
            /\ othersWired id (cells g)
            /\ underUpdate id input D (cells g)
            /\ forall b, In b D -> registered id b (cells g)).
  { apply (returns_getCell
             (fun cs => othersWired id cs /\ underUpdate id input D cs
                        /\ forall b, In b D -> registered id b cs)
             id
             (fun cell cs => dependencies cell = D
                             /\ othersWired id cs
                             /\ underUpdate id input D cs
                             /\ forall b, In b D -> registered id b cs)).
    intros cs (Ho & Hu & Hr). destruct Hu as (c & Hc & Hraw & Hd).
    rewrite (getCellIn_found cs id c Hc). cbn [fst snd].
    splits; auto. now exists c. }
  intros cell.
  (* the edges that are no longer wanted are removed *)
  eapply @returns_bind with
    (R := fun _ g =>
            dependencies cell = D
            /\ othersWired id (cells g)
            /\ underUpdate id input D (cells g)
            /\ forall b, In b D -> In b newDeps ->
                         registered id b (cells g)).
  { eapply @returns_weaken with
      (P' := fun g => dependencies cell = D
                      /\ othersWired id (cells g)
                      /\ underUpdate id input D (cells g)
                      /\ forall b, In b D -> In b newDeps ->
                                   registered id b (cells g))
      (Q' := fun _ g => dependencies cell = D
                      /\ othersWired id (cells g)
                      /\ underUpdate id input D (cells g)
                      /\ forall b, In b D -> In b newDeps ->
                                   registered id b (cells g));
      [|intros g (H1 & H2 & H3 & H4); auto|auto].
    apply (returns_forEach (fun _ g =>
             dependencies cell = D
             /\ othersWired id (cells g)
             /\ underUpdate id input D (cells g)
             /\ forall b, In b D -> In b newDeps ->
                          registered id b (cells g))).
    intros seen oldDepId rest _.
    destruct (set_has newDeps oldDepId) eqn:Hhas; cbn [negb].
    - apply returns_ret. auto.
    - assert (Hout : ~ In oldDepId newDeps).
      { intros Hin. apply set_has_In in Hin. congruence. }
      eapply @returns_bind with
        (R := fun _ g => dependencies cell = D
                         /\ othersWired id (cells g)
                         /\ underUpdate id input D (cells g)
                         /\ forall b, In b D -> In b newDeps ->
                                      registered id b (cells g)).
      + apply (returns_getCell
                 (fun cs => dependencies cell = D /\ othersWired id cs
                            /\ underUpdate id input D cs
                            /\ forall b, In b D -> In b newDeps ->
                                         registered id b cs)
                 oldDepId
                 (fun _ cs => dependencies cell = D /\ othersWired id cs
                              /\ underUpdate id input D cs
                              /\ forall b, In b D -> In b newDeps ->
                                           registered id b cs)).
        intros cs (H1 & H2 & H3 & H4).
        split; [exact H1|]. split; [now apply othersWired_getCellIn|].
        split; [now apply underUpdate_getCellIn|].
        intros b Hb Hb'. apply registered_getCellIn. now apply H4.
      + intros _.
        apply (returns_assign
                 (fun cs => dependencies cell = D /\ othersWired id cs
                            /\ underUpdate id input D cs
                            /\ forall b, In b D -> In b newDeps ->
                                         registered id b cs)
                 oldDepId _
                 (fun cs => dependencies cell = D /\ othersWired id cs
                            /\ underUpdate id input D cs
                            /\ forall b, In b D -> In b newDeps ->
                                         registered id b cs)).
        intros cs (H1 & H2 & H3 & H4).
        split; [exact H1|]. split; [|split].
        * apply (othersWired_update id oldDepId cs
                   (fun l => set_delete l id)); [|exact H2].
          intros a l Hne Hin. now apply set_delete_In.
        * now apply (underUpdate_update id input D oldDepId cs
                       (fun l => set_delete l id)).
        * intros b Hb Hb'.
          apply (registered_update id b oldDepId cs
                   (fun l => set_delete l id)); [|now apply H4].
          left. apply String.eqb_neq. intros ->. contradiction. }
  intros _.
  (* the new edges are added *)
  eapply @returns_bind with
    (R := fun _ g =>
            othersWired id (cells g)
            /\ underUpdate id input D (cells g)
            /\ forall b, In b newDeps -> registered id b (cells g)).
  { eapply @returns_weaken with
      (P' := fun g => dependencies cell = D
                      /\ othersWired id (cells g)
                      /\ underUpdate id input D (cells g)
                      /\ forall b, In b newDeps -> In b D \/ In b [] ->
                                   registered id b (cells g))
      (Q' := fun _ g => dependencies cell = D
                      /\ othersWired id (cells g)
                      /\ underUpdate id input D (cells g)
                      /\ forall b, In b newDeps -> In b D \/ In b newDeps ->
                                   registered id b (cells g)).
    - apply (returns_forEach (fun seen g =>
               dependencies cell = D
               /\ othersWired id (cells g)
               /\ underUpdate id input D (cells g)
               /\ forall b, In b newDeps -> In b D \/ In b seen ->
                            registered id b (cells g))).
      intros seen newDepId rest _.
      destruct (set_has (dependencies cell) newDepId) eqn:Hhas; cbn [negb].
      + apply returns_ret. intros g (H1 & H2 & H3 & H4).
        splits; auto. intros b Hb [Hd|Hs]; [now apply H4; auto|].
        apply in_app_or in Hs as [Hs|[<-|[]]]; [now apply H4; auto|].
        apply H4; [exact Hb|]. left. rewrite <- H1. now apply set_has_In.
      + eapply @returns_bind with
          (R := fun _ g =>
                  (exists c, assoc newDepId (cells g) = Some c)
                  /\ dependencies cell = D
                  /\ othersWired id (cells g)
                  /\ underUpdate id input D (cells g)
                  /\ forall b, In b newDeps -> In b D \/ In b seen ->
                               registered id b (cells g)).
        * apply (returns_getCell
                   (fun cs => dependencies cell = D /\ othersWired id cs
                              /\ underUpdate id input D cs
                              /\ forall b, In b newDeps ->
                                           In b D \/ In b seen ->
                                           registered id b cs)
                   newDepId
                   (fun _ cs => (exists c, assoc newDepId cs = Some c)
                                /\ dependencies cell = D
                                /\ othersWired id cs
                                /\ underUpdate id input D cs
                                /\ forall b, In b newDeps ->
                                             In b D \/ In b seen ->
                                             registered id b cs)).
          intros cs (H1 & H2 & H3 & H4).
          split; [eexists; apply getCellIn_fst|].
          split; [exact H1|]. split; [now apply othersWired_getCellIn|].
          split; [now apply underUpdate_getCellIn|].
          intros b Hb Hb'. apply registered_getCellIn. now apply H4.
        * intros _.
          apply (returns_assign
                   (fun cs => (exists c, assoc newDepId cs = Some c)
                              /\ dependencies cell = D /\ othersWired id cs
                              /\ underUpdate id input D cs
                              /\ forall b, In b newDeps ->
                                           In b D \/ In b seen ->
                                           registered id b cs)
                   newDepId _
                   (fun cs => dependencies cell = D /\ othersWired id cs
                              /\ underUpdate id input D cs
                              /\ forall b, In b newDeps ->
                                           In b D \/ In b (seen ++ [newDepId])
                                           -> registered id b cs)).
          intros cs ((c & Hc) & H1 & H2 & H3 & H4).
          assert (Hadd : forall a l, In a l -> In a (set_add l id)).
          { intros a l Hin. apply set_add_In. now left. }
          split; [exact H1|]. split; [|split].
          -- apply (othersWired_update id newDepId cs
                      (fun l => set_add l id)); [|exact H2].
             intros a l _. apply Hadd.
          -- now apply (underUpdate_update id input D newDepId cs
                          (fun l => set_add l id)).
          -- intros b Hb Hb'.
             assert (Hold : In b D \/ In b seen \/ b = newDepId).
             { destruct Hb' as [Hb'|Hb']; [now left|].
               apply in_app_or in Hb' as [Hb'|[<-|[]]]; auto. }
             destruct Hold as [Hold|[Hold| ->]].
             ++ apply (registered_update id b newDepId cs
                         (fun l => set_add l id)); [right; apply Hadd|].
                apply H4; auto.
             ++ apply (registered_update id b newDepId cs
                         (fun l => set_add l id)); [right; apply Hadd|].
                apply H4; auto.
             ++ unfold registered. rewrite assoc_updateCell_same, Hc.
                eexists. split; [reflexivity|]. cbn.
                apply set_add_In. now right.
    - intros g (H1 & H2 & H3 & H4). splits; auto.
      intros b Hb [Hd|[]]. now apply H4.
    - intros _ g (H1 & H2 & H3 & H4). splits; auto. }
  intros _.
  (* the dependencies of the cell are replaced *)
  apply (returns_assign
           (fun cs => othersWired id cs /\ underUpdate id input D cs
                      /\ forall b, In b newDeps -> registered id b cs)
           id _ wired).
  intros cs (H1 & H2 & H3). now apply (wired_set_dependencies id input D).
Qed.

Lemma wired_update_same (cs : Cells) (id : string) (f : Cell -> Cell) :
  (forall c, rawInput (f c) = rawInput c
             /\ dependencies (f c) = dependencies c
             /\ dependents (f c) = dependents c) ->
  wired cs -> wired (updateCell cs id f).
Proof.
  intros Hf H.
  assert (Hkeep : forall a b, registered a b cs ->
                              registered a b (updateCell cs id f)).
  { intros a b (cb & Hb & Ha). unfold registered.
    rewrite assoc_updateCell, Hb.
    destruct (String.eqb b id); [|now exists cb].
    eexists. split; [reflexivity|].
    destruct (Hf cb) as (_ & _ & ->). exact Ha. }
  intros a ca. rewrite assoc_updateCell. intros Ha.
  assert (exists c, assoc a cs = Some c
                    /\ rawInput ca = rawInput c
                    /\ dependencies ca = dependencies c)
    as (c & Hc & Hr & Hd).
  { destruct (String.eqb a id); [|now exists ca].
    destruct (assoc a cs) as [c|]; [|discriminate].
    injection Ha as <-. exists c. destruct (Hf c) as (-> & -> & _). auto. }
  destruct (H a c Hc) as [H1 H2]. rewrite Hr, Hd. split; [exact H1|].
  intros b Hb. apply Hkeep. now apply H2.
Qed.

Lemma wired_setCellInput (rt : Runtime) (id input : string) :
  preserves (fun g => wired (cells g)) (setCellInput rt id input).
Proof.
  intros g Hg. unfold setCellInput.
  unfold bind at 1. unfold getCell at 1.
  pose proof (wired_getCellIn (cells g) id Hg) as Hg1.
  pose proof (getCellIn_fst (cells g) id) as Hcell.
  destruct (getCellIn (cells g) id) as [cell cs1]. cbn [fst snd] in *.
  destruct (String.eqb (rawInput cell) input); [exact Hg1|].
  unfold bind at 1. cbn [assign modify withCells cells].
  unfold bind at 1. cbn [markDirty modify cells].
  unfold bind at 1.
  match goal with
  | |- context [updateDependencies _ _ ?g3] =>
      destruct (updateDependencies_wires id input (dependencies cell) g3)
        as ([] & g4 & Hupd & Hg4)
  end.
  { apply (wired_split id) in Hg1 as [Ho Ht]. unfold withCells. cbn [cells].
    destruct (Ht cell Hcell) as [_ Hreg].
    assert (Hkeep : forall a b, registered a b cs1 ->
              registered a b (updateCell cs1 id (set_rawInput input))).
    { intros a b (cb & Hb & Ha). unfold registered.
      rewrite assoc_updateCell, Hb.
      destruct (String.eqb b id); [|now exists cb].
      eexists. split; [reflexivity|exact Ha]. }
    split; [|split].
    - intros a ca Hne. rewrite assoc_updateCell.
      apply String.eqb_neq in Hne as Hne'. rewrite Hne'. intros Ha.
      destruct (Ho a ca Hne Ha) as [H1 H2]. split; [exact H1|].
      intros b Hb. apply Hkeep. now apply H2.
    - unfold underUpdate. rewrite assoc_updateCell_same, Hcell.
      eexists. split; [reflexivity|]. now split.
    - intros b Hb. apply Hkeep. now apply Hreg. }
  rewrite Hupd.
  apply (frame_recalculate rt wired); auto using wired_getCellIn.
  - intros cs other v. apply wired_update_same. now intros c.
  - intros cs other s. apply wired_update_same. now intros c.
  - intros cs other e. apply wired_update_same. now intros c.
Qed.

(** X11.  The inputs keep the two directions of the edges in step.  In a
    graph where the dependencies of every cell are the references of its
    raw input, and every cell is among the dependents of each of its
    dependencies, this is so again after every sequence of inputs: each
    cell that the raw input of a cell refers to exists and lists that
    cell among its dependents. *)
Theorem the_edges_follow_the_inputs
  (rt : Runtime) (inputs : list (string * string)) (g : Graph)
  (Hwired : wired (cells g)) :
  wired (cells (snd (setInputs rt inputs g)))
  /\ forall a ca b,
       assoc a (cells (snd (setInputs rt inputs g))) = Some ca ->
       In b (detectDependencies (rawInput ca)) ->
       exists cb,
         assoc b (cells (snd (setInputs rt inputs g))) = Some cb
         /\ In a (dependents cb).
Proof.
  assert (H : wired (cells (snd (setInputs rt inputs g)))).
  { assert (H : preserves (fun g => wired (cells g)) (setInputs rt inputs)).
    { apply holds_forEach. intros [id input]. apply wired_setCellInput. }
    specialize (H g Hwired).
    destruct (setInputs rt inputs g) as [[| |] g']; exact H. }
  split; [exact H|].
  intros a ca b Ha Hb. destruct (H a ca Ha) as [H1 H2].
  apply H2. now rewrite H1.
Qed.

Lemma the_edges_follow_the_inputs_witness :
  wired (cells (snd (setInputs exampleRuntime
                       [("A1", "=B1+C1"); ("B1", "2"); ("A1", "=C1")]
                       newGraph)))
  /\ forall a ca b,
       assoc a (cells (snd (setInputs exampleRuntime
                              [("A1", "=B1+C1"); ("B1", "2"); ("A1", "=C1")]
                              newGraph))) = Some ca ->
       In b (detectDependencies (rawInput ca)) ->
       exists cb,
         assoc b (cells (snd (setInputs exampleRuntime
                                [("A1", "=B1+C1"); ("B1", "2");
                                 ("A1", "=C1")]
                                newGraph))) = Some cb
         /\ In a (dependents cb).
Proof.
  apply (the_edges_follow_the_inputs exampleRuntime
           [("A1", "=B1+C1"); ("B1", "2"); ("A1", "=C1")] newGraph).
  intros a ca Ha. discriminate Ha.
Defined.

(** ** No error leaves the graph *)

Section NeverThrows.

Context {S : Type}.

Lemma neverThrows_bind {A B : Type} (m : M S A) (f : A -> M S B) :
  neverThrows m -> (forall a, neverThrows (f a)) -> neverThrows (bind m f).
Proof.
  intros Hm Hf s e. unfold bind. specialize (Hm s).
  destruct (m s) as [[a|e'|] s']; cbn [fst] in *.
  - apply Hf.
  - now elim (Hm e').
  - discriminate.
Qed.

Lemma neverThrows_ret {A : Type} (a : A) : neverThrows (ret (S := S) a).
Proof. intros s e. discriminate. Qed.

Lemma neverThrows_gets {A : Type} (f : S -> A) : neverThrows (gets f).
Proof. intros s e. discriminate. Qed.

Lemma neverThrows_modify (f : S -> S) : neverThrows (modify f).
Proof. intros s e. discriminate. Qed.

Lemma neverThrows_diverge {A : Type} : neverThrows (diverge (S := S) (A := A)).
Proof. intros s e. discriminate. Qed.

Lemma neverThrows_forEach {A : Type} (l : list A) (body : A -> M S unit) :
  (forall a, neverThrows (body a)) -> neverThrows (forEach l body).
Proof.
  intros Hbody. induction l as [|x l IH]; cbn [forEach].
  - apply neverThrows_ret.
  - apply neverThrows_bind; auto.
Qed.

Lemma neverThrows_foldM {A B : Type} (body : B -> A -> M S B) l acc :
  (forall b a, neverThrows (body b a)) -> neverThrows (foldM body l acc).
Proof.
  intros Hbody. revert acc. induction l as [|x l IH]; intros acc; cbn [foldM].
  - apply neverThrows_ret.
  - apply neverThrows_bind; auto.
Qed.

Lemma neverThrows_try_catch {A : Type} (body : M S A)
  (handler : string -> M S A) :
  (forall e, neverThrows (handler e)) -> neverThrows (try_catch body handler).
Proof.
  intros Hh s e. unfold try_catch.
  destruct (body s) as [[a|e'|] s']; try discriminate. apply Hh.
Qed.

End NeverThrows.

Ltac neverThrows_step :=
  match goal with
  | |- neverThrows (bind _ _) => apply neverThrows_bind; [|intros ?]
  | |- neverThrows (ret _) => apply neverThrows_ret
  | |- neverThrows diverge => apply neverThrows_diverge
  | |- neverThrows (gets _) => apply neverThrows_gets
  | |- neverThrows (modify _) => apply neverThrows_modify
  | |- neverThrows (assign _ _) => apply neverThrows_modify
  | |- neverThrows (markDirty _) => apply neverThrows_modify
  | |- neverThrows (getCell _) =>
      let g := fresh in let e := fresh in
      intros g e; unfold getCell; destruct (getCellIn _ _); discriminate
  | |- neverThrows (foldM _ _ _) => apply neverThrows_foldM; intros ? ?
  | |- neverThrows (forEach _ _) => apply neverThrows_forEach; intros ?
  | |- neverThrows (try_catch _ _) => apply neverThrows_try_catch; intros ?
  | |- neverThrows (if ?b then _ else _) => destruct b
  | |- neverThrows (match ?x with _ => _ end) => destruct x
  end.

Lemma neverThrows_evaluateCell (rt : Runtime) (id : string) :
  neverThrows (evaluateCell rt id).
Proof. unfold evaluateCell. repeat neverThrows_step. Qed.

Lemma neverThrows_buildOrderLoop (rounds : nat) :
  forall queue dirty, neverThrows (buildOrderLoop rounds queue dirty).
Proof.
  induction rounds as [|rounds IH]; intros [|curr queue] dirty;
    cbn [buildOrderLoop]; repeat first [apply IH | neverThrows_step].
Qed.

Lemma neverThrows_executeLoop (rt : Runtime) (rounds : nat) :
  forall dirtySet execQueue inDegree processedCount,
    neverThrows
      (executeLoop rt rounds dirtySet execQueue inDegree processedCount).
Proof.
  induction rounds as [|rounds IH];
    intros dirtySet [|currId execQueue] inDegree processedCount;
    cbn [executeLoop];
    repeat first [apply IH | apply neverThrows_evaluateCell | neverThrows_step].
Qed.

Lemma neverThrows_setCellInput (rt : Runtime) (id input : string) :
  neverThrows (setCellInput rt id input).
Proof.
  unfold setCellInput, updateDependencies, recalculate, buildOrder,
    buildInDegree.
  repeat first
    [ apply neverThrows_buildOrderLoop
    | apply neverThrows_executeLoop
    | neverThrows_step ].
Qed.

(** X12.  [setCellInput] does not throw, whatever the cells and the
    inputs are: the errors of a formula are caught where the cell is
    evaluated. *)
Theorem an_input_never_throws
  (rt : Runtime) (inputs : list (string * string)) (g : Graph)
  (message : string) :
  fst (setInputs rt inputs g) <> Throw message.
Proof.
  apply neverThrows_forEach. intros [id input].
  apply neverThrows_setCellInput.
Qed.

(** ** A formula that fails *)

Lemma evaluate_wraps_errors (rt : Runtime) (World : Type) (expr : string)
  (ctx : EvalContext World) (st st' : Heap * World) (e : string) :
  evaluate rt expr ctx st = (Throw e, st') ->
  exists e', e = ("Eval Error: " ++ e')%string.
Proof.
  unfold evaluate. destruct st as [h w].
  destruct (String.length expr =? 0)%nat; [discriminate|].
  destruct (tokenize expr) as [tokens|e'|]; [| |discriminate].
  - destruct (parseExpression _ _ _ _ _ _) as [[d|e'|] st2];
      try discriminate.
    intros [= <- _]. now exists e'.
  - intros [= <- _]. now exists e'.
Qed.

(** X13.  When the evaluation of the formula of a cell that is not
    circular throws, [evaluateCell] returns: the record of the cell has
    the status [error] and the message of the exception, which starts
    with [Eval Error: ], and the cell is reported as changed.  The other
    fields of the record are as before; its value is still the array of
    references it was, whatever the evaluation has done to the
    components behind them before it threw. *)
Theorem evaluateCell_records_the_error
  (rt : Runtime) (g g1 : Graph) (cellId expr message : string) (c : Cell)
  (Hcell : assoc cellId (cells g) = Some c)
  (Hstatus : status c <> circular)
  (Hinput : rawInput c = String "=" expr)
  (Hthrow : evaluateExpression rt expr g = (Throw message, g1)) :
  exists g',
    evaluateCell rt cellId g = (Ok tt, g')
    /\ assoc cellId (cells g')
       = Some (set_error (Some message) (set_status error c))
    /\ In cellId (dirtyTrack g')
    /\ exists reason, message = ("Eval Error: " ++ reason)%string.
Proof.
  assert (Hkept : assoc cellId (cells g1) = Some c).
  { pose proof (frame_evaluateExpression rt
                  (fun cs => assoc cellId cs = Some c)
                  (fun cs id H =>
                     ltac:(cbn beta in *; now rewrite assoc_getCellIn, H))
                  expr g Hcell) as H.
    now rewrite Hthrow in H. }
  assert (Hreason : exists reason, message = ("Eval Error: " ++ reason)%string).
  { unfold evaluateExpression in Hthrow.
    destruct (evaluate rt expr _ _) as [r [h cs]] eqn:E.
    injection Hthrow as -> _.
    now apply (evaluate_wraps_errors rt Cells expr _ _ _ _ E). }
  unfold evaluateCell, bind at 1. unfold getCell.
  rewrite (getCellIn_found (cells g) cellId c Hcell).
  assert (Hnc : CellStatus_eqb (status c) circular = false)
    by (destruct (status c); try reflexivity; now elim Hstatus).
  rewrite Hnc, Hinput. cbn [startsWith String.prefix substring1].
  replace (withCells (cells g) g) with g by now destruct g.
  destruct (Ascii.ascii_dec "=" "=") as [_|Hne]; [|now elim Hne].
  replace (String.prefix EmptyString expr) with true by now destruct expr.
  unfold try_catch, bind at 1. rewrite Hthrow.
  eexists. split; [reflexivity|].
  cbn [cells withCells dirtyTrack]. split; [|split; [|exact Hreason]].
  - rewrite !assoc_updateCell_same, Hkept. reflexivity.
  - apply set_add_In. now right.
Qed.

Lemma evaluateCell_records_the_error_witness :
  exists g',
    evaluateCell exampleRuntime "A1"
      (withCells [("A1", set_rawInput "=1/0" (newCell "A1"))] newGraph)
    = (Ok tt, g')
    /\ assoc "A1" (cells g')
       = Some (set_error (Some "Eval Error: Division by Zero")
                 (set_status error (set_rawInput "=1/0" (newCell "A1"))))
    /\ In "A1" (dirtyTrack g')
    /\ exists reason,
         "Eval Error: Division by Zero" = ("Eval Error: " ++ reason)%string.
Proof.
  apply (evaluateCell_records_the_error exampleRuntime
           (withCells [("A1", set_rawInput "=1/0" (newCell "A1"))] newGraph)
           (withCells [("A1", set_rawInput "=1/0" (newCell "A1"))]
              {| cells := []; dirtyTrack := [];
                 config_maxComponents := ofZ 200;
                 objects := [Atom (ofZ 1) one; Atom (ofZ 0) one] |})
           "A1" "1/0");
    try reflexivity.
  discriminate.
Defined.

(** ** The cells that an input reaches *)

Lemma pendingEdges_nil (cs : Cells) : pendingEdges [] cs = edgeCount cs.
Proof.
  unfold pendingEdges, edgeCount.
  induction cs as [|[k c] cs IH]; cbn [fold_right]; [reflexivity|].
  now rewrite IH.
Qed.

Lemma pendingEdges_app (dirty : list string) (cs cs' : Cells) :
  pendingEdges dirty (cs ++ cs')
  = pendingEdges dirty cs + pendingEdges dirty cs'.
Proof.
  unfold pendingEdges. induction cs as [|[k c] cs IH]; cbn; [reflexivity|].
  rewrite IH. lia.
Qed.

Lemma pendingEdges_getCellIn (dirty : list string) (cs : Cells) (id : string) :
  pendingEdges dirty (snd (getCellIn cs id)) = pendingEdges dirty cs.
Proof.
  unfold getCellIn. destruct (assoc id cs); cbn [snd]; [reflexivity|].
  rewrite pendingEdges_app. cbn. destruct (set_has dirty id); lia.
Qed.

Lemma pendingEdges_updateCell (dirty : list string) (cs : Cells)
  (id : string) (f : Cell -> Cell) :
  (forall c, dependents (f c) = dependents c) ->
  pendingEdges dirty (updateCell cs id f) = pendingEdges dirty cs.
Proof.
  intros Hf. induction cs as [|[k c] cs IH]; cbn [updateCell]; [reflexivity|].
  destruct (String.eqb id k); cbn; [now rewrite Hf|].
  unfold pendingEdges in IH. now rewrite IH.
Qed.

Lemma set_has_app (s : list string) (x k : string) :
  set_has (s ++ [x]) k = set_has s k || String.eqb k x.
Proof.
  unfold set_has. rewrite existsb_app. cbn. now rewrite orb_false_r.
Qed.

Lemma pendingEdges_mono (dirty : list string) (x : string) (cs : Cells) :
  pendingEdges (dirty ++ [x]) cs <= pendingEdges dirty cs.
Proof.
  induction cs as [|[k c] cs IH]; cbn; [lia|].
  rewrite set_has_app. unfold pendingEdges in IH.
  destruct (set_has dirty k), (String.eqb k x); cbn; lia.
Qed.

Lemma pendingEdges_visit (dirty : list string) (curr : string) (cs : Cells)
  (cell : Cell) :
  set_has dirty curr = false -> assoc curr cs = Some cell ->
  pendingEdges (dirty ++ [curr]) cs + List.length (dependents cell)
  <= pendingEdges dirty cs.
Proof.
  intros Hnew. induction cs as [|[k c] cs IH]; cbn [assoc]; [discriminate|].
  destruct (String.eqb curr k) eqn:E.
  - apply String.eqb_eq in E. subst k. intros [= ->].
    cbn. rewrite set_has_app, Hnew, String.eqb_refl. cbn.
    pose proof (pendingEdges_mono dirty curr cs) as H.
    unfold pendingEdges in H. lia.
  - intros Hc. specialize (IH Hc). cbn. rewrite set_has_app.
    rewrite String.eqb_sym, E, orb_false_r.
    unfold pendingEdges in IH. lia.
Qed.

(** The visit of a cell by [buildOrder]. *)
Lemma visit_spec (curr : string) (g : Graph) :
  exists cell g2,
    getCell curr g = (Ok cell, withCells (snd (getCellIn (cells g) curr)) g)
    /\ (if negb (CellStatus_eqb (status cell) circular)
        then run assign curr (set_status evaluating) in markDirty curr
        else ret tt) (withCells (snd (getCellIn (cells g) curr)) g)
       = (Ok tt, g2)
    /\ (forall k, k <> curr -> assoc k (cells g2) = assoc k (cells g))
    /\ (exists c2, assoc curr (cells g2) = Some c2
                   /\ dependents c2 = dependents cell
                   /\ (status c2 = circular \/ status c2 = evaluating))
    /\ (forall dirty, pendingEdges dirty (cells g2)
                      = pendingEdges dirty (cells g))
    /\ match assoc curr (cells g) with
       | Some c => c = cell
       | None => dependents cell = []
       end.
Proof.
  unfold getCell.
  pose proof (getCellIn_fst (cells g) curr) as Hfst.
  pose proof (fun k => assoc_getCellIn (cells g) curr k) as Hget.
  pose proof (fun dirty => pendingEdges_getCellIn dirty (cells g) curr)
    as Hpend.
  assert (Hold : match assoc curr (cells g) with
                 | Some c => c = fst (getCellIn (cells g) curr)
                 | None => dependents (fst (getCellIn (cells g) curr)) = []
                 end).
  { unfold getCellIn. now destruct (assoc curr (cells g)). }
  destruct (getCellIn (cells g) curr) as [cell cs1]. cbn [fst snd] in *.
  exists cell.
  destruct (CellStatus_eqb (status cell) circular) eqn:Hs; cbn [negb].
  - eexists. split; [reflexivity|]. split; [reflexivity|].
    cbn [withCells cells]. split; [|split; [|split]].
    + intros k Hk. rewrite Hget.
      apply String.eqb_neq in Hk. rewrite Hk. now destruct (assoc k (cells g)).
    + exists cell. split; [exact Hfst|]. split; [reflexivity|]. left.
      now destruct (status cell).
    + exact Hpend.
    + exact Hold.
  - eexists. split; [reflexivity|]. split; [reflexivity|].
    cbn [withCells cells]. split; [|split; [|split]].
    + intros k Hk. rewrite assoc_updateCell, Hget.
      apply String.eqb_neq in Hk. rewrite Hk. now destruct (assoc k (cells g)).
    + rewrite assoc_updateCell_same, Hfst. eexists.
      split; [reflexivity|]. split; [reflexivity|]. now right.
    + intros dirty. rewrite pendingEdges_updateCell; [apply Hpend|].
      now intros c.
    + exact Hold.
Qed.

Lemma buildOrderLoop_spec (rounds : nat) :
  forall queue dirty g,
    List.length queue + pendingEdges dirty (cells g) <= rounds ->
    NoDup dirty ->
    closedUnderDependents dirty queue (cells g) ->
    marked dirty (cells g) ->
    exists dirty' g',
      buildOrderLoop rounds queue dirty g = (Ok dirty', g')
      /\ NoDup dirty'
      /\ (forall k, In k dirty \/ In k queue -> In k dirty')
      /\ closedUnderDependents dirty' [] (cells g')
      /\ marked dirty' (cells g').
Proof.
  induction rounds as [|rounds IH]; intros [|curr queue] dirty g Hfuel Hnd
    Hclosed Hmarked; cbn [buildOrderLoop]; cbn [List.length] in Hfuel;
    try lia.
  - exists dirty, g. split; [reflexivity|]. split; [exact Hnd|].
    split; [intros k [H|[]]; exact H|]. now split.
  - exists dirty, g. split; [reflexivity|]. split; [exact Hnd|].
    split; [intros k [H|[]]; exact H|]. now split.
  - destruct (set_has dirty curr) eqn:Hseen.
    + apply set_has_In in Hseen.
      destruct (IH queue dirty g ltac:(lia) Hnd) as (dirty' & g' & H);
        [|exact Hmarked|].
      * intros k c d Hk Hc Hd.
        destruct (Hclosed k c d Hk Hc Hd) as [H|[<-|H]]; auto.
      * exists dirty', g'. destruct H as (H1 & H2 & H3 & H4).
        split; [exact H1|]. split; [exact H2|]. split; [|exact H4].
        intros k [Hk|[<-|Hk]]; apply H3; auto.
    + destruct (visit_spec curr g)
        as (cell & g2 & Hget & Hmark & Hother & Hcurr & Hpend & Hold).
      unfold bind at 1. rewrite Hget. unfold bind at 1. rewrite Hmark.
      destruct Hcurr as (c2 & Hc2 & Hdeps & Hstatus).
      assert (Hadd : set_add dirty curr = dirty ++ [curr])
        by (unfold set_add; now rewrite Hseen).
      rewrite Hadd.
      assert (Hnotin : ~ In curr dirty).
      { intros Hin. apply set_has_In in Hin. congruence. }
      destruct (IH (queue ++ dependents cell) (dirty ++ [curr]) g2)
        as (dirty' & g' & H1 & H2 & H3 & H4).
      * rewrite length_app, Hpend.
        destruct (assoc curr (cells g)) as [c|] eqn:Hc.
        -- subst c.
           pose proof (pendingEdges_visit dirty curr (cells g) cell Hseen Hc).
           lia.
        -- rewrite Hold. cbn [List.length].
           pose proof (pendingEdges_mono dirty curr (cells g)). lia.
      * apply NoDup_app. split; [exact Hnd|]. split; [|apply NoDup_singleton].
        intros x Hx Hx'. apply list_elem_of_In in Hx, Hx'.
        cbn in Hx'. destruct Hx' as [<-|[]]. contradiction.
      * intros k c d Hk Hc Hd. rewrite !in_app_iff. cbn [In].
        apply in_app_or in Hk as [Hk|[<-|[]]].
        -- assert (Hne : k <> curr) by (intros ->; contradiction).
           rewrite (Hother k Hne) in Hc.
           destruct (Hclosed k c d Hk Hc Hd) as [H|[<-|H]]; auto.
        -- rewrite Hc2 in Hc. injection Hc as <-. rewrite Hdeps in Hd. auto.
      * intros k Hk. apply in_app_or in Hk as [Hk|[<-|[]]].
        -- assert (Hne : k <> curr) by (intros ->; contradiction).
           rewrite (Hother k Hne). now apply Hmarked.
        -- now exists c2.
      * exists dirty', g'. split; [exact H1|]. split; [exact H2|].
        split; [|exact H4].
        intros k Hk. apply H3. rewrite !in_app_iff. cbn [In].
        destruct Hk as [Hk|[<-|Hk]]; auto.
Qed.

(** X14.  The traversal [buildOrder] of [recalculate] ends on every
    graph, cyclic or not.  The set it returns holds the start cell and,
    with a cell, each of its dependents; every cell of the set exists
    afterwards and has the status [evaluating], unless it is
    [circular]. *)
Theorem buildOrder_reaches_the_dependents (startId : string) (g : Graph) :
  exists dirty g',
    buildOrder startId g = (Ok dirty, g')
    /\ In startId dirty
    /\ NoDup dirty
    /\ (forall k c d,
          In k dirty -> assoc k (cells g') = Some c -> In d (dependents c) ->
          In d dirty)
    /\ (forall k, In k dirty ->
          exists c, assoc k (cells g') = Some c
                    /\ (status c = circular \/ status c = evaluating)).
Proof.
  unfold buildOrder, bind, gets.
  destruct (buildOrderLoop_spec (S (edgeCount (cells g))) [startId] [] g)
    as (dirty & g' & H1 & H2 & H3 & H4 & H5).
  - rewrite pendingEdges_nil. cbn. lia.
  - constructor.
  - intros k c d [].
  - intros k [].
  - exists dirty, g'. split; [exact H1|].
    split; [apply H3; right; now left|]. split; [exact H2|].
    split; [|exact H5].
    intros k c d Hk Hc Hd. destruct (H4 k c d Hk Hc Hd) as [H|[]]. exact H.
Qed.

(** ** A recalculation is local *)

Section Local.

Variable rt : Runtime.

(** The cell [cellId], which the recalculation is not to reach. *)
Variable cellId : string.
Variable c : Cell.

Let I (g : Graph) : Prop := assoc cellId (cells g) = Some c.

Lemma local_getCell (id : string) : preserves I (getCell id).
Proof.
  intros g Hg. unfold getCell.
  pose proof (assoc_getCellIn (cells g) id cellId) as H.
  destruct (getCellIn (cells g) id) as [x cs]. cbn [snd] in H.
  unfold I in *. cbn. now rewrite H, Hg.
Qed.

Lemma local_assign (id : string) (f : Cell -> Cell) :
  id <> cellId -> preserves I (assign id f).
Proof.
  intros Hne g Hg. unfold I in *. cbn.
  rewrite assoc_updateCell_other; [exact Hg|].
  apply String.eqb_neq. congruence.
Qed.

Lemma local_markDirty (id : string) : preserves I (markDirty id).
Proof. now intros g Hg. Qed.

Lemma local_evaluateCell (id : string) :
  id <> cellId -> preserves I (evaluateCell rt id).
Proof.
  intros Hne. unfold evaluateCell, preserves.
  repeat first
    [ holds_step
    | apply local_getCell
    | apply local_markDirty
    | apply (frame_evaluateExpression rt
               (fun cs => assoc cellId cs = Some c));
      intros cs other H; now rewrite assoc_getCellIn, H
    | apply (frame_newDistIn (fun cs => assoc cellId cs = Some c))
    | apply local_assign; exact Hne
    | apply holds_try_catch
    | match goal with |- forall _ : string, _ => intros ? end
    | solve [auto] ].
Qed.

Lemma buildOrderLoop_grows (rounds : nat) :
  forall queue dirty g dirty' g',
    buildOrderLoop rounds queue dirty g = (Ok dirty', g') ->
    forall k, In k dirty -> In k dirty'.
Proof.
  induction rounds as [|rounds IH]; intros [|curr queue] dirty g dirty' g';
    cbn [buildOrderLoop]; try discriminate.
  - now intros [= <- <-].
  - now intros [= <- <-].
  - destruct (set_has dirty curr) eqn:Hseen; [apply IH|].
    destruct (visit_spec curr g) as (cell & g2 & Hget & Hmark & _).
    unfold bind at 1. rewrite Hget. unfold bind at 1. rewrite Hmark.
    intros Hloop k Hk. apply (IH _ _ _ _ _ Hloop).
    apply set_add_In. now left.
Qed.

Lemma local_buildOrderLoop (rounds : nat) :
  forall queue dirty g dirty' g',
    buildOrderLoop rounds queue dirty g = (Ok dirty', g') ->
    ~ In cellId dirty' -> I g -> I g'.
Proof.
  induction rounds as [|rounds IH]; intros [|curr queue] dirty g dirty' g';
    cbn [buildOrderLoop]; try discriminate.
  - now intros [= <- <-].
  - now intros [= <- <-].
  - destruct (set_has dirty curr) eqn:Hseen; [apply IH|].
    destruct (visit_spec curr g)
      as (cell & g2 & Hget & Hmark & Hother & _).
    unfold bind at 1. rewrite Hget. unfold bind at 1. rewrite Hmark.
    intros Hloop Hout Hg. apply (IH _ _ _ _ _ Hloop Hout).
    unfold I in *. rewrite Hother; [exact Hg|].
    intros ->. apply Hout. apply (buildOrderLoop_grows _ _ _ _ _ _ Hloop).
    apply set_add_In. now right.
Qed.

(** The dependents in the table [cs] are those of the table [cs0], but
    for cells that are not in [cs0], which have none. *)
Let sameDependents (cs0 cs : Cells) : Prop :=
  forall k,
    match assoc k cs0, assoc k cs with
    | Some x0, Some x => dependents x = dependents x0
    | Some _, None => False
    | None, Some x => dependents x = []
    | None, None => True
    end.

Lemma buildOrderLoop_reaches (cs0 : Cells) (startId : string) (rounds : nat) :
  forall queue dirty g dirty' g',
    buildOrderLoop rounds queue dirty g = (Ok dirty', g') ->
    (forall x, In x dirty \/ In x queue -> reaches cs0 startId x) ->
    sameDependents cs0 (cells g) ->
    forall x, In x dirty' -> reaches cs0 startId x.
Proof.
  induction rounds as [|rounds IH]; intros [|curr queue] dirty g dirty' g';
    cbn [buildOrderLoop]; try discriminate.
  - intros [= <- <-] H _ x Hx. apply H. now left.
  - intros [= <- <-] H _ x Hx. apply H. now left.
  - destruct (set_has dirty curr) eqn:Hseen.
    + intros Hloop H Hsame. apply (IH _ _ _ _ _ Hloop); [|exact Hsame].
      intros x [Hx|Hx]; apply H; [now left|right; now right].
    + destruct (visit_spec curr g)
        as (cell & g2 & Hget & Hmark & Hother & Hcurr & _ & Hold).
      unfold bind at 1. rewrite Hget. unfold bind at 1. rewrite Hmark.
      destruct Hcurr as (c2 & Hc2 & Hdeps & _).
      intros Hloop H Hsame.
      assert (Hcell : match assoc curr cs0 with
                      | Some x0 => dependents cell = dependents x0
                      | None => dependents cell = []
                      end).
      { specialize (Hsame curr).
        destruct (assoc curr (cells g)) as [x|] eqn:Hx.
        - subst x. exact Hsame.
        - rewrite Hold. now destruct (assoc curr cs0). }
      apply (IH _ _ _ _ _ Hloop).
      * intros x [Hx|Hx].
        -- apply set_add_In in Hx as [Hx| ->]; apply H; [now left|].
           right; now left.
        -- apply in_app_or in Hx as [Hx|Hx]; [apply H; right; now right|].
           destruct (assoc curr cs0) as [x0|] eqn:Hx0.
           ++ apply (reaches_dependent cs0 startId curr x x0); auto.
              ** apply H. right; now left.
              ** now rewrite <- Hcell.
           ++ rewrite Hcell in Hx. destruct Hx.
      * intros k. destruct (String.eqb k curr) eqn:E.
        -- apply String.eqb_eq in E. subst k. rewrite Hc2, Hdeps.
           destruct (assoc curr cs0); exact Hcell.
        -- apply String.eqb_neq in E. rewrite (Hother k E). apply Hsame.
Qed.

Lemma degreeKeys_setDegree (inDegree : list (string * Z)) (id : string)
  (d : Z) (dirtySet : list string) :
  In id dirtySet -> incl (degreeKeys inDegree) dirtySet ->
  incl (degreeKeys (setDegree inDegree id d)) dirtySet.
Proof.
  intros Hid. induction inDegree as [|[k v] l IH]; cbn [setDegree].
  - intros _ x [<-|[]]. exact Hid.
  - intros Hl. destruct (String.eqb id k); [exact Hl|].
    intros x [<-|Hx]; [apply Hl; now left|].
    apply IH; [|exact Hx]. intros y Hy. apply Hl. now right.
Qed.

Lemma local_buildInDegree (dirtySet : list string) (g : Graph) :
  I g ->
  match buildInDegree dirtySet g with
  | (Ok inDegree, g') => I g' /\ incl (degreeKeys inDegree) dirtySet
  | (_, g') => I g'
  end.
Proof.
  unfold buildInDegree.
  assert (H : forall ids inDegree g,
            I g -> incl (degreeKeys inDegree) dirtySet ->
            match foldM (fun inDegree id =>
                    let* cell := getCell id in
                    ret (fold_left (fun inDegree dep =>
                           if set_has dirtySet dep
                           then setDegree inDegree dep
                                  (degree inDegree dep + 1)%Z
                           else inDegree) (dependents cell) inDegree))
                    ids inDegree g with
            | (Ok inDegree', g') =>
                I g' /\ incl (degreeKeys inDegree') dirtySet
            | (_, g') => I g'
            end).
  { clear g. induction ids as [|id ids IH]; intros inDegree g Hg Hkeys;
      cbn [foldM].
    - now split.
    - unfold bind at 1. unfold bind at 1.
      pose proof (local_getCell id g Hg) as Hg1.
      destruct (getCell id g) as [[cell| |] g1]; try exact Hg1.
      cbn [ret]. apply IH; [exact Hg1|].
      clear - Hkeys. revert inDegree Hkeys.
      induction (dependents cell) as [|dep deps IHd]; intros inDegree Hkeys;
        cbn [fold_left]; [exact Hkeys|].
      apply IHd. destruct (set_has dirtySet dep) eqn:Hdep; [|exact Hkeys].
      apply degreeKeys_setDegree; [|exact Hkeys]. now apply set_has_In. }
  intros Hg. apply H; [exact Hg|].
  unfold degreeKeys. rewrite map_map. cbn. rewrite map_id. apply incl_refl.
Qed.

Lemma local_executeLoop (dirtySet : list string) (rounds : nat) :
  ~ In cellId dirtySet ->
  forall execQueue inDegree processedCount g,
    incl execQueue dirtySet -> incl (degreeKeys inDegree) dirtySet ->
    I g ->
    match executeLoop rt rounds dirtySet execQueue inDegree processedCount g
    with
    | (Ok (inDegree', _), g') =>
        I g' /\ incl (degreeKeys inDegree') dirtySet
    | (_, g') => I g'
    end.
Proof.
  intros Hout.
  induction rounds as [|rounds IH];
    intros [|currId execQueue] inDegree processedCount g Hqueue Hkeys Hg;
    cbn [executeLoop]; try (now split); try exact Hg.
  assert (Hcurr : currId <> cellId).
  { intros ->. apply Hout, Hqueue. now left. }
  unfold bind at 1.
  pose proof (local_evaluateCell currId Hcurr g Hg) as Hg1.
  destruct (evaluateCell rt currId g) as [[[]| |] g1]; try exact Hg1.
  unfold bind at 1.
  pose proof (local_getCell currId g1 Hg1) as Hg2.
  destruct (getCell currId g1) as [[cell| |] g2]; try exact Hg2.
  assert (Hfold : forall deps inDegree pushed,
            incl (degreeKeys inDegree) dirtySet -> incl pushed dirtySet ->
            incl (degreeKeys
                    (fst (fold_left (fun '(inDegree, pushed) depId =>
                       if set_has dirtySet depId then
                         let d := (degree inDegree depId - 1)%Z in
                         (setDegree inDegree depId d,
                          if (d =? 0)%Z then pushed ++ [depId] else pushed)
                       else (inDegree, pushed)) deps (inDegree, pushed))))
                 dirtySet
            /\ incl (snd (fold_left (fun '(inDegree, pushed) depId =>
                       if set_has dirtySet depId then
                         let d := (degree inDegree depId - 1)%Z in
                         (setDegree inDegree depId d,
                          if (d =? 0)%Z then pushed ++ [depId] else pushed)
                       else (inDegree, pushed)) deps (inDegree, pushed)))
                 dirtySet).
  { clear. induction deps as [|dep deps IHd]; intros inDegree pushed Hk Hp;
      cbn [fold_left]; [now split|].
    destruct (set_has dirtySet dep) eqn:Hdep; [|now apply IHd].
    apply set_has_In in Hdep. apply IHd.
    - now apply degreeKeys_setDegree.
    - destruct (_ =? 0)%Z; [|exact Hp].
      apply incl_app; [exact Hp|]. intros x [<-|[]]. exact Hdep. }
  specialize (Hfold (dependents cell) inDegree [] Hkeys
                (fun x (H : In x []) => match H with end)).
  destruct (fold_left _ (dependents cell) (inDegree, []))
    as [inDegree' pushed]. cbn [fst snd] in Hfold.
  destruct Hfold as [Hkeys' Hpushed].
  apply IH; [|exact Hkeys'|exact Hg2].
  apply incl_app; [|exact Hpushed].
  intros x Hx. apply Hqueue. now right.
Qed.

(** X15.  A recalculation touches only what depends on its start: the
    record of a cell that the start cell does not reach over the edges
    to the dependents (its raw input, status, error message, edges and
    the references of its value) is after [recalculate] what it was
    before. *)
Theorem a_recalculation_is_local (startId : string) (g : Graph)
  (Hcell : assoc cellId (cells g) = Some c)
  (Hout : ~ reaches (cells g) startId cellId) :
  assoc cellId (cells (snd (recalculate rt startId g))) = Some c.
Proof.
  unfold recalculate. unfold bind at 1.
  destruct (buildOrderLoop_spec (S (edgeCount (cells g))) [startId] [] g)
    as (dirtySet & g1 & Hloop & _).
  { rewrite pendingEdges_nil. cbn. lia. }
  { constructor. }
  { intros k x d []. }
  { intros k []. }
  assert (Hbuild : buildOrder startId g = (Ok dirtySet, g1)) by exact Hloop.
  rewrite Hbuild.
  assert (Hdirty : ~ In cellId dirtySet).
  { intros Hin. apply Hout.
    apply (buildOrderLoop_reaches (cells g) startId _ _ _ _ _ _ Hloop);
      [| |exact Hin].
    - intros x [[]|[<-|[]]]. constructor.
    - intros k. now destruct (assoc k (cells g)). }
  pose proof (local_buildOrderLoop _ _ _ _ _ _ Hloop Hdirty Hcell) as Hg1.
  unfold bind at 1.
  pose proof (local_buildInDegree dirtySet g1 Hg1) as Hg2.
  destruct (buildInDegree dirtySet g1) as [[inDegree| |] g2];
    try exact Hg2.
  destruct Hg2 as [Hg2 Hkeys].
  unfold bind at 1.
  pose proof (local_executeLoop dirtySet (List.length dirtySet) Hdirty
                (map fst (filter (fun '(_, deg) => (deg =? 0)%Z) inDegree))
                inDegree 0 g2) as Hg3.
  destruct (executeLoop rt _ _ _ _ _ g2) as [[[inDegree' n]| |] g3];
    [|apply Hg3; auto|apply Hg3; auto].
  - destruct Hg3 as [Hg3 Hkeys']; [|exact Hkeys|exact Hg2|].
    { intros x Hx. apply Hkeys.
      apply in_map_iff in Hx as ([k v] & <- & Hx).
      apply list_elem_of_In, list_elem_of_filter in Hx as [_ Hx].
      apply list_elem_of_In in Hx.
      apply in_map_iff. now exists (k, v). }
    destruct (n <? List.length dirtySet)%nat; [|exact Hg3].
    clear - Hg3 Hkeys' Hdirty.
    revert g3 Hg3. induction inDegree' as [|[id deg] l IH]; intros g3 Hg3;
      cbn [forEach]; [exact Hg3|].
    assert (Hid : id <> cellId).
    { intros ->. apply Hdirty, Hkeys'. now left. }
    assert (Hl : incl (degreeKeys l) dirtySet).
    { intros x Hx. apply Hkeys'. now right. }
    unfold bind at 1. destruct (0 <? deg)%Z.
    + unfold bind at 1.
      pose proof (local_getCell id g3 Hg3) as Hg4.
      destruct (getCell id g3) as [[x| |] g4]; try exact Hg4.
      unfold bind at 1. cbn [assign modify markDirty].
      apply (IH Hl). unfold I in *. cbn [cells withCells].
      rewrite assoc_updateCell_other; [exact Hg4|].
      apply String.eqb_neq. congruence.
    + cbn [ret]. now apply IH.
  - intros x Hx. apply Hkeys.
    apply in_map_iff in Hx as ([k v] & <- & Hx).
    apply list_elem_of_In, list_elem_of_filter in Hx as [_ Hx].
    apply list_elem_of_In in Hx.
    apply in_map_iff. now exists (k, v).
  - intros x Hx. apply Hkeys.
    apply in_map_iff in Hx as ([k v] & <- & Hx).
    apply list_elem_of_In, list_elem_of_filter in Hx as [_ Hx].
    apply list_elem_of_In in Hx.
    apply in_map_iff. now exists (k, v).
Qed.

End Local.

Lemma a_recalculation_is_local_witness :
  assoc "C1" (cells (snd (recalculate exampleRuntime "A1" threeCells)))
  = Some {| id := "C1"; rawInput := "=5"; cell_value := [3];
            status := ok; cell_error := None;
            dependencies := []; dependents := [] |}.
Proof.
  apply (a_recalculation_is_local exampleRuntime "C1"
           {| id := "C1"; rawInput := "=5"; cell_value := [3];
              status := ok; cell_error := None;
              dependencies := []; dependents := [] |}
           "A1" threeCells).
  - vm_compute. reflexivity.
  - intros H.
    assert (Hin : forall x,
              reaches (cells threeCells) "A1" x -> x = "A1" \/ x = "B1").
    { clear H. induction 1 as [|k d x _ IH Hk Hd]; [now left|].
      destruct IH as [-> | ->]; vm_compute in Hk; injection Hk as <-;
        cbn in Hd; intuition. }
    destruct (Hin _ H); discriminate.
Defined.

(** ** The order and the arithmetic of the numbers *)

Lemma num_eq (x y : Q) : Qeq x y -> num x = num y.
Proof. intros H. unfold num. f_equal. now apply Qred_complete. Qed.

Lemma add_comm (a b : number) : add a b = add b a.
Proof.
  destruct a as [| |x|], b as [| |y|]; cbn; try reflexivity.
  apply num_eq. apply Qplus_comm.
Qed.

Lemma mul_comm (a b : number) : mul a b = mul b a.
Proof.
  destruct a as [| |x|], b as [| |y|]; cbn; try reflexivity.
  apply num_eq. apply Qmult_comm.
Qed.

Lemma lt_Num (x y : Q) : lt (Num x) (Num y) = true <-> Qlt x y.
Proof.
  cbn. rewrite Qlt_alt. destruct (x ?= y)%Q; split; congruence.
Qed.

Lemma eqn_Num (x y : Q) : eqn (Num x) (Num y) = true <-> Qeq x y.
Proof. cbn. apply Qeq_bool_iff. Qed.

Lemma lt_trans (a b c : number) :
  lt a b = true -> lt b c = true -> lt a c = true.
Proof.
  destruct a as [| |x|], b as [| |y|], c as [| |z|]; cbn;
    try discriminate; try reflexivity.
  change (lt (Num x) (Num y) = true -> lt (Num y) (Num z) = true ->
          lt (Num x) (Num z) = true).
  rewrite !lt_Num. apply Qlt_trans.
Qed.

Lemma lt_irrefl (a : number) : lt a a = false.
Proof.
  destruct a as [| |x|]; cbn; try reflexivity.
  destruct (x ?= x)%Q eqn:E; try reflexivity.
  apply Qlt_alt in E. now apply Qlt_irrefl in E.
Qed.

Lemma le_trans (a b c : number) :
  le a b = true -> le b c = true -> le a c = true.
Proof.
  unfold le.
  destruct a as [| |x|], b as [| |y|], c as [| |z|]; cbn;
    try discriminate; try reflexivity.
  change (lt (Num x) (Num y) || eqn (Num x) (Num y) = true ->
          lt (Num y) (Num z) || eqn (Num y) (Num z) = true ->
          lt (Num x) (Num z) || eqn (Num x) (Num z) = true).
  rewrite !orb_true_iff, !lt_Num, !eqn_Num.
  intros [H1|H1] [H2|H2].
  - left. now apply Qlt_trans with y.
  - left. now rewrite <- H2.
  - left. now rewrite H1.
  - right. now rewrite H1.
Qed.

(** The comparator of [sort], [getKey(a) - getKey(b)], puts [a] behind
    [b] only when [b <= a], and leaves it in front only when [a <= b]. *)
Lemma comparator_spec (a b : number) :
  isNaN a = false -> isNaN b = false ->
  if gt (sub a b) zero then le b a = true else le a b = true.
Proof.
  destruct a as [| |x|], b as [| |y|]; try discriminate; intros _ _;
    try reflexivity.
  unfold gt, sub, le, neg, add, num.
  destruct (lt zero (Num (Qred (x + Qred (- y))))) eqn:E.
  - apply orb_true_iff. left. apply lt_Num. apply lt_Num in E.
    rewrite !Qred_correct in E.
    apply Qlt_minus_iff. exact E.
  - apply orb_true_iff.
    destruct (Qlt_le_dec x y) as [H|H]; [left; now apply lt_Num|].
    apply Qle_lt_or_eq in H as [H|H].
    + assert (lt zero (Num (Qred (x + Qred (- y)))) = true); [|congruence].
      apply lt_Num. rewrite !Qred_correct. now apply Qlt_minus_iff in H.
    + right. apply eqn_Num. now symmetry.
Qed.

(** ** The constructor of [Dist] *)

Lemma insertSorted_head (h : Heap) (r : ref) (l : list ref) :
  match insertSorted h r l with
  | [] => False
  | x :: _ => x = r \/ match l with y :: _ => x = y | [] => False end
  end.
Proof.
  destruct l as [|r' l]; cbn [insertSorted]; [now left|].
  destruct (gt _ _); [now right|now left].
Qed.

Lemma insertSorted_sorted (h : Heap) (r : ref) (l : list ref) :
  isNaN (getKey (load h r)) = false ->
  keysAreNumbers (contents h l) = true ->
  sortedByKey (contents h l) = true ->
  sortedByKey (contents h (insertSorted h r l)) = true.
Proof.
  intros Hr. induction l as [|r' l IH]; [reflexivity|].
  intros Hkeys Hsorted. cbn [contents map keysAreNumbers forallb] in Hkeys.
  apply andb_prop in Hkeys as [Hr' Hkeys]. apply negb_true_iff in Hr'.
  cbn [insertSorted].
  pose proof (comparator_spec _ _ Hr Hr') as Hcmp.
  destruct (gt (sub (getKey (load h r)) (getKey (load h r'))) zero).
  - assert (Hrest : sortedByKey (contents h l) = true).
    { destruct l as [|y l']; [reflexivity|].
      cbn [contents map sortedByKey] in Hsorted.
      now apply andb_prop in Hsorted as [_ H]. }
    specialize (IH Hkeys Hrest).
    pose proof (insertSorted_head h r l) as Hhead.
    destruct (insertSorted h r l) as [|x rest]; [destruct Hhead|].
    cbn [contents map sortedByKey] in *. rewrite IH, andb_true_r.
    destruct Hhead as [-> | Hhead]; [exact Hcmp|].
    destruct l as [|y l]; [destruct Hhead|]. subst x.
    cbn [map] in Hsorted. now apply andb_prop in Hsorted as [H _].
  - cbn [contents map sortedByKey] in *. now rewrite Hcmp, Hsorted.
Qed.

Lemma sortRefs_sorted (h : Heap) (rs : list ref) :
  keysAreNumbers (contents h rs) = true ->
  sortedByKey (contents h (sortRefs h rs)) = true
  /\ keysAreNumbers (contents h (sortRefs h rs)) = true.
Proof.
  induction rs as [|r rs IH]; [now split|].
  intros Hkeys. cbn [contents map keysAreNumbers forallb] in Hkeys.
  apply andb_prop in Hkeys as [Hr Hkeys]. apply negb_true_iff in Hr.
  destruct (IH Hkeys) as [IH1 IH2].
  unfold sortRefs. cbn [fold_right]. fold (sortRefs h rs). split.
  - now apply insertSorted_sorted.
  - unfold keysAreNumbers, contents.
    apply forallb_forall. intros c Hc.
    apply in_map_iff in Hc as (x & <- & Hx).
    apply (Permutation_in _ (insertSorted_perm h r (sortRefs h rs))) in Hx.
    destruct Hx as [<-|Hx]; [now rewrite Hr|].
    unfold keysAreNumbers, contents in IH2.
    rewrite forallb_forall in IH2. apply IH2. now apply in_map.
Qed.

(** X16.  The constructor of [Dist] stores the components it is given,
    each once, in the order of their keys (the position of an atom, the
    lower end of a bin, minus infinity for a left tail and the start of
    a right tail), provided no key is NaN.  It writes to no
    component. *)
Theorem the_constructor_sorts (components : list ref) (h : Heap)
  (Hkeys : keysAreNumbers (contents h components) = true) :
  exists d,
    Dist_new components h = (Ok d, h)
    /\ Permutation d components
    /\ sortedByKey (contents h d) = true.
Proof.
  exists (sortRefs h components). split; [reflexivity|].
  split; [apply sortRefs_perm|]. now apply sortRefs_sorted.
Qed.

Lemma the_constructor_sorts_witness :
  exists d,
    Dist_new [0; 1; 2]
      [Atom (ofZ 3) (decimal 5 1);
       Tail left_side (ofZ 0) (decimal 1 1) exp_family [] None;
       Bin (ofZ 1) (ofZ 2) (decimal 4 1) (decimal 15 1) uniform]
    = (Ok d,
       [Atom (ofZ 3) (decimal 5 1);
        Tail left_side (ofZ 0) (decimal 1 1) exp_family [] None;
        Bin (ofZ 1) (ofZ 2) (decimal 4 1) (decimal 15 1) uniform])
    /\ Permutation d [0; 1; 2]
    /\ sortedByKey
         (contents
            [Atom (ofZ 3) (decimal 5 1);
             Tail left_side (ofZ 0) (decimal 1 1) exp_family [] None;
             Bin (ofZ 1) (ofZ 2) (decimal 4 1) (decimal 15 1) uniform] d)
       = true.
Proof.
  apply (the_constructor_sorts [0; 1; 2]). reflexivity.
Defined.

(** ** Convolution *)

Section Convolution.

Variable Math_sqrt : number -> number.

Lemma convolveFn_comm (c1 c2 : DistComponent) :
  convolveFn Math_sqrt c1 c2 = convolveFn Math_sqrt c2 c1.
Proof.
  destruct c1 as [x1 p1|a1 b1 p1 r1 s1|], c2 as [x2 p2|a2 b2 p2 r2 s2|];
    cbn [convolveFn shiftBin]; try reflexivity.
  - now rewrite (add_comm x1), (mul_comm p1).
  - now rewrite (mul_comm p1).
  - now rewrite (mul_comm p1).
  - rewrite (mul_comm p1).
    rewrite (add_comm (div (mul (sub b1 a1) (sub b1 a1)) (ofZ 12))).
    rewrite (add_comm (div (add a1 b1) two)). reflexivity.
Qed.

Lemma convolveFn_length (c1 c2 : DistComponent) :
  List.length (convolveFn Math_sqrt c1 c2)
  = if isTail c1 || isTail c2 then 0 else 1.
Proof. destruct c1, c2; reflexivity. Qed.

Lemma convolve_row_length (c1 : DistComponent) (cs2 : list DistComponent) :
  List.length (flat_map (fun c2 => convolveFn Math_sqrt c1 c2) cs2)
  = if isTail c1 then 0 else List.length (body cs2).
Proof.
  induction cs2 as [|c2 cs2 IH]; cbn [flat_map body List.filter].
  - now destruct (isTail c1).
  - rewrite length_app, convolveFn_length, IH. fold (body cs2).
    destruct (isTail c1), (isTail c2); cbn; lia.
Qed.

Lemma convolve_length (cs1 cs2 : list DistComponent) :
  List.length
    (flat_map (fun c1 => flat_map (fun c2 => convolveFn Math_sqrt c1 c2) cs2)
              cs1)
  = List.length (body cs1) * List.length (body cs2).
Proof.
  induction cs1 as [|c1 cs1 IH]; cbn [flat_map body List.filter];
    [reflexivity|].
  rewrite length_app, convolve_row_length, IH. fold (body cs1).
  destruct (isTail c1); cbn; lia.
Qed.

(** X17.  [add] returns for every two distributions and does not throw.
    Its result has one new component for each pair of a component of
    the first and a component of the second operand that are no tails;
    the tails of the operands are dropped.  The components of the
    operands are left as they are. *)
Theorem add_multiplies_the_components (this other : Dist) (h : Heap) :
  exists d h',
    Dist_add Math_sqrt this other h = (Ok d, h')
    /\ List.length d
       = List.length (body (contents h this))
         * List.length (body (contents h other))
    /\ firstn (List.length h) h' = h.
Proof.
  unfold Dist_add, bind, reads, gets.
  destruct (Dist_of_New
              (flat_map (fun c1 =>
                 flat_map (fun c2 => convolveFn Math_sqrt c1 c2)
                          (contents h other)) (contents h this)) h)
    as (d & Hd & Hperm).
  exists d. eexists. split; [exact Hd|].
  split.
  - apply Permutation_length in Hperm.
    unfold contents in Hperm at 1. rewrite length_map in Hperm.
    now rewrite Hperm, convolve_length.
  - now rewrite firstn_app, Nat.sub_diag, firstn_all, app_nil_r.
Qed.

Lemma flat_map_app_perm {A B : Type} (f g : A -> list B) (l : list A) :
  Permutation (flat_map (fun x => f x ++ g x) l)
              (flat_map f l ++ flat_map g l).
Proof.
  induction l as [|x l IH]; cbn [flat_map]; [reflexivity|].
  rewrite IH. rewrite <- !app_assoc. apply Permutation_app_head.
  rewrite !app_assoc. apply Permutation_app_tail.
  apply Permutation_app_comm.
Qed.

Lemma flat_map_swap {A B C : Type} (f : A -> B -> list C)
  (l1 : list A) (l2 : list B) :
  Permutation (flat_map (fun x => flat_map (fun y => f x y) l2) l1)
              (flat_map (fun y => flat_map (fun x => f x y) l1) l2).
Proof.
  induction l1 as [|x l1 IH]; cbn [flat_map].
  - induction l2 as [|y l2 IH2]; cbn [flat_map]; [reflexivity|exact IH2].
  - rewrite IH. symmetry.
    apply (flat_map_app_perm (fun y => f x y)
             (fun y => flat_map (fun x => f x y) l1) l2).
Qed.

(** X18.  [add] is commutative: the two orders of the operands give the
    same components, possibly in another order. *)
Theorem add_commutes (this other : Dist) (h : Heap) :
  exists d1 h1 d2 h2,
    Dist_add Math_sqrt this other h = (Ok d1, h1)
    /\ Dist_add Math_sqrt other this h = (Ok d2, h2)
    /\ Permutation (contents h1 d1) (contents h2 d2).
Proof.
  unfold Dist_add, bind, reads, gets.
  destruct (Dist_of_New
              (flat_map (fun c1 =>
                 flat_map (fun c2 => convolveFn Math_sqrt c1 c2)
                          (contents h other)) (contents h this)) h)
    as (d1 & Hd1 & Hperm1).
  destruct (Dist_of_New
              (flat_map (fun c1 =>
                 flat_map (fun c2 => convolveFn Math_sqrt c1 c2)
                          (contents h this)) (contents h other)) h)
    as (d2 & Hd2 & Hperm2).
  exists d1. eexists. exists d2. eexists.
  split; [exact Hd1|]. split; [exact Hd2|].
  rewrite Hperm1, Hperm2.
  rewrite (flat_map_swap (fun c1 c2 => convolveFn Math_sqrt c1 c2)).
  apply Permutation_refl'.
  apply flat_map_ext. intros c2. apply flat_map_ext. intros c1.
  apply convolveFn_comm.
Qed.

End Convolution.

(** ** The flat encoding *)

Lemma lookup_behind {A : Type} (pre l : list A) (k : nat) :
  (pre ++ l) !! (List.length pre + k) = l !! k.
Proof.
  rewrite lookup_app_r by lia. f_equal. lia.
Qed.

Lemma parseFlatFrom_encoded (cs : list DistComponent) :
  forall rounds pre,
    List.length (componentsToFlatArray cs) <= rounds ->
    parseFlatFrom rounds (pre ++ componentsToFlatArray cs) (List.length pre)
    = map flattened cs.
Proof.
  induction cs as [|c cs IH]; intros rounds pre Hfuel.
  - cbn [componentsToFlatArray flat_map map]. rewrite app_nil_r.
    destruct rounds; cbn [parseFlatFrom]; [reflexivity|].
    now rewrite Nat.ltb_irrefl.
  - unfold componentsToFlatArray in Hfuel |- *.
    cbn [flat_map] in Hfuel |- *.
    fold (componentsToFlatArray cs) in Hfuel |- *.
    rewrite length_app in Hfuel.
    destruct c as [x p|a b p repr shape|side x0 mass family params cap];
      cbn [app List.length] in Hfuel |- *;
      (destruct rounds as [|rounds]; [lia|]);
      cbn [parseFlatFrom map flattened];
      rewrite !length_app; cbn [List.length];
      rewrite !lookup_behind; cbn [lookup list_lookup default].
    + replace (List.length pre <? _)%nat with true
        by (symmetry; apply Nat.ltb_lt; lia).
      replace (List.length pre + 2 <? _)%nat with true
        by (symmetry; apply Nat.ltb_lt; lia).
      cbn [eqn ofZ Qeq_bool andb]. cbn. f_equal.
      specialize (IH rounds (pre ++ [ofZ 0; x; p]) ltac:(lia)).
      rewrite <- app_assoc, length_app in IH. exact IH.
    + replace (List.length pre <? _)%nat with true
        by (symmetry; apply Nat.ltb_lt; lia).
      replace (List.length pre + 3 <? _)%nat with true
        by (symmetry; apply Nat.ltb_lt; lia).
      cbn. f_equal.
      specialize (IH rounds (pre ++ [ofZ 1; a; b; p]) ltac:(lia)).
      rewrite <- app_assoc, length_app in IH. exact IH.
    + replace (List.length pre <? _)%nat with true
        by (symmetry; apply Nat.ltb_lt; lia).
      replace (List.length pre + 4 <? _)%nat with true
        by (symmetry; apply Nat.ltb_lt; lia).
      cbn. f_equal.
      * now destruct side.
      * specialize (IH rounds
                      (pre ++ [ofZ 2; x0; mass; lambdaOr1 params;
                               match side with
                               | right_side => ofZ 1
                               | left_side => ofZ 0
                               end]) ltac:(lia)).
        rewrite <- app_assoc, length_app in IH. exact IH.
Qed.

(** X19.  Decoding the flat array that encodes a list of components
    gives back as many components, in the same order: an atom as it was;
    a bin with its ends and its mass, but with the middle of the bin as
    its representative and the shape [uniform]; a tail with its side,
    start and mass, but with the family [exp], no cap and the rate
    [lambda] (1 if it had none, 0 or NaN) as its only parameter. *)
Theorem parseComponentsFromFlat_componentsToFlatArray
  (components : list DistComponent) :
  parseComponentsFromFlat (componentsToFlatArray components)
  = map flattened components.
Proof.
  unfold parseComponentsFromFlat.
  apply (parseFlatFrom_encoded components _ []). apply le_n.
Qed.

(** ** normalize *)

Lemma totalMassOf_spec (d : list ref) (h : Heap) :
  totalMassOf d h = (Ok (totalMass (contents h d)), h).
Proof.
  unfold totalMassOf, totalMass. generalize zero as acc.
  induction d as [|r d IH]; intros acc; cbn [foldM contents map fold_left].
  - reflexivity.
  - unfold bind at 1. unfold bind at 1. cbn [read gets ret]. apply IH.
Qed.

Lemma load_insert (h : Heap) (r r' : nat) (c : DistComponent) :
  load (<[r := c]> h) r'
  = if (r' =? r)%nat && (r <? List.length h)%nat then c else load h r'.
Proof.
  unfold load. destruct (r' =? r)%nat eqn:E.
  - apply Nat.eqb_eq in E. subst r'.
    destruct (r <? List.length h)%nat eqn:L; cbn [andb].
    + apply Nat.ltb_lt in L. now rewrite list_lookup_insert_eq.
    + apply Nat.ltb_ge in L. now rewrite list_insert_ge.
  - apply Nat.eqb_neq in E. cbn [andb].
    now rewrite list_lookup_insert_ne.
Qed.

Lemma rescale_spec (factor : number) (d : list ref) :
  NoDup d ->
  forall h,
    exists h',
      forEach d (fun r =>
        let* c := read r in
        write r (withMass c (mul (massOf c) factor))) h = (Ok tt, h')
      /\ List.length h' = List.length h
      /\ (forall r, ~ In r d -> load h' r = load h r)
      /\ (forall r, In r d ->
            load h' r
            = withMass (load h r) (mul (massOf (load h r)) factor)).
Proof.
  induction 1 as [|r d Hr Hd IH]; intros h; cbn [forEach].
  - exists h. split; [reflexivity|]. split; [reflexivity|].
    split; [reflexivity|]. intros r [].
  - unfold bind at 1. unfold bind at 1. cbn [read gets write modify].
    set (c' := withMass (load h r) (mul (massOf (load h r)) factor)).
    destruct (IH (<[r := c']> h)) as (h' & Hrun & Hlen & Hout & Hin).
    exists h'. split; [exact Hrun|]. split; [|split].
    + now rewrite Hlen, length_insert.
    + intros r' Hr'. rewrite Hout by (intros H; apply Hr'; now right).
      rewrite load_insert.
      destruct (r' =? r)%nat eqn:E; [|reflexivity].
      apply Nat.eqb_eq in E. subst r'. elim Hr'. now left.
    + intros r' [<-|Hr'].
      * rewrite Hout by (now rewrite <- list_elem_of_In).
        rewrite load_insert, Nat.eqb_refl. cbn [andb].
        destruct (r <? List.length h)%nat eqn:L; [reflexivity|].
        apply Nat.ltb_ge in L. subst c'. unfold load.
        rewrite lookup_ge_None_2 by lia. reflexivity.
      * rewrite (Hin r' Hr'). rewrite load_insert.
        destruct (r' =? r)%nat eqn:E; [|reflexivity].
        apply Nat.eqb_eq in E. subst r'.
        apply list_elem_of_In in Hr'. contradiction.
Qed.

(** X20.  [normalize] returns and writes to the components of its
    distribution only.  When their total mass is 0 or within 1e-9 of 1
    it changes nothing; otherwise the mass of each component is
    multiplied by 1 / total, and nothing else of the component is
    changed. *)
Theorem normalize_rescales_the_masses (d : Dist) (h : Heap)
  (Hdistinct : NoDup d) :
  exists h',
    Dist_normalize d h = (Ok tt, h')
    /\ List.length h' = List.length h
    /\ (forall r, ~ In r d -> load h' r = load h r)
    /\ (forall r, In r d ->
          load h' r
          = if isNormal (totalMass (contents h d)) then load h r
            else withMass (load h r)
                   (mul (massOf (load h r))
                        (div one (totalMass (contents h d))))).
Proof.
  unfold Dist_normalize, bind. rewrite totalMassOf_spec.
  fold (isNormal (totalMass (contents h d))).
  destruct (isNormal (totalMass (contents h d))).
  - exists h. repeat split; reflexivity.
  - apply (rescale_spec _ d Hdistinct h).
Qed.

Lemma normalize_rescales_the_masses_witness :
  exists h',
    Dist_normalize [0; 1] [Atom (ofZ 1) (ofZ 1); Atom (ofZ 2) (ofZ 3)]
    = (Ok tt, h')
    /\ List.length h' = 2
    /\ (forall r, ~ In r [0; 1] ->
          load h' r = load [Atom (ofZ 1) (ofZ 1); Atom (ofZ 2) (ofZ 3)] r)
    /\ (forall r, In r [0; 1] ->
          load h' r
          = withMass (load [Atom (ofZ 1) (ofZ 1); Atom (ofZ 2) (ofZ 3)] r)
              (mul (massOf
                      (load [Atom (ofZ 1) (ofZ 1); Atom (ofZ 2) (ofZ 3)] r))
                   (decimal 25 2))).
Proof.
  apply (normalize_rescales_the_masses [0; 1]
           [Atom (ofZ 1) (ofZ 1); Atom (ofZ 2) (ofZ 3)]).
  repeat (apply NoDup_cons_2; [rewrite list_elem_of_In; cbn; lia|]).
  apply NoDup_nil_2.
Defined.

(** ** Arrays of old and new objects *)

Lemma load_app_l (h news : Heap) (r : ref) :
  r < List.length h -> load (h ++ news) r = load h r.
Proof. intros H. unfold load. now rewrite lookup_app_l. Qed.

Lemma contents_app_l (h news : Heap) (rs : list ref) :
  bound h rs -> contents (h ++ news) rs = contents h rs.
Proof.
  induction 1 as [|r rs Hr _ IH]; cbn [contents map]; [reflexivity|].
  unfold contents in IH. now rewrite IH, load_app_l.
Qed.

Lemma bound_app (h news : Heap) (rs : list ref) :
  bound h rs -> bound (h ++ news) rs.
Proof.
  unfold bound. intros H. eapply Forall_impl; [exact H|].
  intros r Hr. cbn beta in *. rewrite length_app. lia.
Qed.

Lemma materialize_spec (items : list Item) :
  forall h,
    (forall r, In (Old r) items -> r < List.length h) ->
    exists rs news,
      materialize items h = (Ok rs, h ++ news)
      /\ contents (h ++ news) rs = map (itemValue h) items
      /\ bound (h ++ news) rs.
Proof.
  induction items as [|[r|c] items IH]; intros h Hold; cbn [materialize].
  - exists [], []. rewrite app_nil_r. repeat split. constructor.
  - destruct (IH h) as (rs & news & Hrun & Hc & Hb).
    { intros r' Hr'. apply Hold. now right. }
    exists (r :: rs), news. unfold bind. rewrite Hrun. cbn [ret].
    assert (Hr : r < List.length h) by (apply Hold; now left).
    split; [reflexivity|]. split.
    + cbn [contents map itemValue]. unfold contents in Hc.
      now rewrite Hc, load_app_l.
    + constructor; [rewrite length_app; lia|exact Hb].
  - unfold bind at 1. cbn [alloc].
    destruct (IH (h ++ [c])) as (rs & news & Hrun & Hc & Hb).
    { intros r' Hr'. rewrite length_app. cbn.
      specialize (Hold r' (or_intror Hr')). lia. }
    exists (List.length h :: rs), (c :: news).
    unfold bind. rewrite Hrun. cbn [ret].
    replace (h ++ c :: news) with ((h ++ [c]) ++ news)
      by now rewrite <- app_assoc.
    split; [reflexivity|]. split.
    + cbn [contents map itemValue]. unfold contents in Hc. rewrite Hc.
      f_equal.
      * rewrite load_app_l by (rewrite length_app; cbn; lia).
        replace (List.length h) with (List.length h + 0) at 1 by lia.
        now apply load_fresh.
      * apply map_ext_in. intros [r'|c'] Hin; [|reflexivity].
        cbn [itemValue]. apply load_app_l. apply Hold. now right.
    + constructor; [|exact Hb]. rewrite !length_app. cbn. lia.
Qed.

(** ** Splitting at the boundaries *)

Lemma splitItem_value (h : Heap) (b : number) (r : ref) :
  map (itemValue h) (splitItem h b r) = splitComponent b (load h r).
Proof.
  unfold splitItem, splitComponent.
  destruct (load h r) as [x p|ca cb cp repr shape|] eqn:E;
    cbn [map itemValue]; try now rewrite E.
  destruct (lt ca b && gt cb b); cbn [map itemValue]; [reflexivity|].
  now rewrite E.
Qed.

Lemma splitItem_old (h : Heap) (b : number) (r r' : nat) :
  In (Old r') (splitItem h b r) -> r' = r.
Proof.
  unfold splitItem.
  destruct (load h r) as [x p|ca cb cp repr shape|];
    try (intros [[= ->]|[]]; reflexivity).
  destruct (lt ca b && gt cb b).
  - intros [H|[H|[]]]; discriminate.
  - intros [[= ->]|[]]. reflexivity.
Qed.

(** One round of [splitAtBoundaries]. *)
Lemma split_round (b : number) (result : list ref) (h : Heap) :
  bound h result ->
  exists rs news,
    (let* items := gets (fun h => flat_map (splitItem h b) result) in
     materialize items) h = (Ok rs, h ++ news)
    /\ contents (h ++ news) rs
       = flat_map (splitComponent b) (contents h result)
    /\ bound (h ++ news) rs.
Proof.
  intros Hb. unfold bind, gets.
  destruct (materialize_spec (flat_map (splitItem h b) result) h)
    as (rs & news & Hrun & Hc & Hb').
  { intros r Hr. apply in_flat_map in Hr as (r0 & Hr0 & Hr).
    apply splitItem_old in Hr. subst r0.
    unfold bound in Hb. rewrite List.Forall_forall in Hb. now apply Hb. }
  exists rs, news. split; [exact Hrun|]. split; [|exact Hb'].
  rewrite Hc. clear. induction result as [|r result IH];
    cbn [flat_map contents map]; [reflexivity|].
  rewrite map_app, splitItem_value. f_equal. exact IH.
Qed.

Lemma splitComponent_at (b : number) (c c' : DistComponent) :
  In c' (splitComponent b c) -> crosses b c' = false.
Proof.
  unfold splitComponent.
  destruct c as [x p|ca cb cp repr shape|];
    try (intros [<-|[]]; reflexivity).
  destruct (lt ca b && gt cb b) eqn:E.
  - intros [<-|[<-|[]]]; cbn [crosses]; rewrite lt_irrefl;
      [apply andb_false_r|reflexivity].
  - intros [<-|[]]. exact E.
Qed.

Lemma splitComponent_keeps (b x : number) (c c' : DistComponent) :
  crosses x c = false -> In c' (splitComponent b c) -> crosses x c' = false.
Proof.
  unfold splitComponent.
  destruct c as [y p|ca cb cp repr shape|];
    try (intros H [<-|[]]; exact H).
  intros H. destruct (lt ca b && gt cb b) eqn:E; [|intros [<-|[]]; exact H].
  apply andb_prop in E as [E1 E2]. unfold gt in E2.
  cbn [crosses] in H.
  intros [<-|[<-|[]]]; cbn [crosses].
  - destruct (lt ca x) eqn:L1; [|reflexivity].
    destruct (lt x b) eqn:L2; [|reflexivity].
    rewrite (lt_trans x b cb L2 E2) in H. discriminate.
  - destruct (lt b x) eqn:L1; [|reflexivity].
    destruct (lt x cb) eqn:L2; [|reflexivity].
    rewrite (lt_trans ca b x E1 L1) in H. discriminate.
Qed.

(** X21.  [splitAtBoundaries] returns, leaves the components it is given
    as they are, and no component of its result crosses one of the
    boundaries: none is a bin with a boundary strictly between its
    ends. *)
Theorem splitAtBoundaries_separates (comps : list ref)
  (boundaries : list number) (h : Heap) (Hbound : bound h comps) :
  exists out h',
    splitAtBoundaries comps boundaries h = (Ok out, h')
    /\ firstn (List.length h) h' = h
    /\ forall b c,
         In b boundaries -> In c (contents h' out) -> crosses b c = false.
Proof.
  unfold splitAtBoundaries.
  assert (H : forall bs result h0 news0 (seen : list number),
            bound (h0 ++ news0) result ->
            (forall b c, In b seen -> In c (contents (h0 ++ news0) result) ->
                         crosses b c = false) ->
            exists out news,
              foldM (fun result b =>
                       let* items :=
                         gets (fun h => flat_map (splitItem h b) result) in
                       materialize items) bs result (h0 ++ news0)
              = (Ok out, h0 ++ news)
              /\ forall b c,
                   In b seen \/ In b bs ->
                   In c (contents (h0 ++ news) out) -> crosses b c = false).
  { induction bs as [|b bs IH]; intros result h0 news0 seen Hb Hseen;
      cbn [foldM].
    - exists result, news0. split; [reflexivity|].
      intros b c [Hin|[]]. now apply Hseen.
    - destruct (split_round b result (h0 ++ news0) Hb)
        as (rs & news & Hrun & Hc & Hb').
      unfold bind at 1. rewrite Hrun.
      rewrite <- app_assoc in *.
      destruct (IH rs h0 (news0 ++ news) (seen ++ [b]) Hb')
        as (out & news' & Hrun' & Hout).
      + intros x c Hx Hin. rewrite Hc in Hin.
        apply in_flat_map in Hin as (c0 & Hc0 & Hin).
        apply in_app_or in Hx as [Hx|[<-|[]]].
        * apply (splitComponent_keeps b x c0); [|exact Hin].
          now apply Hseen.
        * now apply (splitComponent_at b c0).
      + exists out, news'. split; [exact Hrun'|].
        intros x c Hx. apply Hout.
        rewrite in_app_iff. cbn [In]. destruct Hx as [Hx|[<-|Hx]]; auto. }
  destruct (H boundaries comps h [] []) as (out & news & Hrun & Hout).
  - now rewrite app_nil_r.
  - intros b c [].
  - rewrite app_nil_r in Hrun. exists out, (h ++ news).
    split; [exact Hrun|]. split.
    + now rewrite firstn_app, Nat.sub_diag, firstn_all, app_nil_r.
    + intros b c Hb. apply Hout. now right.
Qed.

Lemma splitAtBoundaries_separates_witness :
  exists out h',
    splitAtBoundaries [0; 1] [zero; ofZ 5]
      [Bin (ofZ (-10)) (ofZ 10) (decimal 5 1) zero uniform;
       Atom (ofZ (-5)) (decimal 5 1)]
    = (Ok out, h')
    /\ firstn 2 h'
       = [Bin (ofZ (-10)) (ofZ 10) (decimal 5 1) zero uniform;
          Atom (ofZ (-5)) (decimal 5 1)]
    /\ forall b c,
         In b [zero; ofZ 5] -> In c (contents h' out) -> crosses b c = false.
Proof.
  apply (splitAtBoundaries_separates [0; 1] [zero; ofZ 5]
           [Bin (ofZ (-10)) (ofZ 10) (decimal 5 1) zero uniform;
            Atom (ofZ (-5)) (decimal 5 1)]).
  repeat constructor.
Defined.

(** ** The greedy reduction *)

Section Greedy.

Variable c : number.
Variable w : number.
Variable targetN : number.
Variable bounds : list number.

(** A pair that [findBest] returns is a pair of neighbours that are not
    tails and have no boundary between them. *)
Lemma findBest_spec (h : Heap) (current : list ref) :
  forall i bestIdx minCost j,
    findBest c w h bounds i current bestIdx minCost = Some j ->
    bestIdx = Some j
    \/ exists k r1 r2,
         j = i + k
         /\ current !! k = Some r1 /\ current !! (k + 1) = Some r2
         /\ isTail (load h r1) = false /\ isTail (load h r2) = false
         /\ hasBoundaryBetween (getEnd (load h r1)) (getStart (load h r2))
                               bounds = false.
Proof.
  induction current as [|r1 rest IH]; intros i bestIdx minCost j;
    cbn [findBest]; [now left|].
  destruct rest as [|r2 rest]; [now left|].
  assert (Hshift : forall best cost,
            findBest c w h bounds (S i) (r2 :: rest) best cost = Some j ->
            best = Some j
            \/ exists k x1 x2,
                 j = i + k
                 /\ (r1 :: r2 :: rest) !! k = Some x1
                 /\ (r1 :: r2 :: rest) !! (k + 1) = Some x2
                 /\ isTail (load h x1) = false /\ isTail (load h x2) = false
                 /\ hasBoundaryBetween (getEnd (load h x1))
                      (getStart (load h x2)) bounds = false).
  { intros best cost H. destruct (IH _ _ _ _ H) as [H'|H']; [now left|].
    destruct H' as (k & x1 & x2 & -> & H1 & H2 & H3).
    right. exists (S k), x1, x2. split; [lia|]. now split. }
  destruct (hasBoundaryBetween _ _ bounds) eqn:Hb; [apply Hshift|].
  destruct (isTail (load h r1) || isTail (load h r2)) eqn:Ht;
    [apply Hshift|].
  apply orb_false_elim in Ht as [Ht1 Ht2].
  destruct (lt _ minCost); [|apply Hshift].
  intros H. destruct (Hshift _ _ H) as [[= <-]|H']; [|now right].
  right. exists 0, r1, r2. split; [lia|]. now repeat split.
Qed.

(** Once a pair is recorded, the search returns a pair. *)
Lemma findBest_kept (h : Heap) (current : list nat) :
  forall i j minCost,
    findBest c w h bounds i current (Some j) minCost <> None.
Proof.
  induction current as [|r1 rest IH]; intros i j minCost;
    cbn [findBest]; [discriminate|].
  destruct rest as [|r2 rest]; [discriminate|].
  destruct (hasBoundaryBetween _ _ bounds); [apply IH|].
  destruct (isTail (load h r1) || isTail (load h r2)); [apply IH|].
  destruct (lt _ minCost); apply IH.
Qed.

(** When the search returns no pair, no pair of neighbours could be
    merged at a cost below the bound it started with. *)
Lemma findBest_None (h : Heap) (current : list nat) :
  forall i minCost,
    findBest c w h bounds i current None minCost = None ->
    forall k r1 r2,
      current !! k = Some r1 -> current !! (k + 1) = Some r2 ->
      negb (hasBoundaryBetween (getEnd (load h r1)) (getStart (load h r2))
                               bounds)
      && negb (isTail (load h r1) || isTail (load h r2))
      && lt (add (getImp c w (load h r1)) (getImp c w (load h r2))) minCost
      = false.
Proof.
  induction current as [|x1 rest IH]; intros i minCost Hnone k r1 r2 H1 H2;
    [discriminate|].
  destruct rest as [|x2 rest]; [destruct k; discriminate|].
  cbn [findBest] in Hnone.
  destruct k as [|k].
  - cbn in H1, H2. injection H1 as ->. injection H2 as ->.
    destruct (hasBoundaryBetween _ _ bounds); [reflexivity|].
    destruct (isTail (load h r1) || isTail (load h r2)); [reflexivity|].
    destruct (lt _ minCost) eqn:Hlt; [|reflexivity].
    elim (findBest_kept h (r2 :: rest) (S i) i _ Hnone).
  - cbn [lookup list_lookup] in H1. cbn in H2.
    apply (IH (S i) minCost) with (k := k); [|exact H1|exact H2].
    destruct (hasBoundaryBetween _ _ bounds); [exact Hnone|].
    destruct (isTail (load h x1) || isTail (load h x2)); [exact Hnone|].
    destruct (lt _ minCost); [|exact Hnone].
    elim (findBest_kept h (x2 :: rest) (S i) i _ Hnone).
Qed.

Lemma isTail_mergedBin (cs : list DistComponent) :
  isTail (mergedBin cs) = false.
Proof.
  unfold mergedBin. now destruct (fold_left _ cs _) as [[[? ?] ?] ?].
Qed.

Lemma middle_pair {A : Type} (l : list A) (i : nat) (a b : A) :
  l !! i = Some a -> l !! (i + 1) = Some b ->
  l = firstn i l ++ a :: b :: skipn (i + 2) l
  /\ firstn 2 (skipn i l) = [a; b].
Proof.
  revert i. induction l as [|x l IH]; intros i Ha Hb; [discriminate|].
  destruct i as [|i].
  - cbn in Ha, Hb. injection Ha as ->. destruct l as [|y l]; [discriminate|].
    cbn in Hb. injection Hb as ->. now split.
  - cbn in Ha, Hb. destruct (IH i Ha Hb) as [H1 H2].
    cbn [firstn skipn Nat.add app]. split; [now f_equal|exact H2].
Qed.

Lemma greedyLoop_spec (rounds : nat) :
  forall current h,
    List.length current < rounds -> bound h current ->
    exists out news,
      greedyLoop c w rounds current targetN bounds h = (Ok out, h ++ news)
      /\ List.length out <= List.length current
      /\ (gt (ofNat (List.length out)) targetN = false
          \/ forall k c1 c2,
               contents (h ++ news) out !! k = Some c1 ->
               contents (h ++ news) out !! (k + 1) = Some c2 ->
               mergeable c w bounds c1 c2 = false)
      /\ tails (contents (h ++ news) out) = tails (contents h current)
      /\ bound (h ++ news) out.
Proof.
  induction rounds as [|rounds IH]; intros current h Hfuel Hb; [lia|].
  cbn [greedyLoop].
  destruct (gt (ofNat (List.length current)) targetN) eqn:Hover.
  2:{ exists current, []. rewrite app_nil_r. split; [reflexivity|].
      split; [lia|]. split; [now left|]. now split. }
  unfold bind at 1. cbn [gets].
  destruct (findBest c w h bounds 0 current None MAX_VALUE) as [i|] eqn:Hbest.
  2:{ exists current, []. rewrite app_nil_r. split; [reflexivity|].
      split; [lia|]. split; [|now split].
      right. intros k c1 c2 H1 H2. unfold contents in H1, H2.
      rewrite list_lookup_fmap in H1, H2.
      destruct (current !! k) as [r1|] eqn:Hr1; [|discriminate].
      destruct (current !! (k + 1)) as [r2|] eqn:Hr2; [|discriminate].
      cbn in H1, H2. injection H1 as <-. injection H2 as <-.
      exact (findBest_None h current 0 MAX_VALUE Hbest k r1 r2 Hr1 Hr2). }
  destruct (findBest_spec h current 0 None MAX_VALUE i Hbest)
    as [H|(k & r1 & r2 & Hk & H1 & H2 & Ht1 & Ht2 & _)]; [discriminate|].
  cbn [Nat.add] in Hk. subst k.
  destruct (middle_pair current i r1 r2 H1 H2) as [Hsplit Hpair].
  unfold bind at 1. unfold mergeComponents, bind, reads, gets, alloc.
  rewrite Hpair.
  set (m := mergedBin (contents h [r1; r2])).
  set (front := firstn i current) in *.
  set (back := skipn (i + 2) current) in *.
  clearbody front back. clear Hpair Hbest H1 H2. subst current.
  set (current' := front ++ List.length h :: back).
  assert (Hlen : List.length (front ++ r1 :: r2 :: back)
                 = S (List.length current')).
  { unfold current'. rewrite !length_app. cbn. lia. }
  unfold bound in Hb. apply Forall_app in Hb as [Hfront Hb].
  apply Forall_cons in Hb as [_ Hb]. apply Forall_cons in Hb as [_ Hback].
  destruct (IH current' (h ++ [m]))
    as (out & news & Hrun & Hle & Hend & Ht & Hbo).
  { lia. }
  { unfold current', bound. apply Forall_app. split; [now apply bound_app|].
    constructor; [rewrite length_app; cbn; lia|now apply bound_app]. }
  exists out, (m :: news).
  replace (h ++ m :: news) with ((h ++ [m]) ++ news)
    by now rewrite <- app_assoc.
  split; [exact Hrun|]. split; [lia|]. split; [exact Hend|].
  split; [|exact Hbo].
  rewrite Ht. unfold current', tails, contents.
  rewrite !map_app, !List.filter_app. cbn [map List.filter].
  rewrite Ht1, Ht2.
  replace (load (h ++ [m]) (List.length h)) with m.
  2:{ replace (List.length h) with (List.length h + 0) at 1 by lia.
      symmetry. now apply load_fresh. }
  unfold m. rewrite isTail_mergedBin.
  f_equal.
  - f_equal. apply map_ext_in. intros r Hr. apply load_app_l.
    rewrite List.Forall_forall in Hfront. now apply Hfront.
  - f_equal. apply map_ext_in. intros r Hr. apply load_app_l.
    rewrite List.Forall_forall in Hback. now apply Hback.
Qed.

(** X22.  [greedyReduce] ends and leaves the components it is given as
    they are.  Its result is no longer than its input, and it stops only
    when the result has at most [targetN] components or no two
    neighbours in it can be merged: each pair has a boundary at its
    junction, a tail, or a cost that is not below [Number.MAX_VALUE].
    The tails of the input are the tails of the result, in their
    order. *)
Theorem greedyReduce_returns (comps : list ref) (h : Heap)
  (Hbound : bound h comps) :
  exists out h',
    greedyReduce c w comps targetN bounds h = (Ok out, h')
    /\ firstn (List.length h) h' = h
    /\ List.length out <= List.length comps
    /\ (gt (ofNat (List.length out)) targetN = false
        \/ forall k c1 c2,
             contents h' out !! k = Some c1 ->
             contents h' out !! (k + 1) = Some c2 ->
             mergeable c w bounds c1 c2 = false)
    /\ tails (contents h' out) = tails (contents h comps).
Proof.
  unfold greedyReduce.
  destruct (greedyLoop_spec (S (List.length comps)) comps h
              ltac:(lia) Hbound)
    as (out & news & Hrun & Hle & Hend & Ht & _).
  exists out, (h ++ news). split; [exact Hrun|].
  split; [now rewrite firstn_app, Nat.sub_diag, firstn_all, app_nil_r|].
  now split.
Qed.

End Greedy.

Lemma greedyReduce_returns_witness :
  exists out h',
    greedyReduce zero zero [0; 1; 2; 3] (ofZ 1) []
      [Tail left_side (ofZ 0) (decimal 1 1) exp_family [] None;
       Atom (ofZ 1) (decimal 3 1);
       Bin (ofZ 2) (ofZ 3) (decimal 3 1) (decimal 25 1) uniform;
       Atom (ofZ 4) (decimal 3 1)]
    = (Ok out, h')
    /\ firstn 4 h'
       = [Tail left_side (ofZ 0) (decimal 1 1) exp_family [] None;
          Atom (ofZ 1) (decimal 3 1);
          Bin (ofZ 2) (ofZ 3) (decimal 3 1) (decimal 25 1) uniform;
          Atom (ofZ 4) (decimal 3 1)]
    /\ List.length out <= 4
    /\ (gt (ofNat (List.length out)) (ofZ 1) = false
        \/ forall k c1 c2,
             contents h' out !! k = Some c1 ->
             contents h' out !! (k + 1) = Some c2 ->
             mergeable zero zero [] c1 c2 = false)
    /\ tails (contents h' out)
       = [Tail left_side (ofZ 0) (decimal 1 1) exp_family [] None].
Proof.
  apply (greedyReduce_returns zero zero (ofZ 1) [] [0; 1; 2; 3]
           [Tail left_side (ofZ 0) (decimal 1 1) exp_family [] None;
            Atom (ofZ 1) (decimal 3 1);
            Bin (ofZ 2) (ofZ 3) (decimal 3 1) (decimal 25 1) uniform;
            Atom (ofZ 4) (decimal 3 1)]).
  repeat constructor.
Defined.

Lemma circular_is_permanent_witness :
  isCircular "A1" (cells cyclicGraph)
  /\ isCircular "A1"
       (cells (snd (forEach [("A1", "=1"); ("A2", "2")]
                      (fun '(other, input) =>
                         setCellInput exampleRuntime other input)
                      cyclicGraph))).
Proof.
  assert (H : isCircular "A1" (cells cyclicGraph)).
  { eexists. split; [vm_compute; reflexivity|reflexivity]. }
  split; [exact H|].
  apply (circular_is_permanent exampleRuntime "A1" _ cyclicGraph H).
Defined.

(** ** Cycles *)

Lemma keepsDependents_refl (cs : Cells) : keepsDependents cs cs.
Proof. intros k. now destruct (assoc k cs). Qed.

Lemma keepsDependents_getCellIn (cs0 cs : Cells) (id : string) :
  keepsDependents cs0 cs -> keepsDependents cs0 (snd (getCellIn cs id)).
Proof.
  intros H k. specialize (H k). rewrite assoc_getCellIn.
  destruct (assoc k cs0), (assoc k cs); try exact H; try contradiction;
    destruct (String.eqb k id); try exact H; reflexivity.
Qed.

Lemma keepsDependents_updateCell (cs0 cs : Cells) (id : string)
  (f : Cell -> Cell) :
  (forall c, dependents (f c) = dependents c) ->
  keepsDependents cs0 cs -> keepsDependents cs0 (updateCell cs id f).
Proof.
  intros Hf H k. specialize (H k). rewrite assoc_updateCell.
  destruct (String.eqb k id); [|exact H].
  destruct (assoc k cs0), (assoc k cs); cbn [option_map]; try exact H;
    try contradiction; now rewrite Hf.
Qed.

Lemma degree_setDegree (inDegree : list (string * Z)) (id x : string)
  (d : Z) :
  degree (setDegree inDegree id d) x
  = if String.eqb x id then d else degree inDegree x.
Proof.
  unfold degree.
  induction inDegree as [|[k v] l IH]; cbn [setDegree assoc].
  - now destruct (String.eqb x id).
  - destruct (String.eqb id k) eqn:E.
    + apply String.eqb_eq in E. subst k. cbn [assoc].
      now destruct (String.eqb x id).
    + cbn [assoc]. destruct (String.eqb x k) eqn:E'; [|exact IH].
      apply String.eqb_eq in E'. subst k.
      now rewrite String.eqb_sym, E.
Qed.

Lemma keys_setDegree (inDegree : list (string * Z)) (id : string) (d : Z) :
  In id (map fst inDegree) ->
  map fst (setDegree inDegree id d) = map fst inDegree.
Proof.
  induction inDegree as [|[k v] l IH]; cbn [setDegree map fst In];
    [intros []|].
  destruct (String.eqb id k) eqn:E; [reflexivity|].
  intros [H|H]; [apply String.eqb_neq in E; congruence|].
  cbn [map fst]. now rewrite IH.
Qed.

Lemma degree_zeros (dirtySet : list string) (x : string) :
  degree (map (fun id => (id, 0%Z)) dirtySet) x = 0%Z.
Proof.
  unfold degree. induction dirtySet as [|k l IH]; cbn [map assoc];
    [reflexivity|].
  now destruct (String.eqb x k).
Qed.

(** One cell of the dirty set adds 1 to the in-degree of each of its
    dependents in the set. *)
Lemma countDependents_spec (dirtySet deps : list string) :
  forall inDegree,
    map fst inDegree = dirtySet ->
    let inDegree' :=
      fold_left (fun inDegree dep =>
                   if set_has dirtySet dep
                   then setDegree inDegree dep (degree inDegree dep + 1)%Z
                   else inDegree) deps inDegree in
    map fst inDegree' = dirtySet
    /\ (forall x, (degree inDegree x <= degree inDegree' x)%Z)
    /\ (forall d, In d deps -> In d dirtySet ->
                  (degree inDegree d < degree inDegree' d)%Z).
Proof.
  induction deps as [|dep deps IH]; intros inDegree Hkeys; cbn [fold_left].
  - split; [exact Hkeys|]. split; [intros x; lia|intros d []].
  - set (inDegree1 :=
           if set_has dirtySet dep
           then setDegree inDegree dep (degree inDegree dep + 1)%Z
           else inDegree).
    assert (Hkeys1 : map fst inDegree1 = dirtySet).
    { unfold inDegree1. destruct (set_has dirtySet dep) eqn:Hdep;
        [|exact Hkeys].
      rewrite keys_setDegree; [exact Hkeys|].
      rewrite Hkeys. now apply set_has_In. }
    assert (Hmono1 : forall x, (degree inDegree x <= degree inDegree1 x)%Z).
    { intros x. unfold inDegree1. destruct (set_has dirtySet dep); [|lia].
      rewrite degree_setDegree. destruct (String.eqb x dep) eqn:E; [|lia].
      apply String.eqb_eq in E. subst x. lia. }
    destruct (IH inDegree1 Hkeys1) as (H1 & H2 & H3).
    split; [exact H1|]. split.
    + intros x. specialize (Hmono1 x). specialize (H2 x). lia.
    + intros d [<-|Hd] HD.
      * assert (Hstep : (degree inDegree dep < degree inDegree1 dep)%Z).
        { unfold inDegree1. apply set_has_In in HD. rewrite HD.
          rewrite degree_setDegree, String.eqb_refl. lia. }
        specialize (H2 dep). lia.
      * specialize (Hmono1 d). specialize (H3 d Hd HD). lia.
Qed.

(** The in-degrees of the dirty set: every cell of the set that is a
    dependent of a cell of the set has a positive in-degree. *)
Lemma buildInDegree_spec (dirtySet : list string) (g : Graph) :
  (forall k, In k dirtySet -> exists c, assoc k (cells g) = Some c) ->
  exists inDegree g',
    buildInDegree dirtySet g = (Ok inDegree, g')
    /\ cells g' = cells g
    /\ map fst inDegree = dirtySet
    /\ (forall k c d,
          In k dirtySet -> assoc k (cells g) = Some c ->
          In d (dependents c) -> In d dirtySet ->
          (0 < degree inDegree d)%Z).
Proof.
  intros Hexist. unfold buildInDegree.
  assert (H : forall ids inDegree g1,
            cells g1 = cells g -> incl ids dirtySet ->
            map fst inDegree = dirtySet ->
            exists inDegree' g',
              foldM (fun inDegree id =>
                let* cell := getCell id in
                ret (fold_left (fun inDegree dep =>
                       if set_has dirtySet dep
                       then setDegree inDegree dep
                              (degree inDegree dep + 1)%Z
                       else inDegree) (dependents cell) inDegree))
                ids inDegree g1 = (Ok inDegree', g')
              /\ cells g' = cells g
              /\ map fst inDegree' = dirtySet
              /\ (forall x, (degree inDegree x <= degree inDegree' x)%Z)
              /\ (forall k c d,
                    In k ids -> assoc k (cells g) = Some c ->
                    In d (dependents c) -> In d dirtySet ->
                    (degree inDegree d < degree inDegree' d)%Z)).
  { induction ids as [|id ids IH]; intros inDegree g1 Hg1 Hids Hkeys;
      cbn [foldM].
    - exists inDegree, g1. split; [reflexivity|]. split; [exact Hg1|].
      split; [exact Hkeys|]. split; [intros x; lia|intros k c d []].
    - destruct (Hexist id (Hids id (or_introl eq_refl))) as [cell Hcell].
      unfold bind at 1. unfold bind at 1. unfold getCell.
      rewrite Hg1, (getCellIn_found (cells g) id cell Hcell). cbn [ret].
      destruct (countDependents_spec dirtySet (dependents cell) inDegree
                  Hkeys) as (K1 & K2 & K3).
      destruct (IH _ (withCells (cells g) g1) eq_refl
                  (fun x Hx => Hids x (or_intror Hx)) K1)
        as (inDegree' & g' & Hrun & Hg' & Hkeys' & Hmono & Hpos).
      exists inDegree', g'. split; [exact Hrun|]. split; [exact Hg'|].
      split; [exact Hkeys'|]. split.
      + intros x. specialize (K2 x). specialize (Hmono x). lia.
      + intros k c d [<-|Hk] Hc Hd HD.
        * rewrite Hcell in Hc. injection Hc as <-.
          specialize (K3 d Hd HD). specialize (Hmono d). lia.
        * specialize (Hpos k c d Hk Hc Hd HD). specialize (K2 d). lia. }
  destruct (H dirtySet (map (fun id => (id, 0%Z)) dirtySet) g eq_refl
              (incl_refl _))
    as (inDegree & g' & Hrun & Hg' & Hkeys & _ & Hpos).
  { rewrite map_map. cbn. apply map_id. }
  exists inDegree, g'. split; [exact Hrun|]. split; [exact Hg'|].
  split; [exact Hkeys|].
  intros k c d Hk Hc Hd HD. specialize (Hpos k c d Hk Hc Hd HD).
  rewrite degree_zeros in Hpos. exact Hpos.
Qed.

Lemma assoc_In {A : Type} (l : list (string * A)) (k : string) (v : A) :
  List.NoDup (map fst l) -> In (k, v) l -> assoc k l = Some v.
Proof.
  induction l as [|[k' v'] l IH]; cbn [map fst In assoc]; [intros _ []|].
  intros Hnd [H|H].
  - injection H as -> ->. now rewrite String.eqb_refl.
  - apply List.NoDup_cons_iff in Hnd as [Hk' Hnd].
    destruct (String.eqb k k') eqn:E; [|now apply IH].
    apply String.eqb_eq in E. subst k'. elim Hk'.
    apply in_map_iff. now exists (k, v).
Qed.

(** No cell is ready when every in-degree is positive. *)
Lemma no_cell_is_ready (inDegree : list (string * Z)) :
  (forall id deg, In (id, deg) inDegree -> (0 < deg)%Z) ->
  filter (fun '(_, deg) => (deg =? 0)%Z) inDegree = [].
Proof.
  induction inDegree as [|[k v] l IH]; intros H; [reflexivity|].
  rewrite filter_cons.
  destruct (decide _) as [Hd|_].
  - cbn in Hd. apply Is_true_true in Hd. apply Z.eqb_eq in Hd.
    specialize (H k v (or_introl eq_refl)). lia.
  - apply IH. intros id deg Hin. apply (H id deg). now right.
Qed.

(** The cycle marking at the end of [recalculate]. *)
Lemma marking_spec (inDegree : list (string * Z)) :
  forall g,
    exists g',
      forEach inDegree (fun '(id, deg) =>
        if (0 <? deg)%Z then
          run getCell id in
          run assign id (set_status circular) in
          markDirty id
        else ret tt) g = (Ok tt, g')
      /\ (forall id, isCircular id (cells g) -> isCircular id (cells g'))
      /\ (forall id deg, In (id, deg) inDegree -> (0 < deg)%Z ->
                         isCircular id (cells g')).
Proof.
  induction inDegree as [|[k v] l IH]; intros g; cbn [forEach].
  - exists g. split; [reflexivity|]. split; [auto|intros id deg []].
  - destruct (0 <? v)%Z eqn:Hv.
    + unfold bind at 1. unfold bind at 1. unfold getCell.
      pose proof (getCellIn_fst (cells g) k) as Hk.
      pose proof (fun id => isCircular_getCellIn id (cells g) k) as Hkeep.
      destruct (getCellIn (cells g) k) as [c cs]. cbn [fst snd] in Hk, Hkeep.
      unfold bind at 1. cbn [assign modify markDirty withCells cells].
      match goal with
      | |- context [forEach l _ ?g1] =>
          destruct (IH g1) as (g' & Hrun & Hold & Hnew)
      end.
      cbn [cells] in Hold.
      exists g'. split; [exact Hrun|]. split.
      * intros id Hid. apply Hold.
        apply isCircular_updateCell; [right; now intros ?|]. now apply Hkeep.
      * intros id deg [H|H] Hdeg; [|now apply (Hnew id deg)].
        injection H as <- <-. apply Hold. exists (set_status circular c).
        now rewrite assoc_updateCell_same, Hk.
    + unfold bind at 1. cbn [ret].
      destruct (IH g) as (g' & Hrun & Hold & Hnew).
      exists g'. split; [exact Hrun|]. split; [exact Hold|].
      intros id deg [H|H] Hdeg; [|now apply (Hnew id deg)].
      injection H as <- <-. apply Z.ltb_ge in Hv. lia.
Qed.

(** A recalculation that starts on a cycle: when the start cell is a
    dependent of a cell it reaches, no cell of the dirty set is ever
    ready, nothing is evaluated, the recalculation returns, and every
    cell that the start cell reaches is marked circular. *)
Lemma recalculate_on_a_cycle (rt : Runtime) (startId : string) (g : Graph)
  (k : string) (ck : Cell) :
  reaches (cells g) startId k ->
  assoc k (cells g) = Some ck ->
  In startId (dependents ck) ->
  exists g',
    recalculate rt startId g = (Ok tt, g')
    /\ forall d, reaches (cells g) startId d -> isCircular d (cells g').
Proof.
  intros Hk Hck Hback.
  unfold recalculate, buildOrder.
  unfold bind at 1. unfold bind at 1. cbn [gets].
  destruct (buildOrderLoop_spec (S (edgeCount (cells g))) [startId] [] g)
    as (dirtySet & gB & Hrun & Hnd & Hstart & Hclosed & Hmarked).
  { rewrite pendingEdges_nil. cbn [List.length]. lia. }
  { apply NoDup_nil_2. }
  { intros x c d []. }
  { intros x []. }
  rewrite Hrun.
  (* the dirty set is what the start cell reaches *)
  assert (Hreached : forall x, In x dirtySet -> reaches (cells g) startId x).
  { apply (buildOrderLoop_reaches (cells g) startId _ _ _ _ _ _ Hrun).
    - intros x [[]|[<-|[]]]. apply reaches_start.
    - apply keepsDependents_refl. }
  assert (Hsame : keepsDependents (cells g) (cells gB)).
  { pose proof (frame_buildOrderLoop (keepsDependents (cells g))
                  (fun cs id => keepsDependents_getCellIn (cells g) cs id)
                  (fun cs id s =>
                     keepsDependents_updateCell (cells g) cs id
                       (set_status s) (fun c => eq_refl))
                  (S (edgeCount (cells g))) [startId] [] g
                  (keepsDependents_refl (cells g))) as H.
    now rewrite Hrun in H. }
  assert (Hedge : forall x c d,
            In x dirtySet -> assoc x (cells g) = Some c ->
            In d (dependents c) ->
            In d dirtySet
            /\ exists cB, assoc x (cells gB) = Some cB
                          /\ In d (dependents cB)).
  { intros x c d Hx Hc Hd. specialize (Hsame x). rewrite Hc in Hsame.
    destruct (assoc x (cells gB)) as [cB|] eqn:HcB; [|contradiction].
    rewrite <- Hsame in Hd. split; [|now exists cB].
    destruct (Hclosed x cB d Hx HcB Hd) as [H|[]]. exact H. }
  assert (Hall : forall x, reaches (cells g) startId x -> In x dirtySet).
  { intros x Hx. induction Hx as [|x d c _ IH Hc Hd].
    - apply Hstart. right. now left.
    - now apply (Hedge x c d IH Hc Hd). }
  assert (Hentered : forall d,
            In d dirtySet ->
            exists x cB, In x dirtySet /\ assoc x (cells gB) = Some cB
                         /\ In d (dependents cB)).
  { intros d Hd. specialize (Hreached d Hd).
    destruct Hreached as [|x d c Hx Hc Hdep].
    - destruct (Hedge k ck startId (Hall k Hk) Hck Hback)
        as (_ & cB & HcB & HB).
      exists k, cB. split; [now apply Hall|]. now split.
    - destruct (Hedge x c d (Hall x Hx) Hc Hdep) as (_ & cB & HcB & HB).
      exists x, cB. split; [now apply Hall|]. now split. }
  (* every in-degree is positive *)
  destruct (buildInDegree_spec dirtySet gB)
    as (inDegree & gI & HrunI & HgI & Hkeys & Hpos).
  { intros x Hx. destruct (Hmarked x Hx) as (c & Hc & _). now exists c. }
  unfold bind at 1. rewrite HrunI.
  assert (Hdegrees : forall id deg, In (id, deg) inDegree -> (0 < deg)%Z).
  { intros id deg Hin.
    assert (Hid : In id dirtySet).
    { rewrite <- Hkeys. apply in_map_iff. now exists (id, deg). }
    assert (Hdeg : degree inDegree id = deg).
    { unfold degree.
      rewrite (assoc_In inDegree id deg); [reflexivity| |exact Hin].
      rewrite Hkeys. apply NoDup_ListNoDup. exact Hnd. }
    destruct (Hentered id Hid) as (x & cB & Hx & HcB & HB).
    rewrite <- Hdeg. now apply (Hpos x cB id). }
  rewrite (no_cell_is_ready inDegree Hdegrees). cbn [map].
  (* nothing is evaluated, and the dirty set is marked *)
  unfold bind at 1.
  assert (Hloop : executeLoop rt (List.length dirtySet) dirtySet []
                    inDegree 0 gI = (Ok (inDegree, 0), gI))
    by now destruct (List.length dirtySet).
  rewrite Hloop.
  assert (Hsome : (0 <? List.length dirtySet)%nat = true).
  { apply Nat.ltb_lt. destruct dirtySet; [|cbn; lia].
    destruct (Hstart startId); now right; left. }
  rewrite Hsome.
  destruct (marking_spec inDegree gI) as (g' & Hmark & _ & Hcirc).
  exists g'. split; [exact Hmark|].
  intros d Hd. apply Hall in Hd.
  rewrite <- Hkeys in Hd. apply in_map_iff in Hd as ([id deg] & Heq & Hin).
  cbn [fst] in Heq. subst id. apply (Hcirc d deg Hin).
  exact (Hdegrees d deg Hin).
Qed.

(** *** An input to a cell that has not been set *)

Section InputToUnset.

Variable rt : Runtime.
Variables id b input : string.
Hypothesis Hdeps : detectDependencies input = [b].
Hypothesis Hinput : input <> EmptyString.

(** A property of the table of cells that the steps of the input before
    the recalculation keep. *)
Variable I : Cells -> Prop.
Hypothesis I_getCell : forall cs k, I cs -> I (snd (getCellIn cs k)).
Hypothesis I_dependents :
  forall cs k,
    I cs ->
    I (updateCell cs k (fun c => set_dependents (set_add (dependents c) id) c)).
Hypothesis I_rawInput :
  forall cs, I cs -> I (updateCell cs id (set_rawInput input)).
Hypothesis I_dependencies :
  forall cs, I cs -> I (updateCell cs id (set_dependencies [b])).

Lemma input_to_an_unset_cell (g : Graph) :
  unset id (cells g) -> I (cells g) ->
  exists gP,
    setCellInput rt id input g = recalculate rt id gP
    /\ registered id b (cells gP)
    /\ I (cells gP).
Proof.
  intros Hunset Hg.
  unfold setCellInput. unfold bind at 1. unfold getCell.
  pose proof (getCellIn_fst (cells g) id) as Hc0.
  pose proof (I_getCell (cells g) id Hg) as Hg0.
  assert (Hnew : rawInput (fst (getCellIn (cells g) id)) = EmptyString
                 /\ dependencies (fst (getCellIn (cells g) id)) = []).
  { unfold getCellIn, unset in *.
    destruct (assoc id (cells g)); cbn [fst]; auto. }
  destruct (getCellIn (cells g) id) as [c0 cs0]. cbn [fst snd] in *.
  destruct Hnew as [Hraw Hnodeps].
  assert (Hne : String.eqb (rawInput c0) input = false).
  { apply String.eqb_neq. congruence. }
  rewrite Hne.
  unfold bind at 1. cbn [assign modify]. unfold bind at 1.
  cbn [markDirty modify]. rewrite Hdeps. unfold bind at 1.
  unfold updateDependencies. unfold bind at 1. unfold getCell.
  cbn [cells withCells].
  rewrite (getCellIn_found (updateCell cs0 id (set_rawInput input)) id
             (set_rawInput input c0))
    by now rewrite assoc_updateCell_same, Hc0.
  cbn [dependencies set_rawInput]. rewrite Hnodeps.
  cbn [forEach set_has existsb negb]. unfold bind, ret, assign, modify.
  cbn [cells withCells].
  pose proof (getCellIn_fst (updateCell cs0 id (set_rawInput input)) b)
    as Hcb.
  pose proof (I_getCell _ b (I_rawInput cs0 Hg0)) as Hgb.
  destruct (getCellIn (updateCell cs0 id (set_rawInput input)) b)
    as [cb csb].
  cbn [fst snd cells withCells] in *.
  eexists. split; [reflexivity|]. cbn [cells withCells]. split.
  - unfold registered. rewrite !assoc_updateCell, String.eqb_refl, Hcb.
    cbn [option_map].
    destruct (String.eqb b id); eexists; (split; [reflexivity|]);
      cbn [dependents set_dependents set_dependencies];
      apply set_add_In; now right.
  - apply I_dependencies. now apply I_dependents.
Qed.

End InputToUnset.

Lemma unset_getCellIn (cellId : string) (cs : Cells) (k : string) :
  unset cellId cs -> unset cellId (snd (getCellIn cs k)).
Proof.
  unfold unset. rewrite assoc_getCellIn.
  destruct (assoc cellId cs); [auto|].
  now destruct (String.eqb cellId k).
Qed.

Lemma unset_updateCell (cellId : string) (cs : Cells) (k : string)
  (f : Cell -> Cell) :
  String.eqb cellId k = false
  \/ (forall c, rawInput (f c) = rawInput c
                /\ dependencies (f c) = dependencies c) ->
  unset cellId cs -> unset cellId (updateCell cs k f).
Proof.
  unfold unset. intros Hf. rewrite assoc_updateCell.
  destruct (String.eqb cellId k); [|auto].
  destruct Hf as [Hf|Hf]; [discriminate|].
  destruct (assoc cellId cs) as [c|]; cbn [option_map]; [|auto].
  now destruct (Hf c) as [-> ->].
Qed.

Lemma registered_updateCell (a b : string) (cs : Cells) (k : string)
  (f : Cell -> Cell) :
  (forall c, dependents (f c) = dependents c) ->
  registered a b cs -> registered a b (updateCell cs k f).
Proof.
  intros Hf (cb & Hb & Ha). unfold registered.
  rewrite assoc_updateCell, Hb.
  destruct (String.eqb b k); [|now exists cb].
  exists (f cb). split; [reflexivity|]. now rewrite Hf.
Qed.

(** On a sheet without cells both inputs return, whatever the runtime,
    the configuration and the store are. *)
Lemma cycle_on_a_sheet_without_cells (rt : Runtime) (dirty : list string)
  (maxC : number) (store : Heap) :
  exists g,
    (run setCellInput rt "A1" "=A2" in setCellInput rt "A2" "=A1")
      {| cells := []; dirtyTrack := dirty; config_maxComponents := maxC;
         objects := store |}
    = (Ok tt, g)
    /\ isCircular "A1" (cells g)
    /\ isCircular "A2" (cells g).
Proof.
  eexists. split; [vm_compute; reflexivity|].
  split; eexists; (split; [reflexivity|reflexivity]).
Qed.

(** C5.  On every graph in which [A1] and [A2] have not been set,
    whatever its other cells and their edges are: when the input of
    [=A2] to [A1] has returned, the input of [=A1] to [A2] returns too,
    and both cells have the status [circular] after it. *)
Theorem cycle_detection (rt : Runtime) (g g1 : Graph)
  (HA1 : unset "A1" (cells g))
  (HA2 : unset "A2" (cells g))
  (Hfirst : setCellInput rt "A1" "=A2" g = (Ok tt, g1)) :
  exists g2,
    setCellInput rt "A2" "=A1" g1 = (Ok tt, g2)
    /\ isCircular "A1" (cells g2)
    /\ isCircular "A2" (cells g2).
Proof.
  (* the first input: [A1] becomes a dependent of [A2] *)
  destruct (input_to_an_unset_cell rt "A1" "A2" "=A2" eq_refl
              ltac:(discriminate) (unset "A2")) with (g := g)
    as (gP1 & Hrun1 & Hreg1 & Hunset1); auto using unset_getCellIn.
  { intros cs k. apply unset_updateCell. right. now intros c. }
  { intros cs. apply unset_updateCell. now left. }
  { intros cs. apply unset_updateCell. now left. }
  rewrite Hrun1 in Hfirst.
  assert (Hg1 : registered "A1" "A2" (cells g1) /\ unset "A2" (cells g1)).
  { pose proof (frame_recalculate rt
                  (fun cs => registered "A1" "A2" cs /\ unset "A2" cs))
      as H.
    specialize (H ltac:(intros cs k [H1 H2]; split;
                          [now apply registered_getCellIn
                          |now apply unset_getCellIn])).
    specialize (H ltac:(intros cs k v [H1 H2]; split;
                          [now apply registered_updateCell
                          |apply unset_updateCell; [right; now intros c|]];
                          assumption)).
    specialize (H ltac:(intros cs k v [H1 H2]; split;
                          [now apply registered_updateCell
                          |apply unset_updateCell; [right; now intros c|]];
                          assumption)).
    specialize (H ltac:(intros cs k v [H1 H2]; split;
                          [now apply registered_updateCell
                          |apply unset_updateCell; [right; now intros c|]];
                          assumption)).
    specialize (H "A1" gP1 (conj Hreg1 Hunset1)).
    now rewrite Hfirst in H. }
  destruct Hg1 as [Hreg Hunset].
  (* the second input: [A2] becomes a dependent of [A1] *)
  destruct (input_to_an_unset_cell rt "A2" "A1" "=A1" eq_refl
              ltac:(discriminate) (registered "A1" "A2")) with (g := g1)
    as (gP2 & Hrun2 & Hreg2 & Hreg1');
    auto using registered_getCellIn.
  { intros cs k Hcs.
    apply (registered_update "A1" "A2" k cs (fun l => set_add l "A2"));
      [|exact Hcs].
    right. intros l Hl. apply set_add_In. now left. }
  { intros cs. apply registered_updateCell. now intros c. }
  { intros cs. apply registered_updateCell. now intros c. }
  rewrite Hrun2.
  (* the recalculation starts on the cycle *)
  destruct Hreg1' as (c2 & Hc2 & Hin2). destruct Hreg2 as (c1 & Hc1 & Hin1).
  assert (Hreach : reaches (cells gP2) "A2" "A1").
  { apply (reaches_dependent _ _ "A2" "A1" c2); auto. apply reaches_start. }
  destruct (recalculate_on_a_cycle rt "A2" gP2 "A1" c1 Hreach Hc1 Hin1)
    as (g2 & Hrun & Hcirc).
  exists g2. split; [exact Hrun|]. split.
  - now apply Hcirc.
  - apply Hcirc. apply reaches_start.
Qed.

Lemma cycle_detection_witness :
  exists g2,
    setCellInput exampleRuntime "A2" "=A1"
      (snd (setCellInput exampleRuntime "A1" "=A2" sheetOfB1))
    = (Ok tt, g2)
    /\ isCircular "A1" (cells g2)
    /\ isCircular "A2" (cells g2).
Proof.
  apply (cycle_detection exampleRuntime sheetOfB1).
  - vm_compute. now split.
  - vm_compute. now split.
  - vm_compute. reflexivity.
Defined.
